(** * random-class: class/ID renaming over HTML, JS and CSS text

    A shallow embedding of [app.py] and the properties of its scanner,
    name generator, rewriter and two-pass driver.

    Text is modelled as [string] over 8-bit characters, read as the code
    points 0..255; the character classes of Python's [re] ([\s], [\b], [.])
    are given for that range. *)

From Stdlib Require Import Ascii String List Bool Arith Lia.
From stdpp Require Import gmap strings list.

Local Arguments String.append : simpl nomatch.

(** ** Characters and strings *)

Module Chars.

Definition code (c : ascii) : nat := nat_of_ascii c.

Definition between (lo hi : nat) (c : ascii) : bool :=
  (lo <=? code c) && (code c <=? hi).

(** The double quote, written by its code. *)
Definition dquote : ascii := "034"%char.
Definition squote : ascii := "'"%char.
Definition backslash : ascii := "\"%char.

Definition is_lower (c : ascii) : bool := between 97 122 c.
Definition is_upper (c : ascii) : bool := between 65 90 c.
Definition is_digit (c : ascii) : bool := between 48 57 c.
Definition is_alnum (c : ascii) : bool := is_lower c || is_upper c || is_digit c.

(** [\s] on [str] patterns: Unicode white space below 256. *)
Definition is_space (c : ascii) : bool :=
  between 9 13 c || between 28 32 c || (code c =? 133) || (code c =? 160).

(** [\w] on [str] patterns: Unicode alphanumerics below 256, and [_]. *)
Definition is_word (c : ascii) : bool :=
  is_alnum c || (code c =? 95)
  || (code c =? 170) || (code c =? 178) || (code c =? 179) || (code c =? 181)
  || (code c =? 185) || (code c =? 186) || between 188 190 c
  || between 192 214 c || between 216 246 c || between 248 255 c.

(** The class of the two quote characters. *)
Definition quote (c : ascii) : bool := Ascii.eqb c dquote || Ascii.eqb c squote.
(** The complement of the quote class. *)
Definition not_quote (c : ascii) : bool := negb (quote c).
(** [.] without DOTALL: anything but a line feed. *)
Definition any_char (c : ascii) : bool := negb (Ascii.eqb c "010"%char).
(** [[a-zA-Z0-9_-]] *)
Definition css_ident_char (c : ascii) : bool :=
  is_alnum c || Ascii.eqb c "_"%char || Ascii.eqb c "-"%char.
(** [[{:,]] *)
Definition css_punct (c : ascii) : bool :=
  Ascii.eqb c "{"%char || Ascii.eqb c ":"%char || Ascii.eqb c ","%char.

Fixpoint all_chars (p : ascii -> bool) (s : string) : bool :=
  match s with
  | EmptyString => true
  | String c t => p c && all_chars p t
  end.

Fixpoint ends_with (suffix s : string) : bool :=
  if String.eqb suffix s then true
  else match s with
       | EmptyString => false
       | String _ t => ends_with suffix t
       end.

Definition dq : string := String dquote EmptyString.

End Chars.

Import Chars.

(** ** The fragment of Python's [re] that the program uses

    A backtracking matcher in continuation-passing style: alternatives are
    tried left to right and [+] is greedy, as in [sre].  [sub] and
    [findall] walk the subject from left to right over non-overlapping
    matches; after an empty match the next one must not be empty at the
    same place. *)

Module Re.

Inductive regex : Type :=
| Lit (s : string)            (* literal text, as produced by re.escape *)
| Cls (p : ascii -> bool)     (* one character of a class *)
| Plus (p : ascii -> bool)    (* C+ for a class C, greedy *)
| WordB                       (* \b *)
| Seq (r1 r2 : regex)
| Alt (r1 r2 : regex)
| Group (n : nat) (r : regex) (* n-th capturing group *).

Record mstate : Type := MState {
  prev : option ascii;            (* character before the position *)
  rest : string;                  (* text from the position on *)
  caps : list (nat * string)      (* groups captured so far *)
}.

Definition word_opt (o : option ascii) : bool :=
  match o with Some c => is_word c | None => false end.

Definition head (s : string) : option ascii :=
  match s with String c _ => Some c | EmptyString => None end.

(** Text of [s] in front of its suffix [r]. *)
Definition consumed (s r : string) : string :=
  substring 0 (String.length s - String.length r) s.

Fixpoint lit (l : string) (p : option ascii) (s : string)
  : option (option ascii * string) :=
  match l with
  | EmptyString => Some (p, s)
  | String a l' =>
      match s with
      | String c t => if Ascii.eqb a c then lit l' (Some c) t else None
      | EmptyString => None
      end
  end.

Fixpoint plus {R : Type} (p : ascii -> bool)
    (k : option ascii -> string -> option R) (s : string) : option R :=
  match s with
  | String c t =>
      if p c then
        match plus p k t with
        | Some r => Some r
        | None => k (Some c) t
        end
      else None
  | EmptyString => None
  end.

Fixpoint rmatch (r : regex) (k : mstate -> option mstate) (st : mstate)
  : option mstate :=
  match r with
  | Lit l =>
      match lit l (prev st) (rest st) with
      | Some (p, s) => k (MState p s (caps st))
      | None => None
      end
  | Cls p =>
      match rest st with
      | String c t => if p c then k (MState (Some c) t (caps st)) else None
      | EmptyString => None
      end
  | Plus p => plus p (fun pv s => k (MState pv s (caps st))) (rest st)
  | WordB =>
      if xorb (word_opt (prev st)) (word_opt (head (rest st)))
      then k st else None
  | Seq r1 r2 => rmatch r1 (rmatch r2 k) st
  | Alt r1 r2 =>
      match rmatch r1 k st with
      | Some m => Some m
      | None => rmatch r2 k st
      end
  | Group n r =>
      rmatch r (fun st' =>
        k (MState (prev st') (rest st')
             ((n, consumed (rest st) (rest st')) :: caps st'))) st
  end.

(** A match anchored at the position [(p, s)]. *)
Definition match_here (r : regex) (p : option ascii) (must_advance : bool)
    (s : string) : option mstate :=
  rmatch r
    (fun st =>
       if must_advance && (String.length (rest st) =? String.length s)
       then None else Some st)
    (MState p s nil).

(** A found match: the text from its start on, and the state at its end. *)
Record found : Type := Found {
  from : string;
  final : mstate
}.

Definition whole (m : found) : string := consumed (from m) (rest (final m)).

Fixpoint lookup_cap (n : nat) (l : list (nat * string)) : option string :=
  match l with
  | nil => None
  | (i, t) :: l' => if i =? n then Some t else lookup_cap n l'
  end.

(** [m.group(n)], with the empty string for a group that did not match. *)
Definition group (n : nat) (m : found) : string :=
  match n with
  | 0 => whole m
  | _ => match lookup_cap n (caps (final m)) with
         | Some t => t
         | None => EmptyString
         end
  end.

(** The leftmost match at or after the position, with the text skipped
    before it. *)
Fixpoint search (r : regex) (p : option ascii) (must_advance : bool)
    (s : string) : option (string * found) :=
  match match_here r p must_advance s with
  | Some st => Some (EmptyString, Found s st)
  | None =>
      match s with
      | EmptyString => None
      | String c t =>
          match search r (Some c) false t with
          | Some (skipped, m) => Some (String c skipped, m)
          | None => None
          end
      end
  end.

Definition is_empty (m : found) : bool :=
  String.length (rest (final m)) =? String.length (from m).

Fixpoint finditer_loop (fuel : nat) (r : regex) (p : option ascii)
    (must_advance : bool) (s : string) : list found :=
  match fuel with
  | 0 => nil
  | S fuel' =>
      match search r p must_advance s with
      | None => nil
      | Some (_, m) =>
          m :: finditer_loop fuel' r (prev (final m)) (is_empty m)
                 (rest (final m))
      end
  end.

Definition finditer (r : regex) (s : string) : list found :=
  finditer_loop (2 * String.length s + 2) r None false s.

(** [re.findall] for a pattern with one group, and with two. *)
Definition findall1 (r : regex) (s : string) : list string :=
  List.map (group 1) (finditer r s).

Definition findall2 (r : regex) (s : string) : list (string * string) :=
  List.map (fun m => (group 1 m, group 2 m)) (finditer r s).

(** Replacement templates. *)
Inductive titem : Type :=
| TChr (c : ascii)
| TRef (n : nat).

Definition digit_val (c : ascii) : nat := code c - 48.

Definition starts_with_digit (s : string) : bool :=
  match s with String c _ => is_digit c | EmptyString => false end.

(** The template parser on the escapes the program can meet: a
    backslash followed by a digit 1..9 is a group reference (refused when
    the pattern has no such group), two backslashes are one, and a
    backslash before any other character that is not an ASCII letter or
    digit stays as it is.  [None] stands for [re.error] and for the escapes
    left out of the model (octal and two-digit references, letter
    escapes). *)
Fixpoint parse_template (ngroups : nat) (s : string) : option (list titem) :=
  match s with
  | EmptyString => Some nil
  | String c t =>
      if Ascii.eqb c backslash then
        match t with
        | EmptyString => None
        | String d t' =>
            if Ascii.eqb d backslash then
              option_map (cons (TChr backslash)) (parse_template ngroups t')
            else if is_alnum d then
              if between 49 57 d && negb (starts_with_digit t')
                 && (digit_val d <=? ngroups)
              then option_map (cons (TRef (digit_val d)))
                     (parse_template ngroups t')
              else None
            else option_map (fun l => TChr backslash :: TChr d :: l)
                   (parse_template ngroups t')
        end
      else option_map (cons (TChr c)) (parse_template ngroups t)
  end.

Fixpoint expand (tpl : list titem) (m : found) : string :=
  match tpl with
  | nil => EmptyString
  | TChr c :: tpl' => String c (expand tpl' m)
  | TRef n :: tpl' => group n m +:+ expand tpl' m
  end.

Fixpoint sub_loop (fuel : nat) (r : regex) (tpl : list titem)
    (p : option ascii) (must_advance : bool) (s : string) : string :=
  match fuel with
  | 0 => s
  | S fuel' =>
      match search r p must_advance s with
      | None => s
      | Some (skipped, m) =>
          skipped +:+ expand tpl m +:+
            sub_loop fuel' r tpl (prev (final m)) (is_empty m) (rest (final m))
      end
  end.

(** [re.sub(pattern, template, s)] for a pattern with [ngroups] groups. *)
Definition sub (r : regex) (ngroups : nat) (template : string) (s : string)
  : option string :=
  match parse_template ngroups template with
  | None => None
  | Some tpl => Some (sub_loop (2 * String.length s + 2) r tpl None false s)
  end.

End Re.

Infix "@@" := Re.Seq (at level 62, right associativity).

(** ** The program *)

Module App.
Import Re.

(** [string.ascii_letters + string.digits] *)
Definition alphabet : string :=
  "abcdefghijklmnopqrstuvwxyzABCDEFGHIJKLMNOPQRSTUVWXYZ0123456789".

(** [population[i]]; the index drawn by [random.choices] is in range, the
    default is never a letter or a digit. *)
Definition char_at (population : string) (i : nat) : ascii :=
  match String.get i population with
  | Some c => c
  | None => "000"%char
  end.

Section Random.
(** The random source: [randbelow n g] is the index
    [floor(random() * n)] drawn in state [g], and the next state. *)
Context {rng : Type}.
Variable randbelow : nat -> rng -> nat * rng.

(** [random.choices(population, k=k)], joined. *)
Fixpoint choices (population : string) (k : nat) (g : rng) : string * rng :=
  match k with
  | 0 => (EmptyString, g)
  | S k' =>
      let '(i, g1) := randbelow (String.length population) g in
      let '(t, g2) := choices population k' g1 in
      (String (char_at population i) t, g2)
  end.

Definition generate_random_string (g : rng) : string * rng :=
  choices alphabet 8 g.

End Random.

(** One turn of the loop of [replace_classnames_ids]. *)
Definition replace_one (old_name new_name content : string) : option string :=
  content ← sub (Lit "class=" @@ Cls quote @@ Lit old_name @@ Cls quote) 0
                ("class=" +:+ dq +:+ new_name +:+ dq) content;
  content ← sub (Lit "className=" @@ Cls quote @@ Lit old_name @@ Cls quote) 0
                ("className=" +:+ dq +:+ new_name +:+ dq) content;
  content ← sub (WordB @@ Lit "querySelector(" @@ Cls quote @@ Cls any_char
                   @@ Lit old_name @@ Cls quote @@ Lit ")") 0
                ("querySelector(" +:+ dq +:+ "." +:+ new_name +:+ dq +:+ ")")
                content;
  content ← sub (WordB @@ Lit "querySelectorAll(" @@ Cls quote @@ Cls any_char
                   @@ Lit old_name @@ Cls quote @@ Lit ")") 0
                ("querySelectorAll(" +:+ dq +:+ "." +:+ new_name +:+ dq +:+ ")")
                content;
  content ← sub (WordB @@ Lit "getElementsByClassName(" @@ Cls quote
                   @@ Lit old_name @@ Cls quote @@ Lit ")") 0
                ("getElementsByClassName(" +:+ dq +:+ new_name +:+ dq +:+ ")")
                content;
  content ← sub (Lit "id=" @@ Cls quote @@ Lit old_name @@ Cls quote) 0
                ("id=" +:+ dq +:+ new_name +:+ dq) content;
  sub (WordB @@ Lit "getElementById(" @@ Cls quote @@ Lit old_name
         @@ Cls quote @@ Lit ")") 0
      ("getElementById(" +:+ dq +:+ new_name +:+ dq +:+ ")") content.

(** The dictionary is a list of items in insertion order, which is the
    order [items()] yields. *)
Fixpoint replace_classnames_ids (content : string)
    (replacements : list (string * string)) : option string :=
  match replacements with
  | nil => Some content
  | (old_name, new_name) :: more =>
      content ← replace_one old_name new_name content;
      replace_classnames_ids content more
  end.

(** One turn of the loop of [replace_classnames_ids_css]. *)
Definition replace_one_css (old_name new_name content : string) : option string :=
  content ← sub (Lit "." @@ Group 1 (Lit old_name)
                   @@ Group 2 (Alt (Cls is_space) (Cls css_punct))) 2
                ("." +:+ new_name +:+ "\2") content;
  sub (Lit "#" @@ Group 1 (Lit old_name)
         @@ Group 2 (Alt (Cls is_space) (Cls css_punct))) 2
      ("#" +:+ new_name +:+ "\2") content.

Fixpoint replace_classnames_ids_css (content : string)
    (replacements : list (string * string)) : option string :=
  match replacements with
  | nil => Some content
  | (old_name, new_name) :: more =>
      content ← replace_one_css old_name new_name content;
      replace_classnames_ids_css content more
  end.

Definition to_set (l : list string) : gset string := list_to_set l.

Definition find_classnames_ids (content : string) : gset string * gset string :=
  let classnames :=
    to_set (findall1 (Lit "class=" @@ Cls quote @@ Group 1 (Plus not_quote)
                        @@ Cls quote) content) in
  let ids :=
    to_set (findall1 (Lit "id=" @@ Cls quote @@ Group 1 (Plus not_quote)
                        @@ Cls quote) content) in
  let classnames_js :=
    to_set (findall1 (Lit "querySelector(" @@ Cls quote @@ Cls any_char
                        @@ Group 1 (Plus not_quote) @@ Cls quote @@ Lit ")")
              content) in
  let classnames_js := classnames_js ∪
    to_set (findall1 (Lit "querySelectorAll(" @@ Cls quote @@ Cls any_char
                        @@ Group 1 (Plus not_quote) @@ Cls quote @@ Lit ")")
              content) in
  let classnames_js := classnames_js ∪
    to_set (findall1 (Lit "getElementsByClassName(" @@ Cls quote
                        @@ Group 1 (Plus not_quote) @@ Cls quote @@ Lit ")")
              content) in
  let ids_js :=
    to_set (findall1 (Lit "getElementById(" @@ Cls quote
                        @@ Group 1 (Plus not_quote) @@ Cls quote @@ Lit ")")
              content) in
  (classnames ∪ classnames_js, ids ∪ ids_js).

Definition find_classnames_ids_css (content : string)
  : gset string * gset string :=
  let classnames : gset (string * string) :=
    list_to_set (findall2 (Lit "." @@ Group 1 (Plus css_ident_char)
                   @@ Group 2 (Alt (Cls is_space) (Cls css_punct))) content) in
  let ids : gset (string * string) :=
    list_to_set (findall2 (Lit "#" @@ Group 1 (Plus css_ident_char)
                   @@ Group 2 (Alt (Cls is_space) (Cls css_punct))) content) in
  (set_map fst classnames, set_map fst ids).

(** *** The driver *)

Inductive exn : Type :=
| FileNotFoundError (filename : string)
| PermissionError (filename : string)
| OtherError (what : string)       (* any other exception of the file system *)
| ReError.                         (* re.error *)

Inductive level : Type := DEBUG | INFO | ERROR.

Inductive record : Type :=
| Line (lvl : level) (message : string)
| ReplacementsLine (replacements : list (string * string)).

Inductive outcome (A : Type) : Type :=
| Returned (a : A)
| Raised (e : exn).
Arguments Returned {A} a.
Arguments Raised {A} e.

Definition has_key (name : string) (replacements : list (string * string)) : bool :=
  existsb (fun kv => String.eqb (fst kv) name) replacements.

Section Driver.
(** What the program does not define: the file system, the random
    source, and the order in which a set is iterated. *)
Context {fsys rng : Type}.
Variable read_text : fsys -> string -> exn + string.
Variable write_text : fsys -> string -> string -> fsys * option exn.
Variable randbelow : nat -> rng -> nat * rng.
Variable set_order : gset string -> list string.

Record world : Type := World {
  disk : fsys;
  random_state : rng;
  log : list record
}.

Definition logging (lvl : level) (message : string) (w : world) : world :=
  World (disk w) (random_state w) (log w ++ [Line lvl message]).

(** The two [except] clauses shared by both passes. *)
Definition handle {A : Type} (e : exn) (skip : A) (w : world)
  : world * outcome A :=
  match e with
  | FileNotFoundError filename =>
      (logging ERROR ("File not found: " +:+ filename) w, Returned skip)
  | PermissionError filename =>
      (logging ERROR ("Permission error: " +:+ filename) w, Returned skip)
  | _ => (w, Raised e)
  end.

Definition scan_file (file_path : string)
    (found : gset string * gset string) (w : world)
  : world * outcome (gset string * gset string) :=
  let w := logging DEBUG ("Scanning file: " +:+ file_path) w in
  match read_text (disk w) file_path with
  | inr content =>
      let '(classnames, ids) :=
        if ends_with ".css" file_path
        then find_classnames_ids_css content
        else find_classnames_ids content in
      (w, Returned (fst found ∪ classnames, snd found ∪ ids))
  | inl e => handle e found w
  end.

Fixpoint scan_phase (files : list string)
    (found : gset string * gset string) (w : world)
  : world * outcome (gset string * gset string) :=
  match files with
  | nil => (w, Returned found)
  | file_path :: more =>
      match scan_file file_path found w with
      | (w', Returned found') => scan_phase more found' w'
      | (w', Raised e) => (w', Raised e)
      end
  end.

(** [for name in names: if name not in replacements: ...] *)
Fixpoint assign (names : list string)
    (replacements : list (string * string)) (g : rng)
  : list (string * string) * rng :=
  match names with
  | nil => (replacements, g)
  | name :: more =>
      if has_key name replacements then assign more replacements g
      else
        let '(token, g') := generate_random_string randbelow g in
        assign more (replacements ++ [(name, token)]) g'
  end.

Definition mapping_phase (all_classnames all_ids : gset string) (w : world)
  : world * list (string * string) :=
  let '(replacements, g) :=
    assign (set_order all_classnames) nil (random_state w) in
  let '(replacements, g) := assign (set_order all_ids) replacements g in
  (World (disk w) g (log w), replacements).

Definition rewrite_file (file_path : string)
    (replacements : list (string * string)) (w : world)
  : world * outcome unit :=
  let w := logging DEBUG ("Processing file: " +:+ file_path) w in
  match read_text (disk w) file_path with
  | inr content =>
      match (if ends_with ".css" file_path
             then replace_classnames_ids_css content replacements
             else replace_classnames_ids content replacements) with
      | Some content =>
          match write_text (disk w) file_path content with
          | (d, None) =>
              (logging DEBUG ("Processed file: " +:+ file_path)
                 (World d (random_state w) (log w)), Returned tt)
          | (d, Some e) =>
              handle e tt (World d (random_state w) (log w))
          end
      | None => (w, Raised ReError)
      end
  | inl e => handle e tt w
  end.

Fixpoint rewrite_phase (files : list string)
    (replacements : list (string * string)) (w : world)
  : world * outcome unit :=
  match files with
  | nil => (w, Returned tt)
  | file_path :: more =>
      match rewrite_file file_path replacements w with
      | (w', Returned _) => rewrite_phase more replacements w'
      | (w', Raised e) => (w', Raised e)
      end
  end.

Definition completion : record :=
  Line INFO "Class names and IDs have been replaced with random names in HTML, JS, and CSS files.".

Definition process_files (files : list string) (w : world)
  : world * outcome unit :=
  match scan_phase files (∅, ∅) w with
  | (w, Raised e) => (w, Raised e)
  | (w, Returned (all_classnames, all_ids)) =>
      let '(w, replacements) := mapping_phase all_classnames all_ids w in
      let w := World (disk w) (random_state w)
                 (log w ++ [ReplacementsLine replacements]) in
      match rewrite_phase files replacements w with
      | (w, Raised e) => (w, Raised e)
      | (w, Returned _) =>
          (World (disk w) (random_state w) (log w ++ [completion]),
           Returned tt)
      end
  end.

Definition files : list string := ["index.html"; "script.js"; "style.css"].

Definition main (w : world) : world * outcome unit := process_files files w.
End Driver.

(** A concrete file system for examples: a path holds a readable or
    unreadable, writable or read-only text, or is a directory; any other
    path is missing. *)
Inductive node : Type :=
| Text (readable writable : bool) (content : string)
| Directory.

Definition simple_fs : Type := list (string * node).

Fixpoint fs_lookup (d : simple_fs) (path : string) : option node :=
  match d with
  | nil => None
  | (p, n) :: d' => if String.eqb p path then Some n else fs_lookup d' path
  end.

Definition simple_read (d : simple_fs) (path : string) : exn + string :=
  match fs_lookup d path with
  | None => inl (FileNotFoundError path)
  | Some Directory => inl (OtherError "IsADirectoryError")
  | Some (Text true _ content) => inr content
  | Some (Text false _ _) => inl (PermissionError path)
  end.

Fixpoint fs_store (d : simple_fs) (path : string) (n : node) : simple_fs :=
  match d with
  | nil => [(path, n)]
  | (p, m) :: d' =>
      if String.eqb p path then (p, n) :: d' else (p, m) :: fs_store d' path n
  end.

Definition simple_write (d : simple_fs) (path content : string)
  : simple_fs * option exn :=
  match fs_lookup d path with
  | Some Directory => (d, Some (OtherError "IsADirectoryError"))
  | Some (Text r true _) => (fs_store d path (Text r true content), None)
  | Some (Text _ false _) => (d, Some (PermissionError path))
  | None => (fs_store d path (Text true true content), None)
  end.

(** A random source for examples: a counter stepping through the
    population. *)
Definition counter_below (n : nat) (g : nat) : nat * nat := (g mod n, S g).

Definition demo_disk : simple_fs :=
  [("index.html",
    Text true true "<div class='box' id='box'><p class='hero main'>");
   ("style.css",
    Text true true ".box { color: red; } #box, .hero main { top: 0 }");
   ("notes", Directory);
   ("locked.js", Text false true "x")].

Definition demo_world : world := World demo_disk 0 nil.


(** A page and a sheet that use one name for a class and for an ID. *)
Definition twin_disk : simple_fs :=
  [("index.html", Text true true "<div class='box' id='box'>");
   ("style.css", Text true true ".box { } #box { }")].

Definition twin_world : world := World twin_disk 0 nil.

End App.

(** ** Left-to-right rewriting, stated without the matcher

    A rule looks at a position (the character before it and the text from
    it on) and either finds an occurrence there, giving a payload and the
    length of the occurrence, or does not.  [walk] goes through a text from
    left to right: at an occurrence it records the payload and resumes
    behind it, elsewhere it keeps the character. *)

Module Walk.

Inductive piece (A : Type) : Type :=
| Keep (c : ascii)
| Hit (a : A).
Arguments Keep {A} c.
Arguments Hit {A} a.

Definition rule (A : Type) : Type := option ascii -> string -> option (A * nat).

Fixpoint walk {A : Type} (hit : rule A) (skip : nat) (p : option ascii)
    (s : string) : list (piece A) :=
  match s with
  | EmptyString => nil
  | String c t =>
      match skip with
      | S k => walk hit k (Some c) t
      | 0 =>
          match hit p s with
          | Some (a, n) => Hit a :: walk hit (n - 1) (Some c) t
          | None => Keep c :: walk hit 0 (Some c) t
          end
      end
  end.

Fixpoint render (l : list (piece string)) : string :=
  match l with
  | nil => EmptyString
  | Keep c :: l' => String c (render l')
  | Hit a :: l' => a +:+ render l'
  end.

Fixpoint hits {A : Type} (l : list (piece A)) : list A :=
  match l with
  | nil => nil
  | Keep _ :: l' => hits l'
  | Hit a :: l' => a :: hits l'
  end.

Fixpoint keep_all {A : Type} (s : string) : list (piece A) :=
  match s with
  | EmptyString => nil
  | String c t => Keep c :: keep_all t
  end.

Definition map_rule {A B : Type} (f : A -> B) (hit : rule A) : rule B :=
  fun p s => match hit p s with
             | Some (a, n) => Some (f a, n)
             | None => None
             end.

(** The rule of a pattern: its match at the position, if any. *)
Definition hit_of (r : Re.regex) : rule Re.found :=
  fun p s =>
    match Re.rmatch r Some (Re.MState p s nil) with
    | Some st =>
        Some (Re.Found s st, String.length s - String.length (Re.rest st))
    | None => None
    end.

(** The least number of characters a match of the pattern takes. *)
Fixpoint min_len (r : Re.regex) : nat :=
  match r with
  | Re.Lit l => String.length l
  | Re.Cls _ => 1
  | Re.Plus _ => 1
  | Re.WordB => 0
  | Re.Seq a b => min_len a + min_len b
  | Re.Alt a b => Nat.min (min_len a) (min_len b)
  | Re.Group _ a => min_len a
  end.

(** The character before the end of [u], or [p] when [u] is empty. *)
Fixpoint last_opt (p : option ascii) (u : string) : option ascii :=
  match u with
  | EmptyString => p
  | String c t => last_opt (Some c) t
  end.

(** *** Rules that do not interfere

    [starts] says where an occurrence of a family of rules may begin.  A
    text is solid when no occurrence begins strictly inside it.  A tame
    rule looks at the previous character only to know whether it is a word
    character, finds and writes solid texts that end with a non-word
    character, and decides by the occurrence alone.  Two rules are apart
    when the second finds nothing where the first finds its occurrence, nor
    where the first has written. *)

Section Families.
Variable starts : string -> Prop.

Definition solid (x : string) : Prop :=
  forall u v r, x = u +:+ v -> u <> EmptyString -> v <> EmptyString ->
                ~ starts (v +:+ r).

Definition well_shaped (x : string) : Prop :=
  x <> EmptyString /\ solid x /\ Re.word_opt (last_opt None x) = false /\
  forall r, starts (x +:+ r).

Record tame (h : rule string) : Prop := Tame {
  tame_word : forall p p' s, Re.word_opt p = Re.word_opt p' -> h p s = h p' s;
  tame_local : forall p s rep n, h p s = Some (rep, n) ->
    exists occ r, s = occ +:+ r /\ String.length occ = n /\
                  well_shaped occ /\ well_shaped rep /\
                  forall r', h p (occ +:+ r') = Some (rep, n)
}.

Definition apart (h1 h2 : rule string) : Prop :=
  forall p s rep n, h1 p s = Some (rep, n) ->
  forall p' r, h2 p' s = None /\ h2 p' (rep +:+ r) = None.

End Families.

End Walk.

(** ** What the patterns look for, stated on the text

    Every pattern of the program is an opening anchor, the identifier in
    its delimiters, and a closing delimiter.  The rules below say so with
    plain tests on the text; the theorems relate them to the patterns run
    by the matcher. *)

Module Spec.
Import Walk.

(** [strip l s] is what follows [l] when [s] starts with [l]. *)
Fixpoint strip (l s : string) : option string :=
  match l with
  | EmptyString => Some s
  | String a l' =>
      match s with
      | String c t => if Ascii.eqb a c then strip l' t else None
      | EmptyString => None
      end
  end.

(** One character of the class [c], and what follows it. *)
Definition pop (c : ascii -> bool) (s : string) : option (ascii * string) :=
  match s with
  | String a t => if c a then Some (a, t) else None
  | EmptyString => None
  end.

(** The longest run of characters of the class [c] at the start of [s], and
    what follows it. *)
Fixpoint span (c : ascii -> bool) (s : string) : string * string :=
  match s with
  | String a t =>
      if c a then let '(x, r) := span c t in (String a x, r)
      else (EmptyString, s)
  | EmptyString => (EmptyString, EmptyString)
  end.

(** The text [r] does not go on with a character of the class [c]. *)
Definition c_stop (c : ascii -> bool) (r : string) : Prop :=
  match r with
  | String d _ => c d = false
  | EmptyString => True
  end.

Definition is_nil (s : string) : bool :=
  match s with EmptyString => true | _ => false end.

(** Where an identifier is looked for in HTML and JS: after [opener] and a
    quote (and one more character when [dotted]), up to a quote (and a
    closing parenthesis when [closed]); when [bounded], not directly after
    a word character. *)
Record anchor : Type := Anchor {
  bounded : bool;
  opener : string;
  dotted : bool;
  closed : bool
}.

Definition after_opening (a : anchor) (p : option ascii) (s : string)
  : option string :=
  if bounded a && Re.word_opt p then None
  else
    match strip (opener a) s with
    | Some s1 =>
        match pop quote s1 with
        | Some (_, s2) =>
            if dotted a then option_map snd (pop any_char s2) else Some s2
        | None => None
        end
    | None => None
    end.

Definition closing (a : anchor) (s : string) : option string :=
  match pop quote s with
  | Some (_, s1) => if closed a then strip ")" s1 else Some s1
  | None => None
  end.

(** What the rewriter writes for an occurrence at the anchor [a]. *)
Definition emitted (a : anchor) (new_name : string) : string :=
  opener a +:+ dq +:+ (if dotted a then "." else "") +:+ new_name +:+ dq
    +:+ (if closed a then ")" else "").

(** The rewriter's rule: [old_name] in its delimiters at the anchor. *)
Definition quoted_rule (a : anchor) (old_name new_name : string) : rule string :=
  fun p s =>
    match after_opening a p s with
    | Some s1 =>
        match strip old_name s1 with
        | Some s2 =>
            match closing a s2 with
            | Some r =>
                Some (emitted a new_name, String.length s - String.length r)
            | None => None
            end
        | None => None
        end
    | None => None
    end.

(** The scanner's rule: the run of characters up to the next quote. *)
Definition capture_rule (a : anchor) : rule string :=
  fun p s =>
    match after_opening a p s with
    | Some s1 =>
        let '(x, s2) := span not_quote s1 in
        if is_nil x then None
        else
          match closing a s2 with
          | Some r => Some (x, String.length s - String.length r)
          | None => None
          end
    | None => None
    end.

(** The trailing characters of a CSS selector token: white space or one of
    the three punctuation marks. *)
Definition css_sep (c : ascii) : bool := is_space c || css_punct c.

Definition css_marker (c : ascii) : bool :=
  Ascii.eqb c "."%char || Ascii.eqb c "#"%char.

(** The CSS rewriter's rule: marker, [old_name], separator; the separator
    is written back. *)
Definition css_rule (marker : ascii) (old_name new_name : string) : rule string :=
  fun p s =>
    match strip (String marker old_name) s with
    | Some (String d r) =>
        if css_sep d
        then Some (String marker (new_name +:+ String d EmptyString),
                   String.length old_name + 2)
        else None
    | _ => None
    end.

(** The CSS scanner's rule: marker, the run of identifier characters,
    separator. *)
Definition css_capture_rule (marker : ascii) : rule (string * string) :=
  fun p s =>
    match s with
    | String m s1 =>
        if Ascii.eqb marker m then
          match span css_ident_char s1 with
          | (x, String d r) =>
              if negb (is_nil x) && css_sep d
              then Some ((x, String d EmptyString), String.length x + 2)
              else None
          | _ => None
          end
        else None
    | EmptyString => None
    end.

(** A text rewritten by a rule, and the payloads a rule finds in a text. *)
Definition rewrite_from (hit : rule string) (p : option ascii) (s : string)
  : string :=
  render (walk hit 0 p s).

Definition rewrite (hit : rule string) (s : string) : string :=
  rewrite_from hit None s.

Definition captures {A : Type} (hit : rule A) (s : string) : list A :=
  hits (walk hit 0 None s).

(** The anchors of the rewriter, in the order of its substitutions. *)
Definition rewrite_anchors : list anchor :=
  [ Anchor false "class=" false false;
    Anchor false "className=" false false;
    Anchor true "querySelector(" true true;
    Anchor true "querySelectorAll(" true true;
    Anchor true "getElementsByClassName(" false true;
    Anchor false "id=" false false;
    Anchor true "getElementById(" false true ].

(** The anchors of the scanner, for class names and for IDs. *)
Definition class_anchors : list anchor :=
  [ Anchor false "class=" false false;
    Anchor false "querySelector(" true true;
    Anchor false "querySelectorAll(" true true;
    Anchor false "getElementsByClassName(" false true ].

Definition id_anchors : list anchor :=
  [ Anchor false "id=" false false;
    Anchor false "getElementById(" false true ].

(** The pattern of an anchor around the pattern [body] of the identifier. *)
Definition anchor_regex (a : anchor) (body : Re.regex) : Re.regex :=
  let tail :=
    if closed a then body @@ Re.Cls quote @@ Re.Lit ")"
    else body @@ Re.Cls quote in
  let core :=
    if dotted a
    then Re.Lit (opener a) @@ Re.Cls quote @@ Re.Cls any_char @@ tail
    else Re.Lit (opener a) @@ Re.Cls quote @@ tail in
  if bounded a then Re.WordB @@ core else core.

Definition css_regex (marker : ascii) (body : Re.regex) : Re.regex :=
  Re.Lit (String marker EmptyString) @@ Re.Group 1 body
    @@ Re.Group 2 (Re.Alt (Re.Cls is_space) (Re.Cls css_punct)).

Definition no_backslash (s : string) : bool :=
  all_chars (fun c => negb (Ascii.eqb c backslash)) s.

Fixpoint literal (s : string) : list Re.titem :=
  match s with
  | EmptyString => nil
  | String c t => Re.TChr c :: literal t
  end.

(** One turn of each rewriter, as the rewriting by its rules in turn. *)
Definition rewrite_one (old_name new_name content : string) : string :=
  fold_left (fun c a => rewrite (quoted_rule a old_name new_name) c)
    rewrite_anchors content.

Definition rewrite_one_css (old_name new_name content : string) : string :=
  rewrite (css_rule "#" old_name new_name)
    (rewrite (css_rule "." old_name new_name) content).

(** The rewriters over a whole dictionary. *)
Definition rewrite_all (replacements : list (string * string))
    (content : string) : string :=
  fold_left (fun c kv => rewrite_one (fst kv) (snd kv) c) replacements content.

Definition rewrite_all_css (replacements : list (string * string))
    (content : string) : string :=
  fold_left (fun c kv => rewrite_one_css (fst kv) (snd kv) c)
    replacements content.

(** An occurrence at the anchor [a]: the opener, a quote, the extra
    character [dc] of a dotted anchor, the identifier, a quote, and the
    closing parenthesis of a closed anchor. *)
Definition closer (a : anchor) : string :=
  if closed a then ")" else EmptyString.

Definition shaped (a : anchor) (q1 : ascii) (dc K : string) (q2 : ascii)
  : string :=
  opener a +:+ String q1 (dc +:+ K +:+ String q2 (closer a)).

Definition dot_part (a : anchor) (dc : string) : Prop :=
  if dotted a then exists c, dc = String c EmptyString /\ any_char c = true
  else dc = EmptyString.

Definition tail (s : string) : string :=
  match s with String _ t => t | EmptyString => EmptyString end.

(** Identifiers made of letters, digits, [_] and [-] only. *)
Definition ident (s : string) : Prop := all_chars css_ident_char s = true.

(** Where an occurrence of a CSS rule, and of a rule of the HTML/JS
    rewriter, may begin. *)
Definition css_starts (s : string) : Prop :=
  exists c t, s = String c t /\ css_marker c = true.

Definition quoted_starts (s : string) : Prop :=
  exists a q r, In a rewrite_anchors /\ quote q = true /\
                s = opener a +:+ String q r.

(** A dictionary whose substitutions do not interfere: distinct keys, keys
    and tokens made of identifier characters, no token that is a key. *)
Definition independent (replacements : list (string * string)) : Prop :=
  NoDup replacements.*1 /\
  Forall (fun kv => ident (fst kv) /\ ident (snd kv)) replacements /\
  forall kv kv', kv ∈ replacements -> kv' ∈ replacements ->
                 snd kv <> fst kv'.

(** The two kinds of failure the driver catches, and the line it logs for
    one. *)
Definition caught (e : App.exn) : bool :=
  match e with
  | App.FileNotFoundError _ | App.PermissionError _ => true
  | _ => false
  end.

Definition error_line (e : App.exn) : App.record :=
  match e with
  | App.FileNotFoundError filename =>
      App.Line App.ERROR ("File not found: " +:+ filename)
  | App.PermissionError filename =>
      App.Line App.ERROR ("Permission error: " +:+ filename)
  | _ => App.Line App.ERROR EmptyString
  end.


(** The log of [w'] is the log of [w] and more lines, none of them the
    completion line. *)
Definition extends {fsys rng : Type} (w w' : @App.world fsys rng) : Prop :=
  exists l, App.log w' = App.log w ++ l /\
            Forall (fun r => r <> App.completion) l.

(** The text the rewrite phase writes for a file. *)
Definition rewritten (path content : string)
    (replacements : list (string * string)) : string :=
  if ends_with ".css" path then rewrite_all_css replacements content
  else rewrite_all replacements content.

(** A token as the generator makes them. *)
Definition good_token (t : string) : Prop :=
  String.length t = 8 /\ all_chars is_alnum t = true.

Definition plain_tokens (replacements : list (string * string)) : Prop :=
  Forall (fun kv => no_backslash (snd kv) = true) replacements.

(** The identifiers a scanner finds at a list of anchors, and behind a CSS
    marker. *)
Definition found_at (anchors : list anchor) (content : string) : gset string :=
  ⋃ (List.map (fun a => list_to_set (captures (capture_rule a) content))
       anchors).

Definition css_found (marker : ascii) (content : string) : gset string :=
  set_map fst
    (list_to_set (captures (css_capture_rule marker) content)
       : gset (string * string)).

(** A text without the two CSS markers. *)
Definition unmarked (s : string) : Prop :=
  all_chars (fun c => negb (css_marker c)) s = true.

(** Every opening of the anchor in the text (its opener and a quote) is
    followed in the text by another quote. *)
Fixpoint settled (a : anchor) (pre : string) : bool :=
  match pre with
  | EmptyString => true
  | String _ t =>
      match strip (opener a) pre with
      | Some (String q v) => negb (quote q) || negb (all_chars not_quote v)
      | _ => true
      end && settled a t
  end.

(** The substitution of one entry of the dictionary, on a name. *)
Definition rename_one (old_name new_name x : string) : string :=
  if String.eqb x old_name then new_name else x.

(** The substitutions of the dictionary, in its order, on a name. *)
Definition rename_all (replacements : list (string * string)) (x : string)
  : string :=
  fold_left (fun y kv => rename_one (fst kv) (snd kv) y) replacements x.

(** The same on what the CSS scanner finds, when the marker is that of
    the rule. *)
Definition rename_hit (same : bool) (old_name new_name : string)
    (xd : string * string) : string * string :=
  if same && String.eqb (fst xd) old_name then (new_name, snd xd) else xd.

(** A dictionary whose keys and tokens are non-empty and made of identifier
    characters. *)
Definition identifiers (replacements : list (string * string)) : Prop :=
  Forall (fun kv => (ident (fst kv) /\ fst kv <> EmptyString) /\
                    (ident (snd kv) /\ snd kv <> EmptyString)) replacements.

(** The token of a name in the dictionary; a name that is not a key stands
    for itself. *)
Definition token_of (replacements : list (string * string)) (x : string)
  : string :=
  match List.find (fun kv => String.eqb (fst kv) x) replacements with
  | Some kv => snd kv
  | None => x
  end.

(** What the scan phase finds in the text of a file, by the kind of file,
    and in a file on the disk: nothing when it cannot be read. *)
Definition scan_text (path content : string) : gset string * gset string :=
  if ends_with ".css" path then App.find_classnames_ids_css content
  else App.find_classnames_ids content.

Definition scanned {fsys : Type} (read_text : fsys -> string -> App.exn + string)
    (d : fsys) (path : string) : gset string * gset string :=
  match read_text d path with
  | inr content => scan_text path content
  | inl _ => (∅, ∅)
  end.

(** The text goes on with a separator. *)
Definition sep_ahead (r : string) : bool :=
  match r with String d _ => css_sep d | EmptyString => false end.

(** The tokens the generator yields one after the other, and the state of
    the random source behind them. *)
Fixpoint tokens {rng : Type} (randbelow : nat -> rng -> nat * rng) (n : nat)
    (g : rng) : list string * rng :=
  match n with
  | 0 => (nil, g)
  | S n' =>
      let '(t, g1) := App.generate_random_string randbelow g in
      let '(ts, g2) := tokens randbelow n' g1 in
      (t :: ts, g2)
  end.

(** Every opening of any of the rewriter's anchors in the text is followed
    in the text by another quote. *)
Definition settled_page (pre : string) : bool :=
  forallb (fun a => settled a pre) rewrite_anchors.



(** A text without its identifier characters: what is left of a style
    sheet when the names are taken out. *)
Fixpoint skeleton (s : string) : string :=
  match s with
  | EmptyString => EmptyString
  | String c t => if css_ident_char c then skeleton t else String c (skeleton t)
  end.

End Spec.

(** * Properties *)

(** ** Strings *)

Section StringFacts.

Lemma sapp_nil_r (s : string) : s +:+ "" = s.
Proof. induction s; simpl; congruence. Qed.

Lemma sapp_assoc (a b c : string) : (a +:+ b) +:+ c = a +:+ b +:+ c.
Proof. induction a; simpl; congruence. Qed.

Lemma slength_app (a b : string) :
  String.length (a +:+ b) = String.length a + String.length b.
Proof. induction a; simpl; congruence. Qed.

Lemma sapp_cons (c : ascii) (a b : string) :
  String c a +:+ b = String c (a +:+ b).
Proof. reflexivity. Qed.

Lemma substring_app (u s : string) : substring 0 (String.length u) (u +:+ s) = u.
Proof.
  induction u as [|c u IH]; simpl.
  - destruct s; reflexivity.
  - now rewrite IH.
Qed.

Lemma consumed_app (u s : string) : Re.consumed (u +:+ s) s = u.
Proof.
  unfold Re.consumed. rewrite slength_app.
  replace (String.length u + String.length s - String.length s)
    with (String.length u) by lia.
  apply substring_app.
Qed.

Lemma sapp_inv_head (u a b : string) : u +:+ a = u +:+ b -> a = b.
Proof. induction u; simpl; intros H; [assumption|injection H; auto]. Qed.

Lemma sapp_same_length (a b c d : string) :
  a +:+ b = c +:+ d -> String.length a = String.length c -> a = c /\ b = d.
Proof.
  revert c. induction a as [|x a IH]; intros [|y c]; simpl; intros H L;
    try discriminate; auto.
  injection H as -> H. injection L as L.
  destruct (IH _ H L) as [-> ->]. auto.
Qed.

End StringFacts.

Ltac norm_strings :=
  repeat (progress (rewrite ?sapp_assoc; cbn [String.append])).

(** Case analysis on a member of the list of the rewriter's anchors. *)
Ltac each_anchor H :=
  unfold Spec.rewrite_anchors in H; cbn [In] in H;
  repeat (destruct H as [<-|H]); [..|contradiction].

(** ** The matcher *)

Section Matcher.
Import Re Walk.

Lemma last_opt_app (p : option ascii) (u v : string) :
  last_opt p (u +:+ v) = last_opt (last_opt p u) v.
Proof. revert p. induction u; simpl; auto. Qed.

Lemma lit_app (l : string) (p : option ascii) (s : string) :
  lit l p (l +:+ s) = Some (last_opt p l, s).
Proof.
  revert p. induction l as [|a l IH]; intros p; simpl; [reflexivity|].
  rewrite Ascii.eqb_refl. apply IH.
Qed.

Lemma lit_inv (l : string) (p p' : option ascii) (s s' : string) :
  lit l p s = Some (p', s') -> s = l +:+ s' /\ p' = last_opt p l.
Proof.
  revert p s. induction l as [|a l IH]; intros p s; simpl.
  - intros [= <- <-]. auto.
  - destruct s as [|c t]; [discriminate|].
    destruct (Ascii.eqb a c) eqn:E; [|discriminate].
    apply Ascii.eqb_eq in E as <-. intros H.
    destruct (IH _ _ H) as [-> ->]. auto.
Qed.

Lemma plus_reach {R : Type} (c : ascii -> bool)
    (k : option ascii -> string -> option R) (s : string) (m : R) :
  plus c k s = Some m ->
  exists u s', s = u +:+ s' /\ 1 <= String.length u /\
               forall p, k (last_opt p u) s' = Some m.
Proof.
  induction s as [|a t IH]; simpl; [discriminate|].
  destruct (c a); [|discriminate].
  destruct (plus c k t) as [m'|] eqn:E.
  - intros [= ->]. destruct (IH eq_refl) as (u & s' & -> & Hl & Hk).
    exists (String a u), s'. simpl. split; [reflexivity|split; [lia|]].
    intros p. apply Hk.
  - intros Hk. exists (String a ""), t. simpl. split; [reflexivity|split; auto].
Qed.

Lemma plus_ext {R : Type} (c : ascii -> bool)
    (k k' : option ascii -> string -> option R) (s : string) :
  (forall u s' p, s = u +:+ s' -> 1 <= String.length u -> k p s' = k' p s') ->
  plus c k s = plus c k' s.
Proof.
  induction s as [|a t IH]; simpl; intros H; [reflexivity|].
  destruct (c a); [|reflexivity].
  rewrite IH.
  - rewrite (H (String a "") t (Some a)); simpl; auto.
  - intros u s' p -> Hl. apply (H (String a u) s' p); simpl; auto.
Qed.

Lemma rmatch_reach (r : regex) :
  forall k st m, rmatch r k st = Some m ->
  exists u st', rest st = u +:+ rest st' /\
                prev st' = last_opt (prev st) u /\
                min_len r <= String.length u /\
                k st' = Some m.
Proof.
  induction r as [l|c|c| |r1 IH1 r2 IH2|r1 IH1 r2 IH2|n r IH];
    intros k st m; simpl.
  - destruct (lit l (prev st) (rest st)) as [[p s]|] eqn:E; [|discriminate].
    apply lit_inv in E as [E1 E2]. intros Hk.
    exists l, (MState p s (caps st)). simpl. auto.
  - destruct (rest st) as [|a t] eqn:E; [discriminate|].
    destruct (c a); [|discriminate]. intros Hk.
    exists (String a ""), (MState (Some a) t (caps st)). simpl. auto.
  - intros H. apply plus_reach in H as (u & s' & E & Hl & Hk).
    exists u, (MState (last_opt (prev st) u) s' (caps st)). simpl. auto.
  - destruct (xorb _ _); [|discriminate]. intros Hk.
    exists "", st. simpl. auto with arith.
  - intros H. apply IH1 in H as (u1 & st1 & E1 & P1 & L1 & H).
    apply IH2 in H as (u2 & st2 & E2 & P2 & L2 & H).
    exists (u1 +:+ u2), st2.
    rewrite E1, E2, sapp_assoc, last_opt_app, slength_app, P2, P1.
    repeat split; auto. lia.
  - destruct (rmatch r1 k st) as [m1|] eqn:E.
    + intros [= ->]. apply IH1 in E as (u & st' & ? & ? & ? & ?).
      exists u, st'. repeat split; auto. lia.
    + intros H. apply IH2 in H as (u & st' & ? & ? & ? & ?).
      exists u, st'. repeat split; auto. lia.
  - intros H. apply IH in H as (u & st' & E & P & L & H).
    eexists u, _. split; [|split; [|split; [|exact H]]]; simpl; auto.
Qed.

Lemma rmatch_ext (r : regex) :
  forall k k' st,
  (forall u st', rest st = u +:+ rest st' -> min_len r <= String.length u ->
                 k st' = k' st') ->
  rmatch r k st = rmatch r k' st.
Proof.
  induction r as [l|c|c| |r1 IH1 r2 IH2|r1 IH1 r2 IH2|n r IH];
    intros k k' st H; simpl.
  - destruct (lit l (prev st) (rest st)) as [[p s]|] eqn:E; [|reflexivity].
    apply lit_inv in E as [E1 E2]. apply (H l); simpl; auto.
  - destruct (rest st) as [|a t] eqn:E; [reflexivity|].
    destruct (c a); [|reflexivity]. apply (H (String a "")); simpl; auto.
  - apply plus_ext. intros u s' p E L. apply (H u); simpl; auto.
  - destruct (xorb _ _); [|reflexivity]. apply (H ""); simpl; auto with arith.
  - apply IH1. intros u1 st1 E1 L1. apply IH2. intros u2 st2 E2 L2.
    apply (H (u1 +:+ u2)).
    + now rewrite E1, E2, sapp_assoc.
    + rewrite slength_app. simpl. lia.
  - rewrite (IH1 k k'), (IH2 k k'); [reflexivity| |];
      intros u st' E L; apply (H u); auto; simpl; lia.
  - apply IH. intros u st' E L. apply (H u); simpl; auto.
Qed.

(** A pattern that cannot match the empty string matches the same whether
    or not an empty match is allowed. *)
Lemma match_here_nonempty (r : regex) (p : option ascii) (ma : bool)
    (s : string) :
  1 <= min_len r ->
  match_here r p ma s = rmatch r Some (MState p s nil).
Proof.
  intros NN. unfold match_here. apply rmatch_ext. simpl.
  intros u st' -> L. rewrite slength_app.
  destruct ma; simpl; [|reflexivity].
  destruct (Nat.eqb_spec (String.length (rest st'))
              (String.length u + String.length (rest st'))); [lia|reflexivity].
Qed.

End Matcher.

(** ** Substitution and search as a walk *)

Section Walking.
Import Re Walk.

Lemma walk_ext {A : Type} (hit hit' : rule A) :
  (forall p s, hit p s = hit' p s) ->
  forall s k p, walk hit k p s = walk hit' k p s.
Proof.
  intros H. induction s as [|c t IH]; intros k p; simpl; [reflexivity|].
  destruct k; [|apply IH]. rewrite H.
  destruct (hit' p (String c t)) as [[a n]|]; now rewrite IH.
Qed.

Lemma walk_skip {A : Type} (hit : rule A) (u s : string) (p : option ascii) :
  walk hit (String.length u) p (u +:+ s) = walk hit 0 (last_opt p u) s.
Proof. revert p. induction u as [|c u IH]; intros p; simpl; auto. Qed.

Lemma render_keep_all (t : list (piece string)) (u : string) :
  render (keep_all u ++ t) = u +:+ render t.
Proof. induction u; simpl; congruence. Qed.

Lemma render_keep_all_nil (u : string) : render (keep_all u) = u.
Proof. induction u; simpl; congruence. Qed.

Lemma hits_keep_all {A : Type} (u : string) (t : list (piece A)) :
  hits (keep_all u ++ t) = hits t.
Proof. induction u; simpl; auto. Qed.

Lemma hit_of_inv (r : regex) (p : option ascii) (s : string) (m : found)
    (n : nat) :
  hit_of r p s = Some (m, n) ->
  exists u, s = u +:+ rest (final m) /\ n = String.length u /\
            min_len r <= n /\ prev (final m) = last_opt p u /\
            from m = s.
Proof.
  unfold hit_of.
  destruct (rmatch r Some (MState p s nil)) as [st|] eqn:E; [|discriminate].
  intros [= <- <-]. apply rmatch_reach in E as (u & st' & E & P & L & [= ->]).
  simpl in *. exists u. subst s. rewrite slength_app.
  repeat split; auto; lia.
Qed.

Lemma map_rule_hit_of {B : Type} (f : found -> B) (r : regex)
    (p : option ascii) (s : string) :
  map_rule f (hit_of r) p s =
  match rmatch r Some (MState p s nil) with
  | Some st =>
      Some (f (Found s st), String.length s - String.length (rest st))
  | None => None
  end.
Proof.
  unfold map_rule, hit_of.
  now destruct (rmatch r Some (MState p s nil)).
Qed.

Lemma search_walk (r : regex) :
  1 <= min_len r ->
  forall s p ma,
  match search r p ma s with
  | None => forall B (f : found -> B),
      walk (map_rule f (hit_of r)) 0 p s = keep_all s
  | Some (sk, m) =>
      s = sk +:+ from m /\
      String.length (rest (final m)) < String.length (from m) /\
      forall B (f : found -> B),
        walk (map_rule f (hit_of r)) 0 p s =
        keep_all sk ++
          Hit (f m) :: walk (map_rule f (hit_of r)) 0 (prev (final m))
                         (rest (final m))
  end.
Proof.
  intros NN. induction s as [|c t IH]; intros p ma; simpl;
    rewrite match_here_nonempty by assumption.
  - destruct (rmatch r Some (MState p "" nil)) as [st|] eqn:E; [|reflexivity].
    apply rmatch_reach in E as (u & st' & E & _ & L & _). simpl in E.
    destruct u; simpl in *; [lia|discriminate].
  - destruct (rmatch r Some (MState p (String c t) nil)) as [st|] eqn:E.
    + pose proof E as E'.
      apply rmatch_reach in E' as (u & st' & E1 & P & L & [= <-]).
      simpl in *. split; [reflexivity|].
      assert (HL : String.length (String c t)
                   = String.length u + String.length (rest st'))
        by now rewrite E1, slength_app.
      split; [simpl in *; lia|]. clear HL.
      intros B f. rewrite map_rule_hit_of, E. simpl. f_equal.
      destruct u as [|c' u]; simpl in *; [lia|].
      injection E1 as <- ->. rewrite slength_app.
      replace (S (String.length u + String.length (rest st'))
               - String.length (rest st') - 1) with (String.length u) by lia.
      rewrite walk_skip. now rewrite P.
    + specialize (IH (Some c) false).
      destruct (search r (Some c) false t) as [[sk m]|].
      * destruct IH as (-> & Hlt & IH). split; [reflexivity|].
        split; [assumption|].
        intros B f. rewrite map_rule_hit_of, E. simpl. now rewrite IH.
      * intros B f. rewrite map_rule_hit_of, E. now rewrite IH.
Qed.

Lemma sub_loop_walk (r : regex) (tpl : list titem) :
  1 <= min_len r ->
  forall fuel s p ma, String.length s < fuel ->
  sub_loop fuel r tpl p ma s =
  render (walk (map_rule (expand tpl) (hit_of r)) 0 p s).
Proof.
  intros NN. induction fuel as [|fuel IH]; intros s p ma Hf; [lia|]. simpl.
  pose proof (search_walk r NN s p ma) as Hs.
  destruct (search r p ma s) as [[sk m]|].
  - destruct Hs as (E & Hlt & Hw). rewrite Hw, render_keep_all.
    simpl. rewrite IH; [reflexivity|].
    rewrite E, slength_app in Hf. lia.
  - now rewrite Hs, render_keep_all_nil.
Qed.

Lemma finditer_loop_walk (r : regex) {B : Type} (f : found -> B) :
  1 <= min_len r ->
  forall fuel s p ma, String.length s < fuel ->
  List.map f (finditer_loop fuel r p ma s) =
  hits (walk (map_rule f (hit_of r)) 0 p s).
Proof.
  intros NN. induction fuel as [|fuel IH]; intros s p ma Hf; [lia|]. simpl.
  pose proof (search_walk r NN s p ma) as Hs.
  destruct (search r p ma s) as [[sk m]|].
  - destruct Hs as (E & Hlt & Hw). rewrite Hw, hits_keep_all. simpl.
    rewrite IH; [reflexivity|]. rewrite E, slength_app in Hf. lia.
  - rewrite Hs. clear. induction s; simpl; auto.
Qed.

(** [re.sub] with a pattern that cannot match the empty string is the walk
    with the rule of the pattern. *)
Lemma sub_walk (r : regex) (ngroups : nat) (template : string)
    (tpl : list titem) (s : string) :
  1 <= min_len r ->
  parse_template ngroups template = Some tpl ->
  sub r ngroups template s =
  Some (render (walk (map_rule (expand tpl) (hit_of r)) 0 None s)).
Proof.
  intros NN Ht. unfold sub. rewrite Ht. f_equal.
  apply sub_loop_walk; [assumption|lia].
Qed.

Lemma findall_walk (r : regex) {B : Type} (f : found -> B) (s : string) :
  1 <= min_len r ->
  List.map f (finditer r s) = hits (walk (map_rule f (hit_of r)) 0 None s).
Proof. intros NN. apply finditer_loop_walk; [assumption|lia]. Qed.

End Walking.

(** ** The patterns of the program and their rules *)

Section Patterns.
Import Re Walk Spec.

Lemma lit_strip (l : string) (p : option ascii) (s : string) :
  lit l p s = option_map (fun s' => (last_opt p l, s')) (strip l s).
Proof.
  revert p s. induction l as [|a l IH]; intros p s; simpl; [reflexivity|].
  destruct s as [|c t]; [reflexivity|].
  destruct (Ascii.eqb a c) eqn:E; [|reflexivity].
  apply Ascii.eqb_eq in E as <-. apply IH.
Qed.

Lemma strip_app (l s : string) : strip l (l +:+ s) = Some s.
Proof.
  induction l as [|a l IH]; simpl; [reflexivity|].
  now rewrite Ascii.eqb_refl.
Qed.

Lemma strip_inv (l s r : string) : strip l s = Some r -> s = l +:+ r.
Proof.
  revert s. induction l as [|a l IH]; intros s; simpl.
  - now intros [= ->].
  - destruct s as [|c t]; [discriminate|].
    destruct (Ascii.eqb a c) eqn:E; [|discriminate].
    apply Ascii.eqb_eq in E as <-. intros H. now rewrite (IH _ H).
Qed.

Lemma strip_head_word (l s : string) :
  word_opt (head l) = true -> word_opt (head s) = false -> strip l s = None.
Proof.
  destruct l as [|a l]; simpl; [discriminate|].
  destruct s as [|c t]; simpl; [reflexivity|].
  destruct (Ascii.eqb a c) eqn:E; [|reflexivity].
  apply Ascii.eqb_eq in E as <-. congruence.
Qed.

Lemma strip_head_same (l s r : string) :
  strip l s = Some r -> l <> EmptyString -> head s = head l.
Proof.
  intros H Hl. apply strip_inv in H as ->. now destruct l.
Qed.

Lemma wordb_lit (o : string) (r : regex) (k : mstate -> option mstate)
    (st : mstate) :
  word_opt (head o) = true ->
  rmatch (WordB @@ Lit o @@ r) k st =
  if word_opt (prev st) then None else rmatch (Lit o @@ r) k st.
Proof.
  intros Hw. cbn [rmatch]. rewrite lit_strip.
  destruct (word_opt (prev st)), (word_opt (head (rest st))) eqn:Hs;
    cbn [xorb negb]; try reflexivity.
  - now rewrite (strip_head_word o (rest st)).
  - now rewrite (strip_head_word o (rest st)).
Qed.

Ltac step_match :=
  match goal with
  | |- context [lit _ _ _] => rewrite lit_strip
  | |- context [match strip ?l ?s with _ => _ end] =>
      destruct (strip l s) as [?|]; cbn [option_map snd fst]
  | |- context [match ?s with EmptyString => _ | String _ _ => _ end] =>
      is_var s; destruct s as [|? ?]; cbn [option_map snd fst]
  | |- context [if quote ?c then _ else _] =>
      destruct (quote c); cbn [option_map snd fst]
  | |- context [if any_char ?c then _ else _] =>
      destruct (any_char c); cbn [option_map snd fst]
  end.

Lemma quoted_hit (a : anchor) (old rep : string) (p : option ascii) (s : string) :
  (bounded a = true -> word_opt (head (opener a)) = true) ->
  map_rule (fun _ => rep) (hit_of (anchor_regex a (Lit old))) p s =
  match after_opening a p s with
  | Some s1 =>
      match strip old s1 with
      | Some s2 =>
          match closing a s2 with
          | Some r => Some (rep, String.length s - String.length r)
          | None => None
          end
      | None => None
      end
  | None => None
  end.
Proof.
  intros Hw. rewrite map_rule_hit_of.
  destruct a as [b o d c]. unfold anchor_regex, after_opening, closing, pop.
  cbn [bounded opener dotted closed] in *.
  destruct b; cbn [andb].
  - destruct d, c; rewrite wordb_lit by auto; cbn [prev];
      (destruct (word_opt p); [reflexivity|]);
      cbn [rmatch prev rest caps]; repeat step_match; reflexivity.
  - destruct d, c; cbn [rmatch prev rest caps]; repeat step_match; reflexivity.
Qed.

Lemma span_app (c : ascii -> bool) (s x r : string) :
  span c s = (x, r) -> s = x +:+ r.
Proof.
  revert x r. induction s as [|a t IH]; intros x r; simpl.
  - now intros [= <- <-].
  - destruct (c a).
    + destruct (span c t) as [x' r']. intros [= <- <-].
      simpl. now rewrite (IH x' r').
    + now intros [= <- <-].
Qed.

Lemma span_all (c : ascii -> bool) (s x r : string) :
  span c s = (x, r) -> all_chars c x = true.
Proof.
  revert x r. induction s as [|a t IH]; intros x r; simpl.
  - now intros [= <- <-].
  - destruct (c a) eqn:E.
    + destruct (span c t) as [x' r']. intros [= <- <-].
      simpl. rewrite E. eapply IH; eauto.
    + now intros [= <- <-].
Qed.

Lemma span_stop (c : ascii -> bool) (s x : string) (a : ascii) (r : string) :
  span c s = (x, String a r) -> c a = false.
Proof.
  revert x. induction s as [|b t IH]; intros x; simpl.
  - discriminate.
  - destruct (c b) eqn:E.
    + destruct (span c t) as [x' r']. intros [= <- ->]. eapply IH; eauto.
    + now intros [= <- <- <-].
Qed.

Lemma plus_span {R : Type} (c : ascii -> bool)
    (k : option ascii -> string -> option R) (s : string) (p0 : option ascii) :
  (forall p a t, c a = true -> k p (String a t) = None) ->
  plus c k s =
  let '(x, r) := span c s in
  if is_nil x then None else k (last_opt p0 x) r.
Proof.
  intros Hk. revert p0. induction s as [|a t IH]; intros p0; simpl; [reflexivity|].
  destruct (c a) eqn:Ea; [|reflexivity].
  rewrite (IH (Some a)). destruct (span c t) as [x r] eqn:Es.
  destruct x as [|b x]; simpl.
  - apply span_app in Es. simpl in Es. now subst.
  - destruct (k (last_opt (Some b) x) r) eqn:Ek; [reflexivity|].
    pose proof (span_all _ _ _ _ Es) as Hall. simpl in Hall.
    apply andb_true_iff in Hall as [Hb _].
    apply span_app in Es. subst t. simpl. now rewrite Hk.
Qed.


Lemma not_quote_quote (a : ascii) : not_quote a = true -> quote a = false.
Proof. unfold not_quote. now destruct (quote a). Qed.

Lemma ident_not_sep (a : ascii) :
  css_ident_char a = true -> is_space a = false /\ css_punct a = false.
Proof. destruct a as [[] [] [] [] [] [] [] []]; vm_compute; auto; discriminate. Qed.

Lemma capture_hit (a : anchor) (p : option ascii) (s : string) :
  bounded a = false ->
  map_rule (group 1) (hit_of (anchor_regex a (Group 1 (Plus not_quote)))) p s =
  capture_rule a p s.
Proof.
  intros Hb. rewrite map_rule_hit_of.
  destruct a as [b o d c].
  unfold capture_rule, anchor_regex, after_opening, closing, pop.
  cbn [bounded opener dotted closed] in *. subst b. cbn [andb].
  destruct d, c; cbn [rmatch prev rest caps]; repeat step_match; try reflexivity.
  all: rewrite (plus_span _ _ _ None)
    by (intros ? ? ? Hq; now rewrite (not_quote_quote _ Hq)).
  all: match goal with
       | |- context [span not_quote ?z] =>
           destruct (span not_quote z) as [x r] eqn:Es
       end;
       apply span_app in Es; subst;
       destruct (is_nil x); [reflexivity|].
  all: repeat step_match; try reflexivity.
  all: unfold group; cbn [lookup_cap final caps Nat.eqb rest];
       now rewrite consumed_app.
Qed.

Lemma css_hit (marker : ascii) (old new : string) (p : option ascii)
    (s : string) :
  map_rule (expand (literal (String marker new) ++ [TRef 2]))
    (hit_of (css_regex marker (Lit old))) p s =
  css_rule marker old new p s.
Proof.
  rewrite map_rule_hit_of. unfold css_rule, css_regex.
  cbn [rmatch prev rest caps]. rewrite !lit_strip. cbn [strip].
  destruct s as [|m s]; [reflexivity|].
  destruct (Ascii.eqb marker m) eqn:Em; [|reflexivity].
  cbn [option_map]. rewrite lit_strip.
  destruct (strip old s) as [s1|] eqn:Eo; [|reflexivity].
  cbn [option_map]. destruct s1 as [|d r]; [reflexivity|].
  unfold css_sep. apply strip_inv in Eo. subst s.
  assert (HL : String.length (String m (old +:+ String d r)) - String.length r
               = String.length old + 2)
    by (simpl; rewrite slength_app; simpl; lia).
  assert (HE : forall st, caps st = (2, String d "") :: (1, old) :: nil ->
    expand (literal (String marker new) ++ [TRef 2])
      (Found (String m (old +:+ String d r)) st)
    = String marker (new +:+ String d "")).
  { intros st Hc. simpl. f_equal. induction new as [|x new IH]; simpl.
    - unfold group. now rewrite Hc.
    - now rewrite IH. }
  assert (HC : consumed (String d r) r = String d "")
    by apply (consumed_app (String d "") r).
  destruct (is_space d); cbn [orb].
  - cbn [rest]. rewrite HL, HE; [reflexivity|]. cbn [caps]. now rewrite HC, consumed_app.
  - destruct (css_punct d); [|reflexivity].
    cbn [rest]. rewrite HL, HE; [reflexivity|]. cbn [caps]. now rewrite HC, consumed_app.
Qed.

Lemma css_capture_hit (marker : ascii) (p : option ascii) (s : string) :
  map_rule (fun m => (group 1 m, group 2 m))
    (hit_of (css_regex marker (Plus css_ident_char))) p s =
  css_capture_rule marker p s.
Proof.
  rewrite map_rule_hit_of. unfold css_capture_rule, css_regex.
  cbn [rmatch prev rest caps]. rewrite !lit_strip. cbn [strip].
  destruct s as [|m s]; [reflexivity|].
  destruct (Ascii.eqb marker m) eqn:Em; [|reflexivity].
  cbn [option_map].
  rewrite (plus_span _ _ _ None).
  2:{ intros ? a t Ha. destruct (ident_not_sep a Ha) as [-> ->]. reflexivity. }
  destruct (span css_ident_char s) as [x r] eqn:Es.
  pose proof (span_app _ _ _ _ Es) as E. subst s.
  destruct x as [|x0 x]; cbn [is_nil negb andb].
  { now destruct r. }
  destruct r as [|d r]; [reflexivity|].
  assert (HL : String.length (String m (String x0 x +:+ String d r))
               - String.length r = String.length (String x0 x) + 2)
    by (simpl; rewrite slength_app; simpl; lia).
  assert (HC : consumed (String d r) r = String d "")
    by apply (consumed_app (String d "") r).
  unfold css_sep.
  destruct (is_space d); cbn [orb].
  - cbn [rest]. rewrite HL. unfold group.
    cbn [lookup_cap final caps Nat.eqb]. now rewrite HC, consumed_app.
  - destruct (css_punct d); [|reflexivity].
    cbn [rest]. rewrite HL. unfold group.
    cbn [lookup_cap final caps Nat.eqb]. now rewrite HC, consumed_app.
Qed.

End Patterns.

(** ** The rewriters and scanners as walks *)

Section Refinement.
Import Re Walk Spec App.

Lemma no_backslash_app (a b : string) :
  no_backslash (a +:+ b) = no_backslash a && no_backslash b.
Proof.
  unfold no_backslash. induction a as [|c a IH]; simpl; [reflexivity|].
  rewrite IH. now rewrite andb_assoc.
Qed.

Lemma parse_literal (n : nat) (t : string) :
  no_backslash t = true -> parse_template n t = Some (literal t).
Proof.
  unfold no_backslash. induction t as [|c t IH]; simpl; [reflexivity|].
  intros H. apply andb_true_iff in H as [Hc Ht].
  destruct (Ascii.eqb c backslash); [discriminate|].
  now rewrite IH.
Qed.

Lemma parse_literal_ref (t : string) :
  no_backslash t = true ->
  parse_template 2 (t +:+ "\2") = Some (literal t ++ [TRef 2]).
Proof.
  unfold no_backslash. induction t as [|c t IH]; simpl; [reflexivity|].
  intros H. apply andb_true_iff in H as [Hc Ht].
  destruct (Ascii.eqb c backslash); [discriminate|].
  now rewrite IH.
Qed.

Lemma expand_literal (t : string) (m : found) : expand (literal t) m = t.
Proof. induction t; simpl; congruence. Qed.

Lemma map_rule_ext {A B : Type} (f g : A -> B) (hit : rule A)
    (p : option ascii) (s : string) :
  (forall a, f a = g a) -> map_rule f hit p s = map_rule g hit p s.
Proof.
  intros H. unfold map_rule. destruct (hit p s) as [[a n]|]; [|reflexivity].
  now rewrite H.
Qed.

Lemma min_len_anchor (a : anchor) (body : regex) :
  1 <= min_len (anchor_regex a body).
Proof.
  destruct a as [[] o [] []]; unfold anchor_regex; simpl; lia.
Qed.

Lemma sub_quoted (a : anchor) (old_name new_name s : string) :
  (bounded a = true -> word_opt (head (opener a)) = true) ->
  no_backslash (opener a) = true ->
  no_backslash new_name = true ->
  sub (anchor_regex a (Lit old_name)) 0 (emitted a new_name) s =
  Some (rewrite (quoted_rule a old_name new_name) s).
Proof.
  intros Hw Ho Hn.
  rewrite (sub_walk _ _ _ (literal (emitted a new_name))).
  - unfold rewrite, rewrite_from. f_equal. f_equal. apply walk_ext.
    intros p t.
    rewrite (map_rule_ext _ (fun _ => emitted a new_name))
      by apply expand_literal.
    now rewrite quoted_hit.
  - apply min_len_anchor.
  - apply parse_literal. unfold emitted.
    rewrite !no_backslash_app, Ho, Hn. now destruct (dotted a), (closed a).
Qed.

Lemma sub_css (marker : ascii) (old_name new_name s : string) :
  Ascii.eqb marker backslash = false ->
  no_backslash new_name = true ->
  sub (css_regex marker (Lit old_name)) 2
      (String marker EmptyString +:+ new_name +:+ "\2") s =
  Some (rewrite (css_rule marker old_name new_name) s).
Proof.
  intros Hm Hn.
  rewrite (sub_walk _ _ _ (literal (String marker new_name) ++ [TRef 2])).
  - unfold rewrite, rewrite_from. f_equal. f_equal. apply walk_ext.
    intros p t. apply css_hit.
  - unfold css_regex. simpl. lia.
  - apply (parse_literal_ref (String marker new_name)).
    unfold no_backslash in *. simpl. now rewrite Hm, Hn.
Qed.

(** One turn of the HTML/JS rewriter is the rewriting by its seven rules
    in turn, provided the new name holds no backslash. *)
Lemma replace_one_rewrite (old_name new_name content : string) :
  no_backslash new_name = true ->
  replace_one old_name new_name content =
  Some (rewrite_one old_name new_name content).
Proof.
  intros Hn. unfold replace_one, rewrite_one, rewrite_anchors. cbn [fold_left].
  pose proof (fun a => sub_quoted a old_name new_name) as H.
  rewrite (H (Anchor false "class=" false false)); auto. cbn [mbind option_bind].
  rewrite (H (Anchor false "className=" false false)); auto.
  cbn [mbind option_bind].
  rewrite (H (Anchor true "querySelector(" true true)); auto.
  cbn [mbind option_bind].
  rewrite (H (Anchor true "querySelectorAll(" true true)); auto.
  cbn [mbind option_bind].
  rewrite (H (Anchor true "getElementsByClassName(" false true)); auto.
  cbn [mbind option_bind].
  rewrite (H (Anchor false "id=" false false)); auto. cbn [mbind option_bind].
  rewrite (H (Anchor true "getElementById(" false true)); auto.
Qed.

Lemma replace_one_css_rewrite (old_name new_name content : string) :
  no_backslash new_name = true ->
  replace_one_css old_name new_name content =
  Some (rewrite_one_css old_name new_name content).
Proof.
  intros Hn. unfold replace_one_css, rewrite_one_css.
  rewrite (sub_css "." old_name new_name) by auto. cbn [mbind option_bind].
  now rewrite (sub_css "#" old_name new_name) by auto.
Qed.

Lemma replace_all_rewrite (replacements : list (string * string))
    (content : string) :
  plain_tokens replacements ->
  replace_classnames_ids content replacements =
  Some (rewrite_all replacements content).
Proof.
  unfold plain_tokens, rewrite_all. revert content.
  induction replacements as [|[o n] l IH]; intros content H; simpl;
    [reflexivity|].
  inversion H as [|? ? Hn Hl]; subst. simpl in Hn.
  rewrite replace_one_rewrite by assumption. simpl. now apply IH.
Qed.

Lemma replace_all_css_rewrite (replacements : list (string * string))
    (content : string) :
  plain_tokens replacements ->
  replace_classnames_ids_css content replacements =
  Some (rewrite_all_css replacements content).
Proof.
  unfold plain_tokens, rewrite_all_css. revert content.
  induction replacements as [|[o n] l IH]; intros content H; simpl;
    [reflexivity|].
  inversion H as [|? ? Hn Hl]; subst. simpl in Hn.
  rewrite replace_one_css_rewrite by assumption. simpl. now apply IH.
Qed.

Lemma findall1_captures (a : anchor) (content : string) :
  bounded a = false ->
  findall1 (anchor_regex a (Group 1 (Plus not_quote))) content =
  captures (capture_rule a) content.
Proof.
  intros Hb. unfold findall1, captures.
  rewrite findall_walk by apply min_len_anchor.
  f_equal. apply walk_ext. intros p s. now apply capture_hit.
Qed.

Lemma findall2_captures (marker : ascii) (content : string) :
  findall2 (css_regex marker (Plus css_ident_char)) content =
  captures (css_capture_rule marker) content.
Proof.
  unfold findall2, captures.
  rewrite findall_walk by (unfold css_regex; simpl; lia).
  f_equal. apply walk_ext. intros p s. apply css_capture_hit.
Qed.

Ltac rewrite_anchor H :=
  let T := type of H in
  let T' := eval cbv [anchor_regex bounded opener dotted closed] in T in
  rewrite (H : T').

Lemma find_classnames_ids_found (content : string) :
  find_classnames_ids content =
  (found_at class_anchors content, found_at id_anchors content).
Proof.
  unfold find_classnames_ids, found_at, class_anchors, id_anchors, to_set.
  cbv zeta.
  pose proof (fun a => findall1_captures a content) as H.
  rewrite_anchor (H (Anchor false "class=" false false) eq_refl).
  rewrite_anchor (H (Anchor false "id=" false false) eq_refl).
  rewrite_anchor (H (Anchor false "querySelector(" true true) eq_refl).
  rewrite_anchor (H (Anchor false "querySelectorAll(" true true) eq_refl).
  rewrite_anchor (H (Anchor false "getElementsByClassName(" false true) eq_refl).
  rewrite_anchor (H (Anchor false "getElementById(" false true) eq_refl).
  cbn [List.map union_list foldr].
  now rewrite !(right_id_L ∅ (∪)), !(assoc_L (∪)).
Qed.

Lemma find_classnames_ids_css_found (content : string) :
  find_classnames_ids_css content =
  (css_found "." content, css_found "#" content).
Proof.
  unfold find_classnames_ids_css, css_found.
  now rewrite <- !findall2_captures.
Qed.

End Refinement.

(** ** The name generator and the mapping phase *)

Section Mapping.
Import App.
Context {rng : Type}.
Variable randbelow : nat -> rng -> nat * rng.

Lemma char_at_alnum (i : nat) :
  i < String.length alphabet -> is_alnum (char_at alphabet i) = true.
Proof.
  intros H. change (String.length alphabet) with 62 in H.
  do 62 (destruct i as [|i]; [reflexivity|]). lia.
Qed.

Lemma choices_alnum (k : nat) (g : rng) :
  (forall n g, 0 < n -> fst (randbelow n g) < n) ->
  String.length (fst (choices randbelow alphabet k g)) = k /\
  all_chars is_alnum (fst (choices randbelow alphabet k g)) = true.
Proof.
  intros Hr. revert g. induction k as [|k IH]; intros g; cbn [choices].
  - auto.
  - pose proof (Hr (String.length alphabet) g) as Hi.
    destruct (randbelow (String.length alphabet) g) as [i g1].
    cbn [fst] in Hi. specialize (IH g1).
    destruct (choices randbelow alphabet k g1) as [t g2].
    cbn [fst] in *. destruct IH as [IH1 IH2]. split.
    + cbn [String.length]. now rewrite IH1.
    + cbn [all_chars]. rewrite IH2, char_at_alnum; [reflexivity|].
      apply Hi. vm_compute. lia.
Qed.

Lemma has_key_spec (name : string) (l : list (string * string)) :
  has_key name l = true <-> name ∈ l.*1.
Proof.
  unfold has_key. rewrite existsb_exists, list_elem_of_fmap. split.
  - intros ([k v] & Hin & Heq). apply String.eqb_eq in Heq. simpl in Heq.
    exists (k, v). split; [now subst|]. now apply list_elem_of_In.
  - intros ([k v] & -> & Hin). exists (k, v). split.
    + now apply list_elem_of_In.
    + apply String.eqb_refl.
Qed.

Lemma assign_keys (names : list string) :
  forall (l : list (string * string)) (g : rng),
  NoDup l.*1 ->
  NoDup (fst (assign randbelow names l g)).*1 /\
  (forall x, x ∈ (fst (assign randbelow names l g)).*1 <-> x ∈ l.*1 \/ x ∈ names).
Proof.
  induction names as [|name more IH]; intros l g Hnd; simpl.
  - split; [assumption|]. intros x. rewrite elem_of_nil. tauto.
  - destruct (has_key name l) eqn:Hk.
    + destruct (IH l g Hnd) as [H1 H2]. split; [assumption|].
      intros x. rewrite H2, elem_of_cons. apply has_key_spec in Hk.
      split; [tauto|]. intros [?|[->|?]]; auto.
    + destruct (generate_random_string randbelow g) as [token g'].
      assert (Hnd' : NoDup (l ++ [(name, token)]).*1).
      { rewrite fmap_app. simpl. apply NoDup_app. split; [assumption|].
        split; [|apply NoDup_singleton].
        intros x Hx ->%list_elem_of_singleton.
        apply has_key_spec in Hx. congruence. }
      destruct (IH _ g' Hnd') as [H1 H2]. split; [assumption|].
      intros x. rewrite H2, fmap_app, elem_of_app, elem_of_cons. simpl.
      rewrite list_elem_of_singleton. tauto.
Qed.

Lemma assign_values (P : string -> Prop) (names : list string) :
  (forall g, P (fst (generate_random_string randbelow g))) ->
  forall (l : list (string * string)) (g : rng),
  Forall (fun kv => P (snd kv)) l ->
  Forall (fun kv => P (snd kv)) (fst (assign randbelow names l g)).
Proof.
  intros Hg. induction names as [|name more IH]; intros l g Hl; simpl;
    [assumption|].
  destruct (has_key name l); [now apply IH|].
  pose proof (Hg g) as Ht.
  destruct (generate_random_string randbelow g) as [token g'].
  apply IH. apply Forall_app. split; [assumption|].
  constructor; [exact Ht|constructor].
Qed.

End Mapping.

Section MappingPhase.
Import App.
Context {fsys rng : Type}.
Variable randbelow : nat -> rng -> nat * rng.
Variable set_order : gset string -> list string.
Hypothesis set_order_perm : forall S, set_order S ≡ₚ elements S.

Lemma mapping_phase_keys (cls ids : gset string) (w : @world fsys rng) :
  NoDup (snd (mapping_phase randbelow set_order cls ids w)).*1 /\
  forall x, x ∈ (snd (mapping_phase randbelow set_order cls ids w)).*1
            <-> x ∈ cls ∪ ids.
Proof.
  unfold mapping_phase.
  pose proof (assign_keys randbelow (set_order cls) nil (random_state w)
                (NoDup_nil_2)) as [H1 H2].
  destruct (assign randbelow (set_order cls) nil (random_state w)) as [r1 g1].
  pose proof (assign_keys randbelow (set_order ids) r1 g1 H1) as [H3 H4].
  destruct (assign randbelow (set_order ids) r1 g1) as [r2 g2].
  simpl in *. split; [assumption|]. intros x.
  rewrite H4, H2, elem_of_union, !set_order_perm, !elem_of_elements.
  rewrite elem_of_nil. tauto.
Qed.

Lemma mapping_phase_values (P : string -> Prop) (cls ids : gset string)
    (w : @world fsys rng) :
  (forall g, P (fst (generate_random_string randbelow g))) ->
  Forall (fun kv => P (snd kv))
    (snd (mapping_phase randbelow set_order cls ids w)).
Proof.
  intros Hg. unfold mapping_phase.
  pose proof (assign_values randbelow P (set_order cls) Hg nil
                (random_state w) (Forall_nil_2 _)) as H1.
  destruct (assign randbelow (set_order cls) nil (random_state w)) as [r1 g1].
  pose proof (assign_values randbelow P (set_order ids) Hg r1 g1 H1) as H2.
  destruct (assign randbelow (set_order ids) r1 g1) as [r2 g2].
  exact H2.
Qed.

Lemma mapping_phase_size (cls ids : gset string) (w : @world fsys rng) :
  length (snd (mapping_phase randbelow set_order cls ids w)) = size (cls ∪ ids).
Proof.
  destruct (mapping_phase_keys cls ids w) as [Hnd Hin].
  rewrite <- (length_fmap fst).
  rewrite <- (size_list_to_set (C := gset string)) by assumption.
  f_equal. apply set_eq. intros x. now rewrite elem_of_list_to_set, Hin.
Qed.

End MappingPhase.

(** ** The driver *)

Section DriverFacts.
Import App Spec.
Context {fsys rng : Type}.
Variable read_text : fsys -> string -> exn + string.
Variable write_text : fsys -> string -> string -> fsys * option exn.
Variable randbelow : nat -> rng -> nat * rng.
Variable set_order : gset string -> list string.

Local Abbreviation World' := (@World fsys rng).
Local Abbreviation world' := (@world fsys rng).

Lemma handle_caught {A : Type} (e : exn) (skip : A) (w : world') :
  caught e = true ->
  handle e skip w =
  (World' (disk w) (random_state w) (log w ++ [error_line e]), Returned skip).
Proof. destruct e; simpl; try discriminate; reflexivity. Qed.

Lemma handle_uncaught {A : Type} (e : exn) (skip : A) (w : world') :
  caught e = false -> handle e skip w = (w, Raised e).
Proof. destruct e; simpl; try discriminate; reflexivity. Qed.



Lemma rewrite_file_read_caught (path : string)
    (replacements : list (string * string)) (w : world') (e : exn) :
  read_text (disk w) path = inl e -> caught e = true ->
  rewrite_file read_text write_text path replacements w =
  (World' (disk w) (random_state w)
     (log w ++ [Line DEBUG ("Processing file: " +:+ path); error_line e]),
   Returned tt).
Proof.
  intros Hr Hc. unfold rewrite_file. simpl.
  rewrite Hr, handle_caught by assumption. simpl. now rewrite <- app_assoc.
Qed.

Lemma rewrite_file_read_uncaught (path : string)
    (replacements : list (string * string)) (w : world') (e : exn) :
  read_text (disk w) path = inl e -> caught e = false ->
  rewrite_file read_text write_text path replacements w =
  (logging DEBUG ("Processing file: " +:+ path) w, Raised e).
Proof.
  intros Hr Hc. unfold rewrite_file. simpl. now rewrite Hr, handle_uncaught.
Qed.

Lemma rewrite_file_write (path content : string)
    (replacements : list (string * string)) (w : world') :
  plain_tokens replacements ->
  read_text (disk w) path = inr content ->
  rewrite_file read_text write_text path replacements w =
  match write_text (disk w) path (rewritten path content replacements) with
  | (d, None) =>
      (World' d (random_state w)
         (log w ++ [Line DEBUG ("Processing file: " +:+ path);
                    Line DEBUG ("Processed file: " +:+ path)]),
       Returned tt)
  | (d, Some e) =>
      if caught e
      then (World' d (random_state w)
              (log w ++ [Line DEBUG ("Processing file: " +:+ path);
                         error_line e]),
            Returned tt)
      else (World' d (random_state w)
              (log w ++ [Line DEBUG ("Processing file: " +:+ path)]),
            Raised e)
  end.
Proof.
  intros Hp Hr. unfold rewrite_file, rewritten. simpl. rewrite Hr.
  assert (E : (if ends_with ".css" path
               then replace_classnames_ids_css content replacements
               else replace_classnames_ids content replacements)
              = Some (if ends_with ".css" path
                      then rewrite_all_css replacements content
                      else rewrite_all replacements content)).
  { destruct (ends_with ".css" path);
      [now apply replace_all_css_rewrite|now apply replace_all_rewrite]. }
  rewrite E.
  destruct (write_text (disk w) path _) as [d [e|]].
  - destruct (caught e) eqn:Hc.
    + rewrite handle_caught by assumption. simpl. now rewrite <- app_assoc.
    + now rewrite handle_uncaught.
  - unfold logging. simpl. now rewrite <- app_assoc.
Qed.

Lemma char_at_plain (i : nat) :
  Ascii.eqb (char_at alphabet i) backslash = false.
Proof. do 62 (destruct i as [|i]; [reflexivity|]). reflexivity. Qed.

Lemma choices_plain (k : nat) (g : rng) :
  no_backslash (fst (choices randbelow alphabet k g)) = true.
Proof.
  revert g. induction k as [|k IH]; intros g; cbn [choices]; [reflexivity|].
  destruct (randbelow (String.length alphabet) g) as [i g1].
  specialize (IH g1). destruct (choices randbelow alphabet k g1) as [t g2].
  unfold no_backslash in *. cbn [fst all_chars] in *.
  now rewrite IH, char_at_plain.
Qed.

Lemma mapping_phase_plain (cls ids : gset string) (w : world') :
  plain_tokens (snd (mapping_phase randbelow set_order cls ids w)).
Proof.
  apply (mapping_phase_values randbelow set_order
           (fun t => no_backslash t = true)).
  intros g. apply choices_plain.
Qed.

Hypothesis reads_caught :
  forall d path e, read_text d path = inl e -> caught e = true.


Hypothesis writes_caught :
  forall d path content d' e,
    write_text d path content = (d', Some e) -> caught e = true.



End DriverFacts.


Section Propagation.
Import App Spec.
Context {fsys rng : Type}.
Variable read_text : fsys -> string -> exn + string.
Variable write_text : fsys -> string -> string -> fsys * option exn.
Variable randbelow : nat -> rng -> nat * rng.
Variable set_order : gset string -> list string.

Local Abbreviation world' := (@world fsys rng).

Lemma extends_refl (w : world') : extends w w.
Proof. exists nil. split; [now rewrite app_nil_r|constructor]. Qed.

Lemma extends_trans (a b c : world') : extends a b -> extends b c -> extends a c.
Proof.
  intros (l1 & E1 & F1) (l2 & E2 & F2). exists (l1 ++ l2). split.
  - now rewrite E2, E1, <- app_assoc.
  - now apply Forall_app.
Qed.

Lemma extends_logging (lvl : level) (msg : string) (w : world') :
  lvl <> INFO -> extends w (logging lvl msg w).
Proof.
  intros H. exists [Line lvl msg]. split; [reflexivity|].
  constructor; [|constructor]. unfold completion. congruence.
Qed.

Lemma handle_outcome {A : Type} (e : exn) (skip : A) (w w' : world')
    (o : outcome A) :
  handle e skip w = (w', o) ->
  extends w w' /\ disk w' = disk w /\
  match o with Returned _ => caught e = true | Raised e' => e' = e /\ caught e = false end.
Proof.
  destruct e; simpl; intros [= <- <-]; repeat split;
    try apply extends_refl; apply extends_logging; discriminate.
Qed.

Lemma scan_file_outcome (path : string) (found : gset string * gset string)
    (w w' : world') (o : outcome (gset string * gset string)) :
  scan_file read_text path found w = (w', o) ->
  extends w w' /\ disk w' = disk w /\
  match o with
  | Returned _ =>
      match read_text (disk w) path with inl e => caught e = true | inr _ => True end
  | Raised e => read_text (disk w) path = inl e /\ caught e = false
  end.
Proof.
  unfold scan_file. cbn [disk logging].
  destruct (read_text (disk w) path) as [e|content] eqn:Hr.
  - intros H. apply handle_outcome in H as (Hx & Hd & Ho). cbn [disk] in Hd.
    split; [|split; [assumption|]].
    + eapply extends_trans; [|exact Hx]. apply extends_logging. discriminate.
    + destruct o as [?|e']; [assumption|]. destruct Ho as [-> ?]. auto.
  - destruct (if ends_with ".css" path then _ else _) as [c i].
    intros [= <- <-]. repeat split. apply extends_logging. discriminate.
Qed.

Lemma scan_phase_outcome (files : list string) :
  forall (found : gset string * gset string) (w w' : world')
         (o : outcome (gset string * gset string)),
  scan_phase read_text files found w = (w', o) ->
  extends w w' /\ disk w' = disk w /\
  match o with
  | Returned _ =>
      forall path e, path ∈ files -> read_text (disk w) path = inl e ->
                     caught e = true
  | Raised e =>
      caught e = false /\
      exists path, path ∈ files /\ read_text (disk w) path = inl e
  end.
Proof.
  induction files as [|path more IH]; intros found w w' o; cbn [scan_phase].
  - intros [= <- <-]. repeat split; [apply extends_refl|].
    intros p e Hp. now apply elem_of_nil in Hp.
  - destruct (scan_file read_text path found w) as [w1 [found1|e1]] eqn:Hs;
      apply scan_file_outcome in Hs as (Hx & Hd & Ho).
    + intros H. apply IH in H as (Hx' & Hd' & Ho').
      split; [eapply extends_trans; eauto|]. split; [congruence|].
      rewrite Hd in Ho'. destruct o as [?|e].
      * intros p e Hp Hr. apply elem_of_cons in Hp as [->|Hp]; [|eauto].
        now rewrite Hr in Ho.
      * destruct Ho' as (Hc & p & Hp & Hr). split; [assumption|].
        exists p. split; [now right|assumption].
    + intros [= <- <-]. destruct Ho as [Hr Hc]. repeat split; auto.
      exists path. split; [now left|assumption].
Qed.










End Propagation.

(** ** Rules that do not interfere commute *)

Section Commuting.
Import Re Walk Spec.
Variable starts : string -> Prop.

Lemma last_opt_nonempty (p q : option ascii) (x : string) :
  x <> EmptyString -> last_opt p x = last_opt q x.
Proof. destruct x; [congruence|reflexivity]. Qed.

Lemma walk_word (h : rule string) (p p' : option ascii) (s : string) :
  tame starts h -> word_opt p = word_opt p' ->
  walk h 0 p s = walk h 0 p' s.
Proof.
  intros T E. destruct s as [|c t]; [reflexivity|]. simpl.
  now rewrite (tame_word _ _ T p p').
Qed.

Lemma walk_keep_through {A : Type} (h : rule A) (x r : string)
    (p : option ascii) :
  (forall u v p', x = u +:+ v -> v <> EmptyString -> h p' (v +:+ r) = None) ->
  walk h 0 p (x +:+ r) = keep_all x ++ walk h 0 (last_opt p x) r.
Proof.
  revert p. induction x as [|c x IH]; intros p H; [reflexivity|].
  assert (E := H "" (String c x) p eq_refl ltac:(discriminate)).
  cbn [String.append] in E. cbn [String.append walk]. rewrite E.
  cbn [keep_all app last_opt]. f_equal. apply IH.
  intros u v p' -> Hv. apply (H (String c u) v p'); auto.
Qed.

Lemma walk_at_hit {A : Type} (h : rule A) (occ r : string) (p : option ascii)
    (a : A) :
  occ <> EmptyString ->
  h p (occ +:+ r) = Some (a, String.length occ) ->
  walk h 0 p (occ +:+ r) = Hit a :: walk h 0 (last_opt p occ) r.
Proof.
  intros Hne Hh. destruct occ as [|c occ]; [congruence|].
  cbn [String.append walk] in *. rewrite Hh. cbn [String.length last_opt].
  replace (S (String.length occ) - 1) with (String.length occ) by lia.
  f_equal. apply walk_skip.
Qed.

(** If the rewritten text begins with [occ], so does the text, unless a
    replacement was written inside [occ]. *)
Lemma rewrite_front (h : rule string) (t : string) :
  forall (q : option ascii) (occ r2 : string),
  render (walk h 0 q t) = occ +:+ r2 ->
  (exists r, t = occ +:+ r) \/
  (exists u v rep r1 q' s n,
      occ = u +:+ v /\ v <> EmptyString /\
      h q' s = Some (rep, n) /\ v +:+ r2 = rep +:+ r1).
Proof.
  induction t as [|c t IH]; intros q occ r2.
  - simpl. destruct occ; [|discriminate]. left. now exists "".
  - destruct occ as [|x occ]; [left; now exists (String c t)|].
    cbn [walk]. destruct (h q (String c t)) as [[rep n]|] eqn:E.
    + cbn [render]. intros H. right.
      exists "", (String x occ), rep, (render (walk h (n - 1) (Some c) t)),
             q, (String c t), n.
      repeat split; auto; discriminate.
    + cbn [render String.append]. intros [= <- H].
      destruct (IH _ _ _ H) as [[r ->]|(u & v & rep & r1 & q' & s & n & -> & ?)].
      * left. now exists r.
      * right. exists (String c u), v, rep, r1, q', s, n. auto.
Qed.

Section Pair.
Variables h1 h2 : rule string.
Hypothesis T1 : tame starts h1.
Hypothesis T2 : tame starts h2.
Hypothesis A12 : apart h1 h2.

Lemma no_hit_inside (x r : string) :
  solid starts x ->
  (forall p', h2 p' (x +:+ r) = None) ->
  forall u v p', x = u +:+ v -> v <> EmptyString -> h2 p' (v +:+ r) = None.
Proof.
  intros Hs H0 u v p' -> Hv. destruct u as [|c u]; [apply H0|].
  destruct (h2 p' (v +:+ r)) as [[rep n]|] eqn:E; [|reflexivity].
  exfalso. destruct (tame_local _ _ T2 _ _ _ _ E)
    as (occ & r' & Er & _ & (_ & _ & _ & Hst) & _).
  apply (Hs (String c u) v r eq_refl); [discriminate|assumption|].
  rewrite Er. apply Hst.
Qed.

(** Where the first rule finds its occurrence: it rewrites it, and the
    second rule passes over the occurrence and over what was written. *)
Lemma hit_passes (p : option ascii) (s rep : string) (n : nat) :
  h1 p s = Some (rep, n) ->
  exists occ r, s = occ +:+ r /\ String.length r < String.length s /\
    (forall x, rewrite_from h1 p (occ +:+ x) = rep +:+ rewrite_from h1 None x) /\
    (forall x, rewrite_from h2 p (occ +:+ x) = occ +:+ rewrite_from h2 None x) /\
    (forall x, rewrite_from h2 p (rep +:+ x) = rep +:+ rewrite_from h2 None x).
Proof.
  intros E.
  destruct (tame_local _ _ T1 _ _ _ _ E)
    as (occ & r & -> & Hn & (Ho1 & Ho2 & Ho3 & Ho4) & (Hr1 & Hr2 & Hr3 & Hr4)
        & Hloc).
  exists occ, r. split; [reflexivity|]. split.
  { rewrite slength_app. destruct occ; [congruence|simpl; lia]. }
  unfold rewrite_from. repeat split; intros x.
  - rewrite (walk_at_hit h1 occ x p rep); [|assumption|now rewrite Hn].
    cbn [render]. f_equal. f_equal. apply walk_word; [assumption|].
    now rewrite (last_opt_nonempty p None).
  - rewrite walk_keep_through, render_keep_all.
    + f_equal. f_equal. apply walk_word; [assumption|].
      now rewrite (last_opt_nonempty p None).
    + apply no_hit_inside; [assumption|].
      intros p'. apply (A12 _ _ _ _ (Hloc x) p' "").
  - rewrite walk_keep_through, render_keep_all.
    + f_equal. f_equal. apply walk_word; [assumption|].
      now rewrite (last_opt_nonempty p None).
    + apply no_hit_inside; [assumption|].
      intros p'. apply (A12 _ _ _ _ E p' x).
Qed.

(** Rewriting the rest of a text by the second rule does not make the
    first rule find an occurrence where it found none. *)
Lemma no_new_hit (p q : option ascii) (c : ascii) (t : string) :
  h1 p (String c t) = None ->
  h1 p (String c (rewrite_from h2 q t)) = None.
Proof.
  intros Hnone.
  destruct (h1 p (String c (rewrite_from h2 q t))) as [[rep n]|] eqn:E;
    [exfalso|reflexivity].
  destruct (tame_local _ _ T1 _ _ _ _ E)
    as (occ & r2 & Er & Hn & (Ho1 & Ho2 & Ho3 & Ho4) & _ & Hloc).
  destruct occ as [|x occ]; [congruence|]. cbn [String.append] in Er.
  injection Er as <- Er.
  destruct (rewrite_front h2 t q occ r2 Er)
    as [[r ->]|(u & v & rep2 & r1 & q' & s' & n2 & -> & Hv & E2 & Ev)].
  - specialize (Hloc r). cbn [String.append] in Hloc. congruence.
  - destruct (tame_local _ _ T2 _ _ _ _ E2)
      as (_ & _ & _ & _ & _ & (_ & _ & _ & Hst) & _).
    apply (Ho2 (String c u) v r2); [reflexivity|discriminate|assumption|].
    rewrite Ev. apply Hst.
Qed.

End Pair.

(** Two tame rules that are apart from each other can be applied in either
    order. *)
Theorem rules_commute (h1 h2 : rule string) :
  tame starts h1 -> tame starts h2 -> apart h1 h2 -> apart h2 h1 ->
  forall s p,
  rewrite_from h1 p (rewrite_from h2 p s) =
  rewrite_from h2 p (rewrite_from h1 p s).
Proof.
  intros T1 T2 A12 A21 s.
  induction s as [s IH] using (induction_ltof1 _ String.length).
  unfold ltof in IH. intros p.
  destruct (h1 p s) as [[rep n]|] eqn:E1.
  { destruct (hit_passes h1 h2 T1 T2 A12 p s rep n E1)
      as (occ & r & -> & Hlt & H1 & H2 & H3).
    now rewrite H2, H1, H1, H3, IH. }
  destruct (h2 p s) as [[rep n]|] eqn:E2.
  { destruct (hit_passes h2 h1 T2 T1 A21 p s rep n E2)
      as (occ & r & -> & Hlt & H1 & H2 & H3).
    now rewrite H2, H1, H1, H3, IH. }
  destruct s as [|c t]; [reflexivity|].
  unfold rewrite_from at 2 4. cbn [walk]. rewrite E1, E2. cbn [render].
  fold (rewrite_from h1 (Some c) t). fold (rewrite_from h2 (Some c) t).
  unfold rewrite_from at 1 3. cbn [walk].
  rewrite (no_new_hit h1 h2 T1 T2 p (Some c) c t E1).
  rewrite (no_new_hit h2 h1 T2 T1 p (Some c) c t E2).
  cbn [render]. f_equal.
  fold (rewrite_from h1 (Some c) (rewrite_from h2 (Some c) t)).
  fold (rewrite_from h2 (Some c) (rewrite_from h1 (Some c) t)).
  apply IH. simpl. lia.
Qed.

End Commuting.

(** ** Character classes *)

Section Classes.
Import Spec.

Lemma all_chars_app (P : ascii -> bool) (a b : string) :
  all_chars P (a +:+ b) = all_chars P a && all_chars P b.
Proof.
  induction a as [|c a IH]; simpl; [reflexivity|].
  now rewrite IH, andb_assoc.
Qed.

Lemma all_chars_impl (P Q : ascii -> bool) (s : string) :
  (forall c, P c = true -> Q c = true) ->
  all_chars P s = true -> all_chars Q s = true.
Proof.
  intros H. induction s as [|c s IH]; simpl; [reflexivity|].
  intros [Hc Hs]%andb_true_iff. now rewrite (H c Hc), IH.
Qed.

Lemma ident_char_facts (c : ascii) :
  css_ident_char c = true ->
  css_marker c = false /\ css_sep c = false /\ quote c = false /\
  c <> "="%char /\ c <> "("%char /\ c <> ")"%char /\
  Ascii.eqb c backslash = false.
Proof.
  destruct c as [[] [] [] [] [] [] [] []]; vm_compute; intros H;
    try discriminate H; repeat split; discriminate.
Qed.

Lemma sep_char_facts (c : ascii) :
  css_sep c = true -> css_marker c = false /\ is_word c = false.
Proof.
  destruct c as [[] [] [] [] [] [] [] []]; vm_compute; intros H;
    try discriminate H; split; reflexivity.
Qed.

Lemma quote_char_facts (c : ascii) :
  quote c = true -> is_word c = false /\ css_ident_char c = false.
Proof.
  destruct c as [[] [] [] [] [] [] [] []]; vm_compute; intros H;
    try discriminate H; split; reflexivity.
Qed.

Lemma ident_plain (s : string) : ident s -> no_backslash s = true.
Proof.
  apply all_chars_impl. intros c Hc.
  destruct (ident_char_facts c Hc) as (_ & _ & _ & _ & _ & _ & ->).
  reflexivity.
Qed.

(** The text in front of the first character of a class is determined. *)
Lemma split_unique (P : ascii -> bool) (a b r r' : string) (x y : ascii) :
  all_chars (fun c => negb (P c)) a = true ->
  all_chars (fun c => negb (P c)) b = true ->
  P x = true -> P y = true ->
  a +:+ String x r = b +:+ String y r' ->
  a = b /\ x = y /\ r = r'.
Proof.
  revert b. induction a as [|c a IH]; intros [|d b]; simpl;
    intros Ha Hb Hx Hy E.
  - injection E as -> ->. auto.
  - injection E as -> _. apply andb_true_iff in Hb as [Hb _].
    rewrite Hx in Hb. discriminate.
  - injection E as -> _. apply andb_true_iff in Ha as [Ha _].
    rewrite Hy in Ha. discriminate.
  - injection E as -> E. apply andb_true_iff in Ha as [_ Ha].
    apply andb_true_iff in Hb as [_ Hb].
    destruct (IH b Ha Hb Hx Hy E) as (-> & -> & ->). auto.
Qed.

(** Two ways to cut one text. *)
Lemma app_eq_app (a b c d : string) :
  a +:+ b = c +:+ d ->
  (exists w, c = a +:+ w /\ b = w +:+ d) \/
  (exists w, w <> EmptyString /\ a = c +:+ w /\ d = w +:+ b).
Proof.
  revert c. induction a as [|x a IH]; intros c; simpl.
  - intros ->. left. now exists c.
  - destruct c as [|y c]; simpl.
    + intros <-. right. exists (String x a). repeat split. discriminate.
    + intros [= -> E]. destruct (IH _ E) as [(w & -> & ->)|(w & ? & -> & ->)].
      * left. now exists w.
      * right. now exists w.
Qed.

End Classes.

(** ** The CSS rules do not interfere *)

Section CssFamily.
Import Re Walk Spec.

Lemma last_opt_snoc (p : option ascii) (x : string) (d : ascii) :
  last_opt p (x +:+ String d EmptyString) = Some d.
Proof. now rewrite last_opt_app. Qed.

Lemma snoc_app (x r : string) (d : ascii) :
  (x +:+ String d EmptyString) +:+ r = x +:+ String d r.
Proof. now rewrite sapp_assoc. Qed.

Lemma css_rule_inv (m : ascii) (K T : string) (p : option ascii) (s rep : string)
    (n : nat) :
  css_rule m K T p s = Some (rep, n) ->
  exists d r, s = String m (K +:+ String d r) /\ css_sep d = true /\
              rep = String m (T +:+ String d EmptyString) /\
              n = String.length K + 2.
Proof.
  unfold css_rule. destruct (strip (String m K) s) as [[|d r]|] eqn:E;
    try discriminate.
  destruct (css_sep d) eqn:Hd; [|discriminate]. intros [= <- <-].
  apply strip_inv in E. exists d, r. auto.
Qed.

Lemma css_rule_hit (m : ascii) (K T : string) (p : option ascii) (d : ascii)
    (r : string) :
  css_sep d = true ->
  css_rule m K T p (String m (K +:+ String d r)) =
  Some (String m (T +:+ String d EmptyString), String.length K + 2).
Proof.
  intros Hd. unfold css_rule.
  change (String m (K +:+ String d r)) with (String m K +:+ String d r).
  now rewrite strip_app, Hd.
Qed.

Lemma solid_marked (m : ascii) (body : string) :
  all_chars (fun c => negb (css_marker c)) body = true ->
  solid css_starts (String m body).
Proof.
  intros Hb u v r E Hu Hv (c & t & Ev & Hc).
  destruct u as [|x u]; [congruence|]. injection E as _ ->.
  rewrite all_chars_app in Hb. apply andb_true_iff in Hb as [_ Hb].
  destruct v as [|y v]; [congruence|]. injection Ev as -> _.
  simpl in Hb. now rewrite Hc in Hb.
Qed.

Lemma css_shaped (m d : ascii) (K : string) :
  css_marker m = true -> ident K -> css_sep d = true ->
  well_shaped css_starts (String m (K +:+ String d EmptyString)).
Proof.
  intros Hm HK Hd. repeat split.
  - discriminate.
  - apply solid_marked. rewrite all_chars_app. apply andb_true_iff. split.
    + revert HK. apply all_chars_impl. intros c Hc.
      now destruct (ident_char_facts c Hc) as (-> & _).
    + simpl. now destruct (sep_char_facts d Hd) as (-> & _).
  - change (String m (K +:+ String d "")) with (String m K +:+ String d "").
    rewrite last_opt_snoc. simpl. now destruct (sep_char_facts d Hd).
  - intros r. exists m, ((K +:+ String d "") +:+ r). auto.
Qed.

Lemma css_tame (m : ascii) (K T : string) :
  css_marker m = true -> ident K -> ident T ->
  tame css_starts (css_rule m K T).
Proof.
  intros Hm HK HT. split; [reflexivity|].
  intros p s rep n E.
  apply css_rule_inv in E as (d & r & -> & Hd & -> & ->).
  exists (String m (K +:+ String d "")), r.
  split; [cbn [String.append]; now rewrite snoc_app|].
  split; [simpl; rewrite slength_app; simpl; lia|].
  split; [now apply css_shaped|]. split; [now apply css_shaped|].
  intros r'. cbn [String.append]. rewrite snoc_app. now apply css_rule_hit.
Qed.

Lemma ident_no_sep (K : string) :
  ident K -> all_chars (fun c => negb (css_sep c)) K = true.
Proof.
  apply all_chars_impl. intros c Hc.
  now destruct (ident_char_facts c Hc) as (_ & -> & _).
Qed.

Lemma css_apart (m1 m2 : ascii) (K1 T1 K2 T2 : string) :
  ident K1 -> ident T1 -> ident K2 -> K1 <> K2 -> T1 <> K2 ->
  apart (css_rule m1 K1 T1) (css_rule m2 K2 T2).
Proof.
  intros HK1 HT1 HK2 Hk Ht p s rep n E p' r.
  apply css_rule_inv in E as (d & r1 & -> & Hd & -> & ->).
  split.
  - destruct (css_rule m2 K2 T2 p' _) as [[rep' n']|] eqn:E'; [|reflexivity].
    apply css_rule_inv in E' as (d' & r' & E' & Hd' & _).
    injection E' as _ E'. exfalso. apply Hk.
    now apply (split_unique css_sep K1 K2 r1 r' d d');
      auto using ident_no_sep.
  - destruct (css_rule m2 K2 T2 p' _) as [[rep' n']|] eqn:E'; [|reflexivity].
    apply css_rule_inv in E' as (d' & r' & E' & Hd' & _).
    cbn [String.append] in E'. rewrite snoc_app in E'.
    injection E' as _ E'. exfalso. apply Ht.
    now apply (split_unique css_sep T1 K2 r r' d d');
      auto using ident_no_sep.
Qed.

(** Two CSS substitutions for different identifiers, with tokens that are
    not identifiers of the other, commute. *)
Lemma css_rules_commute (m1 m2 : ascii) (K1 T1 K2 T2 content : string) :
  css_marker m1 = true -> css_marker m2 = true ->
  ident K1 -> ident T1 -> ident K2 -> ident T2 ->
  K1 <> K2 -> T1 <> K2 -> T2 <> K1 ->
  rewrite (css_rule m1 K1 T1) (rewrite (css_rule m2 K2 T2) content) =
  rewrite (css_rule m2 K2 T2) (rewrite (css_rule m1 K1 T1) content).
Proof.
  intros. unfold rewrite.
  apply (rules_commute css_starts); auto using css_tame, css_apart.
Qed.

End CssFamily.

(** ** The rules of the HTML/JS rewriter do not interfere *)

Section QuotedFamily.
Import Re Walk Spec.

Lemma suffix_inv (u b o : string) :
  u +:+ b = o -> u = substring 0 (String.length o - String.length b) o.
Proof.
  intros <-. rewrite slength_app.
  replace (String.length u + String.length b - String.length b)
    with (String.length u) by lia.
  now rewrite substring_app.
Qed.

(** What the proofs need to know of the seven openers. *)
Lemma opener_facts (a : anchor) :
  In a rewrite_anchors ->
  all_chars not_quote (opener a) = true /\
  word_opt (head (opener a)) = true /\
  all_chars css_ident_char (tail (opener a)) = false /\
  no_backslash (opener a) = true.
Proof. intros H. each_anchor H; vm_compute; auto. Qed.

Lemma opener_suffix (a a' : anchor) (u : string) :
  In a rewrite_anchors -> In a' rewrite_anchors ->
  opener a = u +:+ opener a' -> u = EmptyString /\ a = a'.
Proof.
  intros H H' E. symmetry in E. pose proof (suffix_inv _ _ _ E) as Eu.
  each_anchor H; each_anchor H'; cbn [opener] in *;
    vm_compute in Eu; subst u; try discriminate E; auto.
Qed.

Lemma emitted_shaped (a : anchor) (T : string) :
  emitted a T =
  shaped a dquote (if dotted a then "." else EmptyString) T dquote.
Proof. reflexivity. Qed.

Lemma dot_part_emitted (a : anchor) :
  dot_part a (if dotted a then "." else EmptyString).
Proof.
  unfold dot_part. destruct (dotted a); [|reflexivity].
  exists "."%char. auto.
Qed.

Ltac norm_app :=
  repeat (progress (rewrite ?sapp_assoc; cbn [String.append])).

Ltac len_goal Hlen :=
  match goal with
  | |- String.length ?S - String.length ?r = String.length ?X =>
      replace S with (X +:+ r) by (now norm_app); apply Hlen
  end.

Lemma quoted_rule_inv (a : anchor) (K T : string) (p : option ascii)
    (s rep : string) (n : nat) :
  quoted_rule a K T p s = Some (rep, n) ->
  exists q1 dc q2 r,
    quote q1 = true /\ quote q2 = true /\ dot_part a dc /\
    s = shaped a q1 dc K q2 +:+ r /\ rep = emitted a T /\
    n = String.length (shaped a q1 dc K q2) /\
    (bounded a = true -> word_opt p = false).
Proof.
  unfold quoted_rule, after_opening, closing, pop, shaped, closer, dot_part.
  destruct (bounded a && word_opt p) eqn:Hb; [discriminate|].
  destruct (strip (opener a) s) as [[|q1 s1]|] eqn:Eo; try discriminate.
  destruct (quote q1) eqn:Hq1; [|discriminate].
  apply strip_inv in Eo. subst s.
  assert (Hbw : bounded a = true -> word_opt p = false).
  { intros Hba. rewrite Hba in Hb. exact Hb. }
  assert (Hlen : forall x y : string,
    String.length (x +:+ y) - String.length y = String.length x).
  { intros x y. rewrite slength_app. lia. }
  destruct (dotted a).
  - destruct s1 as [|c s1]; [discriminate|]. cbn [option_map snd].
    destruct (any_char c) eqn:Hc; [|discriminate]. cbn [option_map snd].
    destruct (strip K s1) as [[|q2 s2]|] eqn:EK; try discriminate.
    destruct (quote q2) eqn:Hq2; [|discriminate].
    apply strip_inv in EK. subst s1.
    destruct (closed a).
    + destruct (strip ")" s2) as [r|] eqn:Ec; [|discriminate].
      apply strip_inv in Ec. subst s2. intros [= <- <-].
      exists q1, (String c ""), q2, r. repeat split; eauto.
      * now norm_app.
      * len_goal Hlen.
    + intros [= <- <-].
      exists q1, (String c ""), q2, s2. repeat split; eauto.
      * now norm_app.
      * len_goal Hlen.
  - destruct (strip K s1) as [[|q2 s2]|] eqn:EK; try discriminate.
    destruct (quote q2) eqn:Hq2; [|discriminate].
    apply strip_inv in EK. subst s1.
    destruct (closed a).
    + destruct (strip ")" s2) as [r|] eqn:Ec; [|discriminate].
      apply strip_inv in Ec. subst s2. intros [= <- <-].
      exists q1, "", q2, r. repeat split; eauto.
      * now norm_app.
      * len_goal Hlen.
    + intros [= <- <-].
      exists q1, "", q2, s2. repeat split; eauto.
      * now norm_app.
      * len_goal Hlen.
Qed.

Lemma quoted_rule_hit (a : anchor) (K T : string) (p : option ascii)
    (q1 q2 : ascii) (dc r : string) :
  quote q1 = true -> quote q2 = true -> dot_part a dc ->
  (bounded a = true -> word_opt p = false) ->
  quoted_rule a K T p (shaped a q1 dc K q2 +:+ r) =
  Some (emitted a T, String.length (shaped a q1 dc K q2)).
Proof.
  intros Hq1 Hq2 Hd Hb.
  unfold quoted_rule, after_opening, closing, pop, shaped, closer, dot_part in *.
  assert (Hbw : bounded a && word_opt p = false).
  { destruct (bounded a); [now rewrite Hb|reflexivity]. }
  rewrite Hbw, sapp_assoc, strip_app. cbn [String.append]. rewrite Hq1.
  assert (Hlen : forall x y : string,
    String.length (x +:+ y) - String.length y = String.length x).
  { intros x y. rewrite slength_app. lia. }
  destruct (dotted a).
  - destruct Hd as (c & -> & Hc). cbn [String.append option_map snd].
    rewrite Hc. cbn [option_map snd]. rewrite sapp_assoc, strip_app.
    cbn [String.append]. rewrite Hq2.
    destruct (closed a); cbn [String.append strip];
      rewrite ?Ascii.eqb_refl; do 2 f_equal; len_goal Hlen.
  - subst dc. cbn [String.append]. rewrite sapp_assoc, strip_app.
    cbn [String.append]. rewrite Hq2.
    destruct (closed a); cbn [String.append strip];
      rewrite ?Ascii.eqb_refl; do 2 f_equal; len_goal Hlen.
Qed.

Lemma head_app (x y : string) :
  x <> EmptyString -> head (x +:+ y) = head x.
Proof. destruct x; [congruence|reflexivity]. Qed.

Lemma ident_not_quote (K : string) :
  ident K -> all_chars not_quote K = true.
Proof.
  apply all_chars_impl. intros c Hc. unfold not_quote.
  now destruct (ident_char_facts c Hc) as (_ & _ & -> & _).
Qed.

(** A text that begins an occurrence of the family begins with an opener,
    which is the text in front of its first quote. *)
Lemma starts_opener (w r : string) (q : ascii) :
  all_chars not_quote w = true -> quote q = true ->
  quoted_starts (w +:+ String q r) ->
  exists a, In a rewrite_anchors /\ w = opener a.
Proof.
  intros Hw Hq (a & q' & r' & Ha & Hq' & E).
  destruct (opener_facts a Ha) as (Ho & _).
  exists a. split; [assumption|].
  now destruct (split_unique quote w (opener a) r r' q q' Hw Ho Hq Hq' E).
Qed.

Lemma starts_head (s : string) :
  quoted_starts s -> word_opt (head s) = true.
Proof.
  intros (a & q & r & Ha & _ & ->).
  destruct (opener_facts a Ha) as (_ & Hh & _).
  destruct (opener a); [discriminate|exact Hh].
Qed.

Lemma not_starts_nonword (c : ascii) (t : string) :
  is_word c = false -> ~ quoted_starts (String c t).
Proof. intros Hc H. apply starts_head in H. simpl in H. congruence. Qed.

Lemma not_starts_ident_tail (c : ascii) (K r : string) (q : ascii) :
  ident K -> quote q = true ->
  ~ quoted_starts (String c (K +:+ String q r)).
Proof.
  intros HK Hq (a & q' & r' & Ha & Hq' & E).
  destruct (opener_facts a Ha) as (Ho & Hh & Ht & _).
  destruct (opener a) as [|c' t']; [discriminate|].
  cbn [String.append tail all_chars] in *. injection E as _ E.
  apply andb_true_iff in Ho as [_ Ho].
  destruct (split_unique quote K t' r r' q q'
              (ident_not_quote K HK) Ho Hq Hq' E) as (<- & _).
  unfold ident in HK. congruence.
Qed.

Lemma not_starts_ident (w r : string) (q : ascii) :
  w <> EmptyString -> ident w -> quote q = true ->
  ~ quoted_starts (w +:+ String q r).
Proof.
  intros Hw Hi Hq. destruct w as [|c K]; [congruence|].
  unfold ident in Hi. cbn [all_chars] in Hi.
  apply andb_true_iff in Hi as [_ Hi]. now apply not_starts_ident_tail.
Qed.

(** No occurrence of the family begins strictly inside an occurrence, nor
    inside what the rewriter writes for one. *)
Lemma solid_shaped (a : anchor) (q1 q2 : ascii) (dc K : string) :
  In a rewrite_anchors -> quote q1 = true -> quote q2 = true ->
  dot_part a dc -> ident K ->
  solid quoted_starts (shaped a q1 dc K q2).
Proof.
  intros Ha Hq1 Hq2 Hd HK u v r E Hu Hv Hst. unfold shaped in E.
  destruct (opener_facts a Ha) as (Ho & Hh & Ht & _).
  apply app_eq_app in E as [(w & -> & E)|(w & Hw & E1 & ->)].
  - destruct w as [|x w]; cbn [String.append] in E.
    + subst v. cbn [String.append] in Hst.
      apply not_starts_nonword in Hst; [assumption|].
      now destruct (quote_char_facts q1 Hq1).
    + injection E as <- E. rewrite <- sapp_assoc in E.
      apply app_eq_app in E as [(w2 & -> & E)|(w2 & Hw2 & E1 & ->)].
      * destruct w2 as [|y w3]; cbn [String.append] in E.
        -- subst v. cbn [String.append] in Hst.
           apply not_starts_nonword in Hst; [assumption|].
           now destruct (quote_char_facts q2 Hq2).
        -- injection E as <- E. unfold closer in E.
           destruct (closed a).
           ++ destruct w3 as [|z w3]; cbn [String.append] in E.
              ** subst v. now apply not_starts_nonword in Hst.
              ** injection E as _ E. destruct w3; destruct v; try discriminate.
                 congruence.
           ++ destruct w3; destruct v; try discriminate. congruence.
      * rewrite sapp_assoc in Hst. cbn [String.append] in Hst.
        apply app_eq_app in E1 as [(w4 & -> & E1)|(w5 & Hw5 & E1 & ->)].
        -- apply not_starts_ident in Hst; auto.
           unfold ident in *. rewrite E1, all_chars_app in HK.
           now apply andb_true_iff in HK as [_ HK].
        -- unfold dot_part in Hd. destruct (dotted a).
           ++ destruct Hd as (c & -> & _).
              destruct w as [|x w]; cbn [String.append] in E1.
              ** subst w5. cbn [String.append] in Hst.
                 now apply not_starts_ident_tail in Hst.
              ** injection E1 as _ E1. destruct w; destruct w5; try discriminate.
                 congruence.
           ++ subst dc. destruct w; destruct w5; try discriminate. congruence.
  - rewrite sapp_assoc in Hst. cbn [String.append] in Hst.
    assert (Hwq : all_chars not_quote w = true).
    { rewrite E1, all_chars_app in Ho. now apply andb_true_iff in Ho as [_ Ho]. }
    destruct (starts_opener w _ q1 Hwq Hq1 Hst) as (a' & Ha' & ->).
    now destruct (opener_suffix a a' u Ha Ha' E1).
Qed.

Lemma shaped_well (a : anchor) (q1 q2 : ascii) (dc K : string) :
  In a rewrite_anchors -> quote q1 = true -> quote q2 = true ->
  dot_part a dc -> ident K ->
  well_shaped quoted_starts (shaped a q1 dc K q2).
Proof.
  intros Ha Hq1 Hq2 Hd HK. split; [|split; [|split]].
  - unfold shaped. destruct (opener a); discriminate.
  - now apply solid_shaped.
  - unfold shaped, closer. rewrite last_opt_app. cbn [last_opt].
    rewrite !last_opt_app. cbn [last_opt].
    destruct (closed a); cbn [last_opt word_opt]; [reflexivity|].
    now destruct (quote_char_facts q2 Hq2).
  - intros r. exists a, q1, ((dc +:+ K +:+ String q2 (closer a)) +:+ r).
    repeat split; auto. unfold shaped. now rewrite sapp_assoc.
Qed.

Lemma quoted_tame (a : anchor) (K T : string) :
  In a rewrite_anchors -> ident K -> ident T ->
  tame quoted_starts (quoted_rule a K T).
Proof.
  intros Ha HK HT. split.
  - intros p p' s E. unfold quoted_rule, after_opening. now rewrite E.
  - intros p s rep n E.
    apply quoted_rule_inv in E
      as (q1 & dc & q2 & r & Hq1 & Hq2 & Hd & -> & -> & -> & Hb).
    exists (shaped a q1 dc K q2), r. split; [reflexivity|].
    split; [reflexivity|]. split; [now apply shaped_well|]. split.
    + rewrite emitted_shaped.
      apply shaped_well; auto using dot_part_emitted.
    + intros r'. now apply quoted_rule_hit.
Qed.

Lemma shaped_unique (a1 a2 : anchor) (q1 q2 q1' q2' : ascii)
    (dc1 dc2 X Y r r' : string) :
  In a1 rewrite_anchors -> In a2 rewrite_anchors ->
  quote q1 = true -> quote q2 = true -> quote q1' = true -> quote q2' = true ->
  dot_part a1 dc1 -> dot_part a2 dc2 -> ident X -> ident Y ->
  shaped a1 q1 dc1 X q2 +:+ r = shaped a2 q1' dc2 Y q2' +:+ r' ->
  X = Y.
Proof.
  intros Ha1 Ha2 Hq1 Hq2 Hq1' Hq2' Hd1 Hd2 HX HY E.
  unfold shaped in E. rewrite !sapp_assoc in E. cbn [String.append] in E.
  destruct (opener_facts a1 Ha1) as (Ho1 & _).
  destruct (opener_facts a2 Ha2) as (Ho2 & _).
  destruct (split_unique quote _ _ _ _ _ _ Ho1 Ho2 Hq1 Hq1' E) as (Eo & _ & E').
  destruct (opener_suffix a1 a2 "" Ha1 Ha2 Eo) as [_ <-].
  unfold dot_part in *. destruct (dotted a1).
  - destruct Hd1 as (c1 & -> & _). destruct Hd2 as (c2 & -> & _).
    cbn [String.append] in E'. injection E' as _ E'.
    rewrite !sapp_assoc in E'. cbn [String.append] in E'.
    now destruct (split_unique quote _ _ _ _ _ _
                    (ident_not_quote X HX) (ident_not_quote Y HY) Hq2 Hq2' E').
  - subst dc1 dc2. cbn [String.append] in E'.
    rewrite !sapp_assoc in E'. cbn [String.append] in E'.
    now destruct (split_unique quote _ _ _ _ _ _
                    (ident_not_quote X HX) (ident_not_quote Y HY) Hq2 Hq2' E').
Qed.

Lemma quoted_apart (a1 a2 : anchor) (K1 T1 K2 T2 : string) :
  In a1 rewrite_anchors -> In a2 rewrite_anchors ->
  ident K1 -> ident T1 -> ident K2 -> K1 <> K2 -> T1 <> K2 ->
  apart (quoted_rule a1 K1 T1) (quoted_rule a2 K2 T2).
Proof.
  intros Ha1 Ha2 HK1 HT1 HK2 Hk Ht p s rep n E p' r.
  apply quoted_rule_inv in E
    as (q1 & dc & q2 & r1 & Hq1 & Hq2 & Hd & -> & -> & -> & Hb).
  split.
  - destruct (quoted_rule a2 K2 T2 p' _) as [[rep' n']|] eqn:E';
      [|reflexivity].
    apply quoted_rule_inv in E'
      as (q1' & dc' & q2' & r' & Hq1' & Hq2' & Hd' & E' & _).
    exfalso. apply Hk.
    exact (shaped_unique a1 a2 q1 q2 q1' q2' dc dc' K1 K2 r1 r'
             Ha1 Ha2 Hq1 Hq2 Hq1' Hq2' Hd Hd' HK1 HK2 E').
  - destruct (quoted_rule a2 K2 T2 p' _) as [[rep' n']|] eqn:E';
      [|reflexivity].
    apply quoted_rule_inv in E'
      as (q1' & dc' & q2' & r' & Hq1' & Hq2' & Hd' & E' & _).
    exfalso. apply Ht. rewrite emitted_shaped in E'.
    exact (shaped_unique a1 a2 dquote dquote q1' q2' _ dc' T1 K2 r r'
             Ha1 Ha2 eq_refl eq_refl Hq1' Hq2' (dot_part_emitted a1) Hd'
             HT1 HK2 E').
Qed.

(** Two substitutions of the HTML/JS rewriter for different identifiers,
    with tokens that are not identifiers of the other, commute. *)
Lemma quoted_rules_commute (a1 a2 : anchor) (K1 T1 K2 T2 content : string) :
  In a1 rewrite_anchors -> In a2 rewrite_anchors ->
  ident K1 -> ident T1 -> ident K2 -> ident T2 ->
  K1 <> K2 -> T1 <> K2 -> T2 <> K1 ->
  rewrite (quoted_rule a1 K1 T1) (rewrite (quoted_rule a2 K2 T2) content) =
  rewrite (quoted_rule a2 K2 T2) (rewrite (quoted_rule a1 K1 T1) content).
Proof.
  intros. unfold rewrite.
  apply (rules_commute quoted_starts); auto using quoted_tame, quoted_apart.
Qed.

End QuotedFamily.

(** ** The order of the dictionary *)

Section Orders.
Import Walk Spec App.

Lemma fold_commute {A B : Type} (F : A -> string -> string)
    (G : B -> string -> string) (la : list A) (lb : list B) :
  (forall a b c, In a la -> In b lb -> F a (G b c) = G b (F a c)) ->
  forall c,
  fold_left (fun c a => F a c) la (fold_left (fun c b => G b c) lb c) =
  fold_left (fun c b => G b c) lb (fold_left (fun c a => F a c) la c).
Proof.
  intros H.
  assert (H1 : forall a, In a la -> forall lb', incl lb' lb -> forall c,
    F a (fold_left (fun c b => G b c) lb' c)
    = fold_left (fun c b => G b c) lb' (F a c)).
  { intros a Ha lb'. induction lb' as [|b lb' IH]; intros Hi c; simpl;
      [reflexivity|].
    rewrite IH, H; auto.
    - apply Hi. now left.
    - intros x Hx. apply Hi. now right. }
  induction la as [|a la IH]; intros c; simpl; [reflexivity|].
  rewrite H1; [|now left|apply incl_refl].
  apply IH.
  - intros a' b c' Ha' Hb. apply H; auto. now right.
  - intros a' Ha'. apply H1. now right.
Qed.

Lemma rewrite_one_commute (K1 T1 K2 T2 c : string) :
  ident K1 -> ident T1 -> ident K2 -> ident T2 ->
  K1 <> K2 -> T1 <> K2 -> T2 <> K1 ->
  rewrite_one K1 T1 (rewrite_one K2 T2 c) =
  rewrite_one K2 T2 (rewrite_one K1 T1 c).
Proof.
  intros. unfold rewrite_one.
  apply (fold_commute (fun a => rewrite (quoted_rule a K1 T1))
                      (fun a => rewrite (quoted_rule a K2 T2))).
  intros a b c' Ha Hb. now apply quoted_rules_commute.
Qed.

Lemma rewrite_one_css_commute (K1 T1 K2 T2 c : string) :
  ident K1 -> ident T1 -> ident K2 -> ident T2 ->
  K1 <> K2 -> T1 <> K2 -> T2 <> K1 ->
  rewrite_one_css K1 T1 (rewrite_one_css K2 T2 c) =
  rewrite_one_css K2 T2 (rewrite_one_css K1 T1 c).
Proof.
  intros.
  apply (fold_commute (fun m => rewrite (css_rule m K1 T1))
                      (fun m => rewrite (css_rule m K2 T2))
                      ["."%char; "#"%char] ["."%char; "#"%char]).
  intros a b c' Ha Hb. apply css_rules_commute; auto.
  - destruct Ha as [<-|[<-|[]]]; reflexivity.
  - destruct Hb as [<-|[<-|[]]]; reflexivity.
Qed.

Lemma independent_perm (l l' : list (string * string)) :
  l ≡ₚ l' -> independent l -> independent l'.
Proof.
  intros Hp (H1 & H2 & H3). split; [|split].
  - now rewrite <- Hp.
  - now rewrite <- Hp.
  - intros kv kv'. rewrite <- !Hp. apply H3.
Qed.

Lemma independent_tail (x : string * string) (l : list (string * string)) :
  independent (x :: l) -> independent l.
Proof.
  intros (H1 & H2 & H3). split; [|split].
  - now apply NoDup_cons in H1 as [_ H1].
  - now inversion H2.
  - intros kv kv' Hk Hk'. apply H3; now right.
Qed.

Lemma fold_independent_perm (step : string -> string -> string -> string) :
  (forall K1 T1 K2 T2 c,
     ident K1 -> ident T1 -> ident K2 -> ident T2 ->
     K1 <> K2 -> T1 <> K2 -> T2 <> K1 ->
     step K1 T1 (step K2 T2 c) = step K2 T2 (step K1 T1 c)) ->
  forall l l', l ≡ₚ l' -> independent l ->
  forall c,
  fold_left (fun c kv => step (fst kv) (snd kv) c) l c =
  fold_left (fun c kv => step (fst kv) (snd kv) c) l' c.
Proof.
  intros Hstep l l' Hp. induction Hp as [|x l l' Hp IH|x y l|l l' l'' Hp1 IH1 Hp2 IH2];
    intros Hi c.
  - reflexivity.
  - simpl. apply IH. now apply independent_tail in Hi.
  - simpl. f_equal. destruct Hi as (H1 & H2 & H3).
    inversion H2 as [|? ? [Hy1 Hy2] H2']; subst.
    inversion H2' as [|? ? [Hx1 Hx2] _]; subst.
    apply Hstep; auto.
    + simpl in H1. apply NoDup_cons in H1 as [H1 _].
      intros E. apply H1. rewrite E. now left.
    + apply H3; [now right; left|now left].
    + apply H3; [now left|now right; left].
  - rewrite IH1 by assumption. apply IH2. now apply (independent_perm l).
Qed.

Lemma rewrite_all_perm (l l' : list (string * string)) (c : string) :
  l ≡ₚ l' -> independent l -> rewrite_all l c = rewrite_all l' c.
Proof.
  intros Hp Hi. unfold rewrite_all.
  apply (fold_independent_perm rewrite_one); auto.
  intros. now apply rewrite_one_commute.
Qed.

Lemma rewrite_all_css_perm (l l' : list (string * string)) (c : string) :
  l ≡ₚ l' -> independent l -> rewrite_all_css l c = rewrite_all_css l' c.
Proof.
  intros Hp Hi. unfold rewrite_all_css.
  apply (fold_independent_perm rewrite_one_css); auto.
  intros. now apply rewrite_one_css_commute.
Qed.

Lemma independent_plain (l : list (string * string)) :
  independent l -> plain_tokens l.
Proof.
  intros (_ & H & _). unfold plain_tokens.
  eapply Forall_impl; [exact H|]. intros kv [_ Hk]. now apply ident_plain.
Qed.

End Orders.

(** ** What the scanners find *)

Section Scanning.
Import Re Walk Spec App.

Lemma span_run (c : ascii -> bool) (x r : string) :
  all_chars c x = true -> c_stop c r ->
  span c (x +:+ r) = (x, r).
Proof.
  intros Hx Hr. induction x as [|a x IH]; cbn [String.append span].
  - destruct r as [|d r]; [reflexivity|]. simpl in Hr. cbn [span].
    now rewrite Hr.
  - simpl in Hx. apply andb_true_iff in Hx as [-> Hx]. now rewrite IH.
Qed.

Lemma hits_walk_inv {A : Type} (h : rule A) (a : A) (s : string) :
  forall k p, In a (hits (walk h k p s)) ->
  exists u v p' n, s = u +:+ v /\ h p' v = Some (a, n).
Proof.
  induction s as [|c t IH]; intros k p; cbn [walk]; [contradiction|].
  assert (Htail : forall k' p', In a (hits (walk h k' p' t)) ->
    exists u v p'' n, String c t = u +:+ v /\ h p'' v = Some (a, n)).
  { intros k' p' H. destruct (IH _ _ H) as (u & v & p'' & n & -> & E).
    exists (String c u), v, p'', n. auto. }
  destruct k as [|k]; [|apply Htail].
  destruct (h p (String c t)) as [[b n]|] eqn:E; cbn [hits In].
  - intros [<-|H]; [|now apply Htail in H].
    exists "", (String c t), p, n. auto.
  - apply Htail.
Qed.

(** The walk reaches a position when every occurrence that begins before
    it also ends before it. *)
Lemma walk_reach {A : Type} (h : rule A) (s : string) :
  forall (pre : string) (k : nat) (p : option ascii),
  (forall u v a n, pre = u +:+ v -> v <> EmptyString ->
     h (last_opt p u) (v +:+ s) = Some (a, n) -> n <= String.length v) ->
  k <= String.length pre ->
  exists l, walk h k p (pre +:+ s) = l ++ walk h 0 (last_opt p pre) s.
Proof.
  induction pre as [|c pre IH]; intros k p H Hk.
  - cbn in Hk. assert (k = 0) as -> by lia. now exists nil.
  - assert (Htail : forall k', k' <= String.length pre ->
      exists l, walk h k' (Some c) (pre +:+ s)
                = l ++ walk h 0 (last_opt (Some c) pre) s).
    { intros k' Hk'. apply IH; [|assumption].
      intros u v a n -> Hv E. apply (H (String c u) v a n); auto. }
    cbn [String.append walk last_opt]. destruct k as [|k].
    + destruct (h p (String c (pre +:+ s))) as [[a n]|] eqn:E.
      * pose proof (H "" (String c pre) a n eq_refl ltac:(discriminate) E) as Hn.
        cbn in Hn. destruct (Htail (n - 1) ltac:(lia)) as [l ->].
        now exists (Hit a :: l).
      * destruct (Htail 0 ltac:(lia)) as [l ->]. now exists (Keep c :: l).
    + cbn in Hk. apply Htail. lia.
Qed.

Lemma hits_app {A : Type} (l1 l2 : list (piece A)) :
  hits (l1 ++ l2) = hits l1 ++ hits l2.
Proof.
  induction l1 as [|[c|a] l1 IH]; simpl; [reflexivity|assumption|].
  now rewrite IH.
Qed.

Lemma sep_not_ident (d : ascii) : css_sep d = true -> css_ident_char d = false.
Proof.
  destruct d as [[] [] [] [] [] [] [] []]; vm_compute; intros H;
    try discriminate H; reflexivity.
Qed.

Lemma css_capture_rule_inv (m : ascii) (p : option ascii) (s x dd : string)
    (n : nat) :
  css_capture_rule m p s = Some ((x, dd), n) ->
  exists d r, s = String m (x +:+ String d r) /\ x <> EmptyString /\
              ident x /\ css_sep d = true /\ dd = String d EmptyString /\
              n = String.length x + 2.
Proof.
  unfold css_capture_rule. destruct s as [|m' s1]; [discriminate|].
  destruct (Ascii.eqb m m') eqn:Em; [|discriminate].
  apply Ascii.eqb_eq in Em as <-.
  destruct (span css_ident_char s1) as [x' [|d r]] eqn:Es; [discriminate|].
  destruct (is_nil x') eqn:Hx; [discriminate|]. cbn [negb andb].
  destruct (css_sep d) eqn:Hd; [|discriminate]. intros [= <- <- <-].
  exists d, r. rewrite (span_app _ _ _ _ Es). repeat split; auto.
  - destruct x'; [discriminate|congruence].
  - exact (span_all _ _ _ _ Es).
Qed.

Lemma css_capture_rule_hit (m : ascii) (p : option ascii) (x r : string)
    (d : ascii) :
  x <> EmptyString -> ident x -> css_sep d = true ->
  css_capture_rule m p (String m (x +:+ String d r)) =
  Some ((x, String d EmptyString), String.length x + 2).
Proof.
  intros Hx Hi Hd. unfold css_capture_rule. rewrite Ascii.eqb_refl.
  rewrite (span_run css_ident_char x (String d r) Hi (sep_not_ident d Hd)).
  rewrite Hd. destruct x; [congruence|reflexivity].
Qed.

(** The CSS scanner finds [x] behind the marker exactly when the text holds
    the marker, [x] made of identifier characters, and a separator. *)
Lemma css_found_iff (m : ascii) (content x : string) :
  css_marker m = true ->
  x ∈ css_found m content <->
  exists pre d post,
    content = pre +:+ String m (x +:+ String d post) /\
    x <> EmptyString /\ ident x /\ css_sep d = true.
Proof.
  intros Hm. unfold css_found, captures.
  rewrite elem_of_map. split.
  - intros ([x' dd] & -> & Hin). apply elem_of_list_to_set in Hin.
    apply list_elem_of_In, hits_walk_inv in Hin
      as (u & v & p' & n & -> & E).
    apply css_capture_rule_inv in E as (d & r & -> & Hx & Hi & Hd & _).
    exists u, d, r. auto.
  - intros (pre & d & post & -> & Hx & Hi & Hd).
    exists (x, String d ""). split; [reflexivity|].
    apply elem_of_list_to_set, list_elem_of_In.
    destruct (walk_reach (css_capture_rule m)
                (String m (x +:+ String d post)) pre 0 None) as [l ->];
      [|lia|].
    + intros u v [x' dd] n -> Hv E.
      apply css_capture_rule_inv in E as (d' & r' & E & Hx' & Hi' & Hd' & _ & ->).
      change (String m (x' +:+ String d' r'))
        with (String m x' +:+ String d' r') in E.
      rewrite <- (snoc_app (String m x') r' d') in E.
      apply app_eq_app in E as [(w & E1 & E2)|(w & Hw & -> & _)].
      * destruct w as [|c w].
        -- rewrite sapp_nil_r in E1. rewrite <- E1.
           rewrite slength_app. simpl. lia.
        -- exfalso.
           destruct (css_shaped m d' x' Hm Hi' Hd') as (_ & Hs & _).
           apply (Hs v (String c w) r' E1 Hv ltac:(discriminate)).
           rewrite <- E2. exists m, (x +:+ String d post). auto.
      * rewrite !slength_app. simpl. lia.
    + rewrite hits_app. apply in_or_app. right.
      cbn [walk]. rewrite css_capture_rule_hit by assumption.
      now left.
Qed.

Lemma after_opening_inv (a : anchor) (p : option ascii) (s s1 : string) :
  after_opening a p s = Some s1 ->
  exists q1 dc, quote q1 = true /\ dot_part a dc /\
                s = opener a +:+ String q1 (dc +:+ s1) /\
                (bounded a = true -> word_opt p = false).
Proof.
  unfold after_opening, pop, dot_part.
  destruct (bounded a && word_opt p) eqn:Hb; [discriminate|].
  assert (Hbw : bounded a = true -> word_opt p = false).
  { intros Hba. rewrite Hba in Hb. exact Hb. }
  destruct (strip (opener a) s) as [[|q1 s0]|] eqn:Eo; try discriminate.
  destruct (quote q1) eqn:Hq1; [|discriminate].
  apply strip_inv in Eo. subst s. destruct (dotted a).
  - destruct s0 as [|c s0]; [discriminate|]. cbn [option_map snd].
    destruct (any_char c) eqn:Hc; [|discriminate]. intros [= <-].
    exists q1, (String c ""). repeat split; eauto.
  - intros [= <-]. exists q1, "". repeat split; auto.
Qed.

Lemma after_opening_hit (a : anchor) (p : option ascii) (q1 : ascii)
    (dc s1 : string) :
  quote q1 = true -> dot_part a dc ->
  (bounded a = true -> word_opt p = false) ->
  after_opening a p (opener a +:+ String q1 (dc +:+ s1)) = Some s1.
Proof.
  intros Hq1 Hd Hb. unfold after_opening, pop, dot_part in *.
  assert (Hbw : bounded a && word_opt p = false).
  { destruct (bounded a); [now rewrite Hb|reflexivity]. }
  rewrite Hbw, strip_app, Hq1. destruct (dotted a).
  - destruct Hd as (c & -> & Hc). cbn [String.append option_map snd].
    now rewrite Hc.
  - now subst dc.
Qed.

Lemma closing_inv (a : anchor) (s r : string) :
  closing a s = Some r ->
  exists q2, quote q2 = true /\ s = String q2 (closer a +:+ r).
Proof.
  unfold closing, pop, closer. destruct s as [|q2 s]; [discriminate|].
  destruct (quote q2) eqn:Hq2; [|discriminate]. destruct (closed a).
  - intros H. apply strip_inv in H. subst s. now exists q2.
  - intros [= <-]. now exists q2.
Qed.

Lemma closing_hit (a : anchor) (q2 : ascii) (r : string) :
  quote q2 = true -> closing a (String q2 (closer a +:+ r)) = Some r.
Proof.
  intros Hq2. unfold closing, pop, closer. rewrite Hq2.
  destruct (closed a); [apply strip_app|reflexivity].
Qed.

Lemma shaped_app (a : anchor) (q1 q2 : ascii) (dc K r : string) :
  shaped a q1 dc K q2 +:+ r
  = opener a +:+ String q1 (dc +:+ K +:+ String q2 (closer a +:+ r)).
Proof. unfold shaped. now norm_strings. Qed.

Lemma capture_rule_inv (a : anchor) (p : option ascii) (s x : string) (n : nat) :
  capture_rule a p s = Some (x, n) ->
  exists q1 dc q2 r,
    quote q1 = true /\ quote q2 = true /\ dot_part a dc /\
    x <> EmptyString /\ all_chars not_quote x = true /\
    s = shaped a q1 dc x q2 +:+ r /\
    n = String.length (shaped a q1 dc x q2) /\
    (bounded a = true -> word_opt p = false).
Proof.
  unfold capture_rule.
  destruct (after_opening a p s) as [s1|] eqn:Eo; [|discriminate].
  apply after_opening_inv in Eo as (q1 & dc & Hq1 & Hd & -> & Hb).
  destruct (span not_quote s1) as [x' s2] eqn:Es.
  destruct (is_nil x') eqn:Hx; [discriminate|].
  destruct (closing a s2) as [r|] eqn:Ec; [|discriminate].
  apply closing_inv in Ec as (q2 & Hq2 & ->). intros [= <- <-].
  pose proof (span_all _ _ _ _ Es) as Hall. apply span_app in Es. subst s1.
  exists q1, dc, q2, r. repeat split; auto.
  - destruct x'; [discriminate|congruence].
  - now rewrite shaped_app.
  - rewrite <- shaped_app, slength_app. lia.
Qed.

Lemma capture_rule_hit (a : anchor) (p : option ascii) (q1 q2 : ascii)
    (dc x r : string) :
  quote q1 = true -> quote q2 = true -> dot_part a dc ->
  x <> EmptyString -> all_chars not_quote x = true ->
  (bounded a = true -> word_opt p = false) ->
  capture_rule a p (shaped a q1 dc x q2 +:+ r) =
  Some (x, String.length (shaped a q1 dc x q2)).
Proof.
  intros Hq1 Hq2 Hd Hx Hall Hb. unfold capture_rule.
  rewrite shaped_app, after_opening_hit by assumption.
  rewrite (span_run not_quote x (String q2 (closer a +:+ r)) Hall).
  2:{ simpl. unfold not_quote. now rewrite Hq2. }
  rewrite closing_hit by assumption.
  destruct x; [congruence|]. cbn [is_nil]. do 2 f_equal.
  rewrite <- shaped_app, slength_app. lia.
Qed.

End Scanning.

(** ** An occurrence in its context *)

Section InContext.
Import Re Walk Spec App.

Lemma walk_word' {A : Type} (h : rule A) (p p' : option ascii) (s : string) :
  (forall s', h p s' = h p' s') -> walk h 0 p s = walk h 0 p' s.
Proof.
  intros E. destruct s as [|c t]; [reflexivity|]. cbn [walk]. now rewrite E.
Qed.

Lemma quoted_word (a : anchor) (K T : string) (p p' : option ascii) (s : string) :
  word_opt p = word_opt p' -> quoted_rule a K T p s = quoted_rule a K T p' s.
Proof. intros E. unfold quoted_rule, after_opening. now rewrite E. Qed.

Lemma capture_word (a : anchor) (p p' : option ascii) (s : string) :
  word_opt p = word_opt p' -> capture_rule a p s = capture_rule a p' s.
Proof. intros E. unfold capture_rule, after_opening. now rewrite E. Qed.

Lemma shaped_last (a : anchor) (q1 q2 : ascii) (dc K : string)
    (p : option ascii) :
  quote q2 = true -> word_opt (last_opt p (shaped a q1 dc K q2)) = false.
Proof.
  intros Hq2. unfold shaped, closer. rewrite last_opt_app. cbn [last_opt].
  rewrite !last_opt_app. cbn [last_opt].
  destruct (closed a); cbn [last_opt word_opt]; [reflexivity|].
  now destruct (quote_char_facts q2 Hq2).
Qed.

Lemma app_self (w o : string) : o = w +:+ o -> w = EmptyString.
Proof.
  intros E. apply (f_equal String.length) in E. rewrite slength_app in E.
  destruct w; [reflexivity|simpl in E; lia].
Qed.

(** Shapes that begin at two places of one text begin with openers of
    which one ends with the other. *)
Lemma shaped_in_pre (a a0 : anchor) (q1 q2 q1' q2' : ascii)
    (dc dc' X Y w post r : string) :
  all_chars not_quote (opener a) = true ->
  all_chars not_quote (opener a0) = true ->
  all_chars not_quote w = true ->
  quote q1 = true -> quote q1' = true ->
  w +:+ shaped a0 q1 dc X q2 +:+ post = shaped a q1' dc' Y q2' +:+ r ->
  opener a = w +:+ opener a0.
Proof.
  intros Ho Ho0 Hw Hq1 Hq1' E. rewrite !shaped_app, <- sapp_assoc in E.
  assert (Hwo : all_chars (fun c => negb (quote c)) (w +:+ opener a0) = true).
  { change (fun c => negb (quote c)) with not_quote.
    rewrite all_chars_app. now rewrite Hw, Ho0. }
  symmetry.
  now destruct (split_unique quote _ _ _ _ _ _ Hwo Ho Hq1 Hq1' E).
Qed.

Lemma capture_in_context (a : anchor) (pre post : string) (q1 q2 : ascii)
    (dc x : string) :
  bounded a = false ->
  all_chars not_quote (opener a) = true ->
  all_chars not_quote pre = true ->
  quote q1 = true -> quote q2 = true -> dot_part a dc ->
  x <> EmptyString -> all_chars not_quote x = true ->
  In x (captures (capture_rule a) (pre +:+ shaped a q1 dc x q2 +:+ post)).
Proof.
  intros Hb Ho Hpre Hq1 Hq2 Hd Hx Hall. unfold captures.
  rewrite walk_keep_through.
  - rewrite hits_app. apply in_or_app. right.
    rewrite (walk_at_hit _ (shaped a q1 dc x q2) post _ x).
    + now left.
    + unfold shaped. destruct (opener a); discriminate.
    + apply capture_rule_hit; auto; now rewrite Hb.
  - intros u w p' -> Hw.
    destruct (capture_rule a p' _) as [[y n]|] eqn:E; [exfalso|reflexivity].
    apply capture_rule_inv in E
      as (q1' & dc' & q2' & r & Hq1' & Hq2' & Hd' & _ & _ & E & _).
    rewrite all_chars_app in Hpre. apply andb_true_iff in Hpre as [_ Hpre].
    apply shaped_in_pre in E; auto. apply app_self in E. congruence.
Qed.

Section Passing.
Variables a a0 : anchor.
Variables K T X pre post dc : string.
Variables q1 q2 : ascii.
Hypothesis Ha : In a rewrite_anchors.
Hypothesis Ha0 : In a0 rewrite_anchors.
Hypothesis Hpre : all_chars not_quote pre = true.
Hypothesis Hq1 : quote q1 = true.
Hypothesis Hq2 : quote q2 = true.
Hypothesis Hd : dot_part a0 dc.

Lemma quoted_none_in_pre (u w : string) (p' : option ascii) :
  pre = u +:+ w -> w <> EmptyString ->
  quoted_rule a K T p' (w +:+ shaped a0 q1 dc X q2 +:+ post) = None.
Proof.
  intros E Hw.
  destruct (quoted_rule a K T p' _) as [[rep n]|] eqn:Eh; [exfalso|reflexivity].
  apply quoted_rule_inv in Eh
    as (q1' & dc' & q2' & r & Hq1' & Hq2' & Hd' & Eh & _).
  destruct (opener_facts a Ha) as (Ho & _).
  destruct (opener_facts a0 Ha0) as (Ho0 & _).
  rewrite E, all_chars_app in Hpre. apply andb_true_iff in Hpre as [_ Hw'].
  apply shaped_in_pre in Eh; auto.
  now destruct (opener_suffix a a0 w Ha Ha0 Eh).
Qed.

Lemma quoted_none_at_other (p' : option ascii) :
  a <> a0 ->
  quoted_rule a K T p' (shaped a0 q1 dc X q2 +:+ post) = None.
Proof.
  intros Hne.
  destruct (quoted_rule a K T p' _) as [[rep n]|] eqn:Eh; [exfalso|reflexivity].
  apply quoted_rule_inv in Eh
    as (q1' & dc' & q2' & r & Hq1' & Hq2' & Hd' & Eh & _).
  destruct (opener_facts a Ha) as (Ho & _).
  destruct (opener_facts a0 Ha0) as (Ho0 & _).
  apply (shaped_in_pre a a0 q1 q2 q1' q2' dc dc' X K "" post r) in Eh; auto.
  now destruct (opener_suffix a a0 "" Ha Ha0 Eh).
Qed.

Lemma quoted_none_inside (u v : string) (p' : option ascii) :
  ident X -> shaped a0 q1 dc X q2 = u +:+ v ->
  u <> EmptyString -> v <> EmptyString ->
  quoted_rule a K T p' (v +:+ post) = None.
Proof.
  intros HX E Hu Hv.
  destruct (quoted_rule a K T p' _) as [[rep n]|] eqn:Eh; [exfalso|reflexivity].
  apply quoted_rule_inv in Eh
    as (q1' & dc' & q2' & r & Hq1' & Hq2' & Hd' & Eh & _).
  apply (solid_shaped a0 q1 q2 dc X Ha0 Hq1 Hq2 Hd HX u v post E Hu Hv).
  rewrite Eh, shaped_app. exists a, q1'. eauto.
Qed.

(** Another anchor's rule passes over the occurrence. *)
Lemma quoted_pass :
  a <> a0 -> ident X ->
  rewrite (quoted_rule a K T) (pre +:+ shaped a0 q1 dc X q2 +:+ post) =
  pre +:+ shaped a0 q1 dc X q2 +:+ rewrite (quoted_rule a K T) post.
Proof.
  intros Hne HX. unfold rewrite, rewrite_from.
  rewrite <- !sapp_assoc, walk_keep_through, render_keep_all.
  - f_equal. f_equal. apply walk_word'. intros s'. apply quoted_word.
    rewrite last_opt_app. now rewrite shaped_last.
  - intros u v p' E Hv.
    apply app_eq_app in E as [(w & -> & E)|(w & Hw & E & ->)].
    + destruct w as [|c w].
      * cbn [String.append] in E. subst v. now apply quoted_none_at_other.
      * apply (quoted_none_inside (String c w) v p' HX E);
          [discriminate|assumption].
    + rewrite sapp_assoc. now apply (quoted_none_in_pre u w).
Qed.

End Passing.

(** The anchor's own rule rewrites the occurrence. *)
Lemma quoted_replace (a0 : anchor) (X T pre post dc : string) (q1 q2 : ascii) :
  In a0 rewrite_anchors -> all_chars not_quote pre = true ->
  quote q1 = true -> quote q2 = true -> dot_part a0 dc ->
  (bounded a0 = true -> word_opt (last_opt None pre) = false) ->
  rewrite (quoted_rule a0 X T) (pre +:+ shaped a0 q1 dc X q2 +:+ post) =
  pre +:+ emitted a0 T +:+ rewrite (quoted_rule a0 X T) post.
Proof.
  intros Ha0 Hpre Hq1 Hq2 Hd Hb. unfold rewrite, rewrite_from.
  rewrite walk_keep_through, render_keep_all.
  - f_equal.
    rewrite (walk_at_hit _ (shaped a0 q1 dc X q2) post _ (emitted a0 T)).
    + cbn [render]. f_equal. f_equal. apply walk_word'. intros s'.
      apply quoted_word. now rewrite shaped_last.
    + unfold shaped. destruct (opener a0); discriminate.
    + now apply quoted_rule_hit.
  - intros u w p' E Hw. eapply quoted_none_in_pre; eauto.
Qed.


Ltac context_side :=
  first [ assumption | reflexivity | apply dot_part_emitted
        | (cbn [rewrite_anchors In]; tauto) | discriminate
        | (intros; discriminate) ].

(** One turn of the rewriter on a text with an occurrence of the identifier
    behind a text without quotes: the occurrence is written anew, with
    double quotes, and the text behind it is rewritten as it would be
    alone. *)
Lemma occurrence_in_context (a0 : anchor) (x t pre post dc : string)
    (q1 q2 : ascii) :
  In a0 rewrite_anchors -> all_chars not_quote pre = true ->
  quote q1 = true -> quote q2 = true -> dot_part a0 dc ->
  ident x -> ident t ->
  (bounded a0 = true -> word_opt (last_opt None pre) = false) ->
  rewrite_one x t (pre +:+ shaped a0 q1 dc x q2 +:+ post) =
  pre +:+ emitted a0 t +:+ rewrite_one x t post.
Proof.
  intros Ha0 Hpre Hq1 Hq2 Hd Hx Ht Hb.
  unfold rewrite_one, rewrite_anchors. cbn [fold_left].
  each_anchor Ha0;
    repeat first
      [ rewrite quoted_replace by context_side; rewrite emitted_shaped
      | rewrite quoted_pass by context_side ];
    reflexivity.
Qed.

End InContext.

(** ** A text with a single quoted value *)

Section SingleValue.
Import Re Walk Spec App.

Lemma no_quote_in (x y : string) (q : ascii) :
  all_chars not_quote (x +:+ String q y) = true -> quote q = true -> False.
Proof.
  rewrite all_chars_app. intros [_ H]%andb_true_iff Hq. simpl in H.
  unfold not_quote in H. rewrite Hq in H. discriminate.
Qed.

Lemma opener_not_quote (a : anchor) (q : ascii) (x y : string) :
  all_chars not_quote (opener a) = true -> opener a <> EmptyString ->
  quote q = true -> String q x = opener a +:+ y -> False.
Proof.
  intros Ho Ho0 Hq E. destruct (opener a) as [|c0 o0]; [congruence|].
  cbn [String.append all_chars] in *. injection E as <- _.
  unfold not_quote in Ho. now rewrite Hq in Ho.
Qed.

(** In a text whose only quotes are those around [v], a shape can only lie
    with its opener right before the first quote, around [v]. *)
Lemma single_value_shape (A v post : string) (q1 q2 : ascii)
    (a : anchor) (u r y dc : string) (qa qb : ascii) :
  all_chars not_quote A = true -> all_chars not_quote v = true ->
  v <> EmptyString -> all_chars not_quote post = true ->
  quote q1 = true -> quote q2 = true ->
  all_chars not_quote (opener a) = true -> opener a <> EmptyString ->
  quote qa = true -> quote qb = true -> dot_part a dc ->
  all_chars not_quote y = true ->
  A +:+ String q1 (v +:+ String q2 post) = u +:+ shaped a qa dc y qb +:+ r ->
  A = u +:+ opener a /\ v = dc +:+ y.
Proof.
  intros HA Hv Hv0 Hpost Hq1 Hq2 Ho Ho0 Hqa Hqb Hd Hy E.
  rewrite shaped_app in E.
  apply app_eq_app in E as [(w & -> & E)|(w & Hw & -> & E)].
  - exfalso. destruct w as [|c w]; cbn [String.append] in E.
    + now apply (opener_not_quote a q1 _ _ Ho Ho0 Hq1 E).
    + injection E as _ E.
      apply app_eq_app in E as [(w2 & -> & E)|(w2 & Hw2 & -> & E)].
      * destruct w2 as [|c2 w2]; cbn [String.append] in E.
        -- now apply (opener_not_quote a q2 _ _ Ho Ho0 Hq2 E).
        -- injection E as _ E. rewrite E, <- sapp_assoc in Hpost.
           eapply no_quote_in; eauto.
      * rewrite all_chars_app in Hv. apply andb_true_iff in Hv as [_ Hw2'].
        symmetry in E.
        destruct (split_unique quote _ _ _ _ _ _ Hw2' Ho Hq2 Hqa E)
          as (_ & _ & E').
        rewrite E', <- sapp_assoc in Hpost. eapply no_quote_in; eauto.
  - rewrite all_chars_app in HA. apply andb_true_iff in HA as [_ Hw'].
    symmetry in E.
    destruct (split_unique quote _ _ _ _ _ _ Hw' Ho Hq1 Hqa E)
      as (-> & _ & E').
    split; [reflexivity|]. unfold dot_part in Hd. destruct (dotted a).
    + destruct Hd as (c & -> & _). cbn [String.append] in *.
      destruct v as [|c' v']; [congruence|]. cbn [String.append] in E'.
      injection E' as -> E'. cbn [all_chars] in Hv.
      apply andb_true_iff in Hv as [_ Hv'].
      now destruct (split_unique quote _ _ _ _ _ _ Hv' Hy Hq2 Hqb E') as (-> & _).
    + subst dc. cbn [String.append] in *.
      now destruct (split_unique quote _ _ _ _ _ _ Hv Hy Hq2 Hqb E') as (-> & _).
Qed.

Lemma single_value_capture (A v post : string) (q1 q2 : ascii)
    (a : anchor) (x : string) :
  all_chars not_quote A = true -> all_chars not_quote v = true ->
  v <> EmptyString -> all_chars not_quote post = true ->
  quote q1 = true -> quote q2 = true ->
  all_chars not_quote (opener a) = true -> opener a <> EmptyString ->
  In x (captures (capture_rule a) (A +:+ String q1 (v +:+ String q2 post))) ->
  exists u dc, dot_part a dc /\ A = u +:+ opener a /\ v = dc +:+ x.
Proof.
  intros HA Hv Hv0 Hpost Hq1 Hq2 Ho Ho0 Hin. unfold captures in Hin.
  apply hits_walk_inv in Hin as (u & t & p' & n & E & Eh).
  apply capture_rule_inv in Eh
    as (qa & dc & qb & r & Hqa & Hqb & Hd & _ & Hx & -> & _).
  destruct (single_value_shape A v post q1 q2 a u r x dc qa qb
              HA Hv Hv0 Hpost Hq1 Hq2 Ho Ho0 Hqa Hqb Hd Hx E)
    as [E1 E2].
  eauto.
Qed.

End SingleValue.

Section ClassValue.
Import Re Walk Spec App.

Lemma app_inv_tail (a b c : string) : a +:+ c = b +:+ c -> a = b.
Proof.
  intros E. destruct (app_eq_app _ _ _ _ E) as [(w & -> & E')|(w & Hw & -> & E')].
  - apply app_self in E'. subst w. now rewrite sapp_nil_r.
  - apply app_self in E'. congruence.
Qed.

Lemma class_suffix (a : anchor) (pre u : string) :
  In a (class_anchors ++ id_anchors) ->
  pre +:+ "class=" = u +:+ opener a ->
  a = Anchor false "class=" false false /\ u = pre.
Proof.
  intros Ha E.
  apply app_eq_app in E as [(w & -> & E)|(w & Hw & -> & E)].
  - symmetry in E. pose proof (suffix_inv _ _ _ E) as Ew.
    unfold class_anchors, id_anchors in Ha. cbn [app In] in Ha.
    repeat (destruct Ha as [<-|Ha]); try contradiction; cbn [opener] in *;
      vm_compute in Ew; subst w; try discriminate E.
    split; [reflexivity|]. now rewrite sapp_nil_r.
  - exfalso. symmetry in E. pose proof (suffix_inv _ _ _ E) as Ew.
    unfold class_anchors, id_anchors in Ha. cbn [app In] in Ha.
    repeat (destruct Ha as [<-|Ha]); try contradiction; cbn [opener] in *;
      vm_compute in Ew; subst w; try discriminate E; congruence.
Qed.

Lemma scanner_opener (a : anchor) :
  In a (class_anchors ++ id_anchors) ->
  all_chars not_quote (opener a) = true /\ opener a <> EmptyString /\
  bounded a = false.
Proof.
  intros Ha. unfold class_anchors, id_anchors in Ha. cbn [app In] in Ha.
  repeat (destruct Ha as [<-|Ha]); try contradiction;
    (split; [reflexivity|split; [discriminate|reflexivity]]).
Qed.

Lemma elem_of_found_at (anchors : list anchor) (content x : string) :
  x ∈ found_at anchors content <->
  exists a, In a anchors /\ In x (captures (capture_rule a) content).
Proof.
  unfold found_at. rewrite elem_of_union_list. split.
  - intros (X & HX & Hx). apply list_elem_of_In in HX.
    apply in_map_iff in HX as (a & <- & Ha).
    exists a. split; [assumption|].
    apply list_elem_of_In. now apply elem_of_list_to_set in Hx.
  - intros (a & Ha & Hx).
    exists (list_to_set (captures (capture_rule a) content)). split.
    + apply list_elem_of_In. apply in_map_iff. now exists a.
    + apply elem_of_list_to_set. now apply list_elem_of_In.
Qed.

(** A text whose only quotes are those of one [class] attribute: the
    scanner finds the whole value, and nothing else. *)
Lemma class_value_alone (pre v post : string) (q1 q2 : ascii) :
  all_chars not_quote pre = true -> all_chars not_quote v = true ->
  v <> EmptyString -> all_chars not_quote post = true ->
  quote q1 = true -> quote q2 = true ->
  find_classnames_ids (pre +:+ "class=" +:+ String q1 (v +:+ String q2 post))
  = ({[ v ]}, ∅).
Proof.
  intros Hpre Hv Hv0 Hpost Hq1 Hq2. rewrite find_classnames_ids_found.
  assert (HA : all_chars not_quote (pre +:+ "class=") = true)
    by (rewrite all_chars_app, Hpre; reflexivity).
  assert (Hall : forall a x, In a (class_anchors ++ id_anchors) ->
    In x (captures (capture_rule a)
            ((pre +:+ "class=") +:+ String q1 (v +:+ String q2 post))) ->
    a = Anchor false "class=" false false /\ x = v).
  { intros a x Ha Hin. destruct (scanner_opener a Ha) as (Ho & Ho0 & _).
    destruct (single_value_capture _ v post q1 q2 a x
                HA Hv Hv0 Hpost Hq1 Hq2 Ho Ho0 Hin) as (u & dc & Hd & E1 & E2).
    destruct (class_suffix a pre u Ha E1) as [-> ->].
    split; [reflexivity|]. unfold dot_part in Hd. cbn in Hd. now subst dc. }
  rewrite <- sapp_assoc. f_equal; apply set_eq; intros x;
    rewrite elem_of_found_at.
  - rewrite elem_of_singleton. split.
    + intros (a & Ha & Hin). apply (Hall a x); [|assumption].
      apply in_or_app. now left.
    + intros ->. exists (Anchor false "class=" false false).
      split; [now left|].
      rewrite sapp_assoc.
      change ("class=" +:+ String q1 (v +:+ String q2 post))
        with (opener (Anchor false "class=" false false)
              +:+ String q1 ("" +:+ v +:+ String q2
                    (closer (Anchor false "class=" false false) +:+ post))).
      rewrite <- shaped_app. now apply capture_in_context.
  - rewrite elem_of_empty. split; [|contradiction].
    intros (a & Ha & Hin).
    assert (Ha' : In a (class_anchors ++ id_anchors))
      by (apply in_or_app; now right).
    destruct (Hall a x Ha' Hin) as [-> _].
    unfold id_anchors in Ha. cbn [In] in Ha.
    destruct Ha as [Ha|[Ha|[]]]; discriminate Ha.
Qed.

End ClassValue.

(** ** An attribute behind a text with quoted values *)

Section Settled.
Import Re Walk Spec App.

Lemma settled_at (a : anchor) (u w v : string) (q : ascii) :
  settled a (u +:+ w) = true -> strip (opener a) w = Some (String q v) ->
  quote q = true -> all_chars not_quote v = false.
Proof.
  intros Hs Hw Hq. induction u as [|c u IH].
  - destruct w as [|c t].
    + destruct (opener a); discriminate.
    + cbn [String.append settled] in Hs. rewrite Hw, Hq in Hs.
      apply andb_true_iff in Hs as [Hs _]. cbn [negb orb] in Hs.
      now apply negb_true_iff.
  - cbn [String.append settled] in Hs. apply andb_true_iff in Hs as [_ Hs].
    auto.
Qed.

Lemma quote_free_settled (a : anchor) (pre : string) :
  all_chars not_quote pre = true -> settled a pre = true.
Proof.
  induction pre as [|c pre IH]; [reflexivity|]. intros H.
  cbn [settled]. apply andb_true_iff. split.
  - destruct (strip (opener a) (String c pre)) as [[|q v]|] eqn:E;
      try reflexivity.
    apply strip_inv in E. rewrite E, all_chars_app in H.
    apply andb_true_iff in H as [_ H]. simpl in H.
    apply andb_true_iff in H as [Hq _]. unfold not_quote in Hq.
    now rewrite Hq.
  - simpl in H. apply andb_true_iff in H as [_ H]. auto.
Qed.

(** The scanner finds the value of an attribute behind a settled text. *)
Lemma capture_after_settled (a : anchor) (pre post x : string) (q1 q2 : ascii) :
  bounded a = false -> dotted a = false -> closed a = false ->
  all_chars not_quote (opener a) = true ->
  settled a pre = true ->
  quote q1 = true -> quote q2 = true ->
  x <> EmptyString -> all_chars not_quote x = true ->
  In x (captures (capture_rule a)
          (pre +:+ opener a +:+ String q1 (x +:+ String q2 post))).
Proof.
  intros Hb Hdot Hcl Ho Hs Hq1 Hq2 Hx Hxq.
  assert (Hd : dot_part a "") by (unfold dot_part; now rewrite Hdot).
  assert (Eshape : forall qa qb y r,
    shaped a qa "" y qb +:+ r = opener a +:+ String qa (y +:+ String qb r)).
  { intros qa qb y r. rewrite shaped_app. unfold closer. now rewrite Hcl. }
  rewrite <- Eshape. unfold captures.
  assert (Hreach : exists l,
    walk (capture_rule a) 0 None (pre +:+ shaped a q1 "" x q2 +:+ post)
    = l ++ walk (capture_rule a) 0 (last_opt None pre)
             (shaped a q1 "" x q2 +:+ post)); [apply walk_reach; [|lia]|].
  - intros u v y n -> Hv E.
    apply capture_rule_inv in E
      as (qa & dc' & qb & r & Hqa & Hqb & Hd' & Hy & Hyq & E & -> & _).
    unfold dot_part in Hd'. rewrite Hdot in Hd'. subst dc'.
    pose proof E as E0. rewrite !Eshape in E.
    apply app_eq_app in E as [(w & Eo & _)|(w & Hw & Ev & Er)].
    + exfalso. pose proof Ho as Hvq. rewrite Eo, all_chars_app in Hvq.
      apply andb_true_iff in Hvq as [Hvq _].
      apply shaped_in_pre in E0; auto.
      apply app_self in E0. contradiction.
    + destruct w as [|c w']; [congruence|]. cbn [String.append] in Er.
      injection Er as <- Er.
      assert (Hw' : all_chars not_quote w' = false).
      { apply (settled_at a u v w' qa); [assumption| |assumption].
        rewrite Ev. apply strip_app. }
      symmetry in Er.
      apply app_eq_app in Er as [(t & Ey & _)|(t & Ht & Et & Er)].
      * rewrite Ey, all_chars_app, Hw' in Hyq. discriminate.
      * destruct t as [|c t']; [congruence|]. cbn [String.append] in Er.
        injection Er as <- _. subst v w'.
        unfold shaped, closer. rewrite Hcl. cbn [String.append].
        rewrite !slength_app. cbn [String.length].
        rewrite !slength_app. cbn [String.length]. lia.
  - destruct Hreach as [l ->]. rewrite hits_app. apply in_or_app. right.
    rewrite (walk_at_hit _ (shaped a q1 "" x q2) post _ x).
    + now left.
    + unfold shaped. destruct (opener a); discriminate.
    + apply capture_rule_hit; auto. now rewrite Hb.
Qed.

(** Every identifier the scanner finds is the whole text between two
    quotes behind an opener (and the extra character of a dotted
    anchor). *)
Lemma found_at_inv (anchors : list anchor) (content x : string) :
  x ∈ found_at anchors content ->
  exists a q1 dc q2 pre post,
    In a anchors /\ quote q1 = true /\ quote q2 = true /\ dot_part a dc /\
    x <> EmptyString /\ all_chars not_quote x = true /\
    content = pre +:+ shaped a q1 dc x q2 +:+ post.
Proof.
  intros H. apply elem_of_found_at in H as (a & Ha & H).
  apply hits_walk_inv in H as (u & v & p' & n & -> & H).
  apply capture_rule_inv in H
    as (q1 & dc & q2 & r & Hq1 & Hq2 & Hd & Hx & Hxq & -> & _).
  exists a, q1, dc, q2, u, r. repeat split; auto.
Qed.

End Settled.

(** ** A CSS selector token in its context *)

Section CssContext.
Import Re Walk Spec App.

Lemma css_rule_none (m : ascii) (K T : string) (p : option ascii) (c : ascii)
    (t : string) :
  Ascii.eqb m c = false -> css_rule m K T p (String c t) = None.
Proof. intros H. unfold css_rule. cbn [strip]. now rewrite H. Qed.

Lemma marker_differs (m c : ascii) :
  css_marker m = true -> css_marker c = false -> Ascii.eqb m c = false.
Proof.
  intros Hm Hc. destruct (Ascii.eqb_spec m c) as [->|]; [congruence|reflexivity].
Qed.

Lemma unmarked_app (a b : string) : unmarked a -> unmarked b -> unmarked (a +:+ b).
Proof.
  unfold unmarked. intros Ha Hb. now rewrite all_chars_app, Ha, Hb.
Qed.

Lemma unmarked_ident (K : string) : ident K -> unmarked K.
Proof.
  apply all_chars_impl. intros c Hc.
  now destruct (ident_char_facts c Hc) as (-> & _).
Qed.

Lemma unmarked_sep (d : ascii) (r : string) :
  css_sep d = true -> unmarked r -> unmarked (String d r).
Proof.
  intros Hd Hr. unfold unmarked. simpl.
  destruct (sep_char_facts d Hd) as (-> & _). exact Hr.
Qed.

(** A rule of the CSS rewriter keeps a text without its marker. *)
Lemma css_keep (m : ascii) (K T x r : string) :
  all_chars (fun c => negb (Ascii.eqb m c)) x = true ->
  rewrite (css_rule m K T) (x +:+ r) = x +:+ rewrite (css_rule m K T) r.
Proof.
  intros Hx. unfold rewrite, rewrite_from.
  rewrite walk_keep_through, render_keep_all.
  - f_equal. f_equal. now apply walk_word'.
  - intros u v p' -> Hv. destruct v as [|c v]; [congruence|].
    rewrite all_chars_app in Hx. apply andb_true_iff in Hx as [_ Hx].
    simpl in Hx. apply andb_true_iff in Hx as [Hc _].
    cbn [String.append]. apply css_rule_none. now apply negb_true_iff.
Qed.

Lemma css_keep_unmarked (m : ascii) (K T x r : string) :
  css_marker m = true -> unmarked x ->
  rewrite (css_rule m K T) (x +:+ r) = x +:+ rewrite (css_rule m K T) r.
Proof.
  intros Hm Hx. apply css_keep. revert Hx. apply all_chars_impl.
  intros c Hc. apply negb_true_iff in Hc. apply negb_true_iff.
  now apply marker_differs.
Qed.

(** A rule of the CSS rewriter writes the token for the identifier behind
    its marker and before a separator. *)
Lemma css_replace (m d : ascii) (K T post : string) :
  css_sep d = true ->
  rewrite (css_rule m K T) (String m (K +:+ String d post)) =
  String m (T +:+ String d (rewrite (css_rule m K T) post)).
Proof.
  intros Hd. unfold rewrite, rewrite_from.
  replace (String m (K +:+ String d post))
    with (String m (K +:+ String d "") +:+ post)
    by (cbn [String.append]; now rewrite snoc_app).
  rewrite (walk_at_hit _ _ post _ (String m (T +:+ String d ""))).
  - cbn [render String.append]. rewrite snoc_app. f_equal. f_equal. f_equal.
    f_equal. now apply walk_word'.
  - discriminate.
  - cbn [String.append]. rewrite snoc_app, css_rule_hit by assumption.
    f_equal. f_equal. simpl. rewrite slength_app. simpl. lia.
Qed.

(** One turn of the CSS rewriter on a text whose first marker begins a
    selector token of the identifier: the token is written for it, the
    separator is kept, and what follows is rewritten as it would be
    alone. *)
Lemma css_occurrence_in_context (m d : ascii) (K T pre post : string) :
  css_marker m = true -> unmarked pre -> ident K -> ident T ->
  css_sep d = true ->
  rewrite_one_css K T (pre +:+ String m (K +:+ String d post)) =
  pre +:+ String m (T +:+ String d (rewrite_one_css K T post)).
Proof.
  intros Hm Hpre HK HT Hd. unfold rewrite_one_css.
  assert (Hother : forall m' X,
    css_marker m' = true -> Ascii.eqb m' m = false -> ident X ->
    forall r,
    rewrite (css_rule m' K T) (pre +:+ String m (X +:+ String d r)) =
    pre +:+ String m (X +:+ String d (rewrite (css_rule m' K T) r))).
  { intros m' X Hm' Hne HX r.
    replace (pre +:+ String m (X +:+ String d r))
      with ((pre +:+ String m (X +:+ String d "")) +:+ r)
      by (rewrite sapp_assoc; cbn [String.append]; now rewrite snoc_app).
    rewrite css_keep.
    - rewrite sapp_assoc. cbn [String.append]. now rewrite snoc_app.
    - rewrite all_chars_app. apply andb_true_iff. split.
      + revert Hpre. apply all_chars_impl. intros c Hc.
        apply negb_true_iff in Hc. apply negb_true_iff.
        now apply marker_differs.
      + cbn [all_chars]. rewrite Hne. cbn [negb andb].
        rewrite all_chars_app. apply andb_true_iff. split.
        * revert HX. apply all_chars_impl. intros c Hc. apply negb_true_iff.
          apply marker_differs; [assumption|].
          now destruct (ident_char_facts c Hc) as (-> & _).
        * cbn [all_chars]. rewrite andb_true_r. apply negb_true_iff.
          apply marker_differs; [assumption|].
          now destruct (sep_char_facts d Hd) as (-> & _). }
  assert (Hown : forall r,
    rewrite (css_rule m K T) (pre +:+ String m (K +:+ String d r)) =
    pre +:+ String m (T +:+ String d (rewrite (css_rule m K T) r))).
  { intros r. rewrite css_keep_unmarked by assumption.
    now rewrite css_replace. }
  unfold css_marker in Hm. apply orb_true_iff in Hm as [Hm|Hm];
    apply Ascii.eqb_eq in Hm; subst m.
  - rewrite Hown. now apply Hother.
  - rewrite (Hother "."%char K) by auto. apply Hown.
Qed.


End CssContext.

(** * The claims *)

Section Claims.
Import Re Walk Spec App.

Lemma unique_entry (l : list (string * string)) (x : string) :
  NoDup l.*1 -> x ∈ l.*1 ->
  exists t, filter (fun kv => fst kv = x) l = [(x, t)].
Proof.
  induction l as [|[k v] l IH]; simpl; intros Hnd Hin.
  - now apply elem_of_nil in Hin.
  - apply NoDup_cons in Hnd as [Hk Hnd]. rewrite filter_cons. simpl.
    destruct (decide (k = x)) as [->|Hne].
    + exists v. f_equal. clear IH Hin Hnd.
      induction l as [|[k' v'] l IH]; [reflexivity|].
      rewrite filter_cons. simpl in *.
      rewrite not_elem_of_cons in Hk. destruct Hk as [Hk1 Hk2].
      destruct (decide (k' = x)); [congruence|]. now apply IH.
    + apply elem_of_cons in Hin as [->|Hin]; [congruence|]. now apply IH.
Qed.

(** C1. For every run whose scan phase returns the sets of class names and
    of IDs, the dictionary built by the mapping phase has exactly as many
    entries as there are distinct identifiers in the two sets together, and
    every value in it is 8 characters long, each an ASCII letter or digit.
    The random source draws indices below the size of the population, and
    a set is iterated in some order of its elements. *)
Theorem C1_mapping_size_and_tokens {fsys rng : Type}
    (read_text : fsys -> string -> exn + string)
    (randbelow : nat -> rng -> nat * rng)
    (set_order : gset string -> list string)
    (files : list string) (w w1 : @world fsys rng) (cls ids : gset string) :
  (forall n g, 0 < n -> fst (randbelow n g) < n) ->
  (forall S, set_order S ≡ₚ elements S) ->
  scan_phase read_text files (∅, ∅) w = (w1, Returned (cls, ids)) ->
  length (snd (mapping_phase randbelow set_order cls ids w1))
    = size (cls ∪ ids) /\
  Forall (fun kv => String.length (snd kv) = 8 /\
                    all_chars is_alnum (snd kv) = true)
    (snd (mapping_phase randbelow set_order cls ids w1)).
Proof.
  intros Hr Hs _. split.
  - now apply mapping_phase_size.
  - apply (mapping_phase_values randbelow set_order
             (fun t => String.length t = 8 /\ all_chars is_alnum t = true)).
    intros g. now apply choices_alnum.
Qed.

Lemma C1_witness :
  (forall n g, 0 < n -> fst (counter_below n g) < n) /\
  (forall S : gset string, elements S ≡ₚ elements S) /\
  scan_phase simple_read ["index.html"] (∅, ∅) demo_world
    = (logging DEBUG "Scanning file: index.html" demo_world,
       Returned ({["box"; "hero main"]}, {["box"]})) /\
  length (snd (mapping_phase counter_below elements
                 {["box"; "hero main"]} {["box"]}
                 (logging DEBUG "Scanning file: index.html" demo_world)))
    = size ({["box"; "hero main"]} ∪ {["box"]} : gset string) /\
  Forall (fun kv => String.length (snd kv) = 8 /\
                    all_chars is_alnum (snd kv) = true)
    (snd (mapping_phase counter_below elements
            {["box"; "hero main"]} {["box"]}
            (logging DEBUG "Scanning file: index.html" demo_world))).
Proof.
  assert (H1 : forall n g, 0 < n -> fst (counter_below n g) < n).
  { intros n g Hn. simpl. apply Nat.mod_upper_bound. lia. }
  assert (H2 : forall S : gset string, elements S ≡ₚ elements S)
    by reflexivity.
  assert (H3 : scan_phase simple_read ["index.html"] (∅, ∅) demo_world
    = (logging DEBUG "Scanning file: index.html" demo_world,
       Returned ({["box"; "hero main"]}, {["box"]})))
    by (vm_compute; reflexivity).
  split; [exact H1|]. split; [exact H2|]. split; [exact H3|].
  exact (C1_mapping_size_and_tokens simple_read counter_below elements
           ["index.html"] demo_world _ _ _ H1 H2 H3).
Defined.

(** C3 (the code departs from the claim). The dot of the two
    [querySelector] patterns is not escaped, so it stands for any
    character: on a call with an ID selector the scanner takes [nav] for a
    class name, and the rewriter turns the call into one with a class
    selector. *)
Theorem C3_id_selector_taken_for_class :
  find_classnames_ids
    ("document.querySelector(" +:+ dq +:+ "#nav" +:+ dq +:+ ")")
  = ({[ "nav" ]}, ∅) /\
  replace_classnames_ids
    ("document.querySelector(" +:+ dq +:+ "#nav" +:+ dq +:+ ")")
    [("nav", "Ab3dEf9h")]
  = Some ("document.querySelector(" +:+ dq +:+ ".Ab3dEf9h" +:+ dq +:+ ")").
Proof. split; vm_compute; reflexivity. Qed.

Lemma emitted_attribute (o t r : string) :
  emitted (Anchor false o false false) t +:+ r = o +:+ dq +:+ t +:+ dq +:+ r.
Proof.
  unfold emitted. cbn [opener dotted closed]. rewrite !sapp_assoc.
  reflexivity.
Qed.

Lemma shaped_attribute (o x r : string) (q1 q2 : ascii) :
  shaped (Anchor false o false false) q1 "" x q2 +:+ r
  = o +:+ String q1 (x +:+ String q2 r).
Proof. now rewrite shaped_app. Qed.

Lemma NoDup_pair (x y : string) : x <> y -> NoDup [x; y].
Proof.
  intros H. apply NoDup_cons. split; [|apply NoDup_singleton].
  now rewrite list_elem_of_singleton.
Qed.

Lemma single_plain (x t : string) : ident t -> plain_tokens [(x, t)].
Proof. intros H. repeat constructor. now apply ident_plain. Qed.



(** C6. With tokens as the generator makes them, the HTML/JS rewriter is
    the rewriting by its seven rules, key after key.  Whatever a rule
    writes is the opener, a double quote, the dot of the selector calls,
    the token, a double quote and the closing parenthesis of the calls,
    while the occurrence it stands for may have either quote on either
    side.  So an occurrence behind a text without quotes is written anew
    with double quotes whatever its own quotes were, as in the example with
    single quotes. *)
Theorem C6_double_quotes (replacements : list (string * string))
    (content : string) :
  plain_tokens replacements ->
  replace_classnames_ids content replacements
    = Some (rewrite_all replacements content) /\
  (forall a K T p s rep n,
     quoted_rule a K T p s = Some (rep, n) ->
     rep = opener a +:+ dq +:+ (if dotted a then "." else "") +:+ T +:+ dq
             +:+ (if closed a then ")" else "") /\
     exists q1 dc q2 r,
       quote q1 = true /\ quote q2 = true /\ dot_part a dc /\
       s = shaped a q1 dc K q2 +:+ r) /\
  (forall a x t pre post dc q1 q2,
     In a rewrite_anchors -> all_chars not_quote pre = true ->
     quote q1 = true -> quote q2 = true -> dot_part a dc ->
     ident x -> ident t ->
     (bounded a = true -> word_opt (last_opt None pre) = false) ->
     replace_classnames_ids
       (pre +:+ opener a +:+ String q1 (dc +:+ x +:+ String q2 (closer a +:+ post)))
       [(x, t)]
     = Some (pre +:+ (opener a +:+ dq +:+ (if dotted a then "." else "")
                        +:+ t +:+ dq +:+ (if closed a then ")" else ""))
                 +:+ rewrite_all [(x, t)] post)) /\
  replace_classnames_ids
    "el = document.getElementById('nav'); el.className='nav'"
    [("nav", "Ab3dEf9h")]
  = Some ("el = document.getElementById(" +:+ dq +:+ "Ab3dEf9h" +:+ dq
            +:+ "); el.className=" +:+ dq +:+ "Ab3dEf9h" +:+ dq).
Proof.
  intros Hp. split; [now apply replace_all_rewrite|]. split; [|split].
  - intros a K T p s rep n H.
    apply quoted_rule_inv in H
      as (q1 & dc & q2 & r & Hq1 & Hq2 & Hd & -> & -> & _).
    split; [reflexivity|]. exists q1, dc, q2, r. auto.
  - intros a x t pre post dc q1 q2 Ha Hpre Hq1 Hq2 Hd Hx Ht Hb.
    rewrite replace_all_rewrite by now apply single_plain.
    unfold rewrite_all. cbn [fold_left fst snd].
    rewrite <- shaped_app.
    now rewrite occurrence_in_context.
  - vm_compute. reflexivity.
Qed.

Lemma C6_witness :
  plain_tokens [("nav", "Ab3dEf9h")] /\
  replace_classnames_ids "<ul id='nav'>" [("nav", "Ab3dEf9h")]
  = Some (rewrite_all [("nav", "Ab3dEf9h")] "<ul id='nav'>").
Proof.
  assert (H : plain_tokens [("nav", "Ab3dEf9h")]) by (repeat constructor).
  split; [exact H|].
  exact (proj1 (C6_double_quotes [("nav", "Ab3dEf9h")] "<ul id='nav'>" H)).
Defined.

(** C7 (as stated, refuted). A [class] attribute with the value [a b]
    behind an attribute whose value ends in [class=]: the scanner takes the
    text from that [class=] up to the quote that opens the value of the
    real attribute, and never finds [a b]. *)
Lemma C7_counterexample :
  find_classnames_ids "<p title='my class=' class='a b'>"
  = ({[ " class=" ]}, ∅) /\
  "a b" ∉ fst (find_classnames_ids "<p title='my class=' class='a b'>").
Proof.
  assert (E : find_classnames_ids "<p title='my class=' class='a b'>"
              = ({[ " class=" ]}, ∅)) by (vm_compute; reflexivity).
  split; [exact E|]. rewrite E. cbn [fst].
  rewrite elem_of_singleton. discriminate.
Qed.

(** C7 (amended). A [class] attribute with a value [v] (any text without
    quotes, spaces allowed) between two quotes, behind a text in which
    every earlier [class=] with a quote behind it is followed by another
    quote: the scanner finds [v], whole, as a class name.  When nothing
    else is quoted in the text, [v] is all it finds.  And whatever the
    text, an identifier it finds is the whole text between two quotes
    behind an opener, never a part of it.  In the example [hero main] is
    found, and neither [hero] nor [main]. *)
Theorem C7_class_value_not_split (pre v post : string) (q1 q2 : ascii) :
  quote q1 = true -> quote q2 = true ->
  v <> EmptyString -> all_chars not_quote v = true ->
  (settled (Anchor false "class=" false false) pre = true ->
   v ∈ fst (find_classnames_ids
              (pre +:+ "class=" +:+ String q1 (v +:+ String q2 post)))) /\
  (all_chars not_quote pre = true -> all_chars not_quote post = true ->
   find_classnames_ids (pre +:+ "class=" +:+ String q1 (v +:+ String q2 post))
   = ({[ v ]}, ∅)) /\
  (forall content x,
     x ∈ fst (find_classnames_ids content) ->
     exists a q1' dc q2' before after,
       In a class_anchors /\ quote q1' = true /\ quote q2' = true /\
       dot_part a dc /\ x <> EmptyString /\ all_chars not_quote x = true /\
       content = before +:+ shaped a q1' dc x q2' +:+ after) /\
  find_classnames_ids "<div class='hero main'>" = ({[ "hero main" ]}, ∅).
Proof.
  intros Hq1 Hq2 Hv Hvq. split; [|split; [|split]].
  - intros Hs. rewrite find_classnames_ids_found. cbn [fst].
    apply elem_of_found_at. exists (Anchor false "class=" false false).
    split; [now left|].
    now apply (capture_after_settled (Anchor false "class=" false false)).
  - intros Hpre Hpost. now apply class_value_alone.
  - intros content x. rewrite find_classnames_ids_found. cbn [fst].
    apply found_at_inv.
  - vm_compute. reflexivity.
Qed.

Lemma C7_witness :
  quote "'" = true /\ "hero main wide" <> EmptyString /\
  all_chars not_quote "hero main wide" = true /\
  settled (Anchor false "class=" false false)
    ("<a href=" +:+ dq +:+ "x" +:+ dq +:+ " class='top'><p ") = true /\
  "hero main wide"
    ∈ fst (find_classnames_ids
             (("<a href=" +:+ dq +:+ "x" +:+ dq +:+ " class='top'><p ")
                +:+ "class=" +:+ String "'" ("hero main wide" +:+ String "'" ">"))).
Proof.
  assert (H1 : quote "'" = true) by reflexivity.
  assert (H2 : "hero main wide" <> EmptyString) by discriminate.
  assert (H3 : all_chars not_quote "hero main wide" = true) by reflexivity.
  assert (H4 : settled (Anchor false "class=" false false)
                 ("<a href=" +:+ dq +:+ "x" +:+ dq +:+ " class='top'><p ")
               = true) by reflexivity.
  split; [exact H1|]. split; [exact H2|]. split; [exact H3|].
  split; [exact H4|].
  exact (proj1 (C7_class_value_not_split
                  ("<a href=" +:+ dq +:+ "x" +:+ dq +:+ " class='top'><p ")
                  "hero main wide" ">" "'" "'" H1 H1 H2 H3) H4).
Defined.

(** C10. The CSS scanner finds [x] as a class name (as an ID) exactly when
    the text holds, somewhere, a dot (a hash), then [x], then a separator
    (white space, an opening brace, a colon or a comma), with [x] not empty
    and made of ASCII letters, digits, underscores and hyphens.  So a name
    with any other character is never found.  In the example the colour
    [ff0000] is found as an ID, and a run over a style sheet with it writes
    a token in its place. *)
Theorem C10_css_scanner (content x : string) :
  (x ∈ fst (find_classnames_ids_css content) <->
   exists pre d post,
     content = pre +:+ String "." (x +:+ String d post) /\
     x <> EmptyString /\ ident x /\ css_sep d = true) /\
  (x ∈ snd (find_classnames_ids_css content) <->
   exists pre d post,
     content = pre +:+ String "#" (x +:+ String d post) /\
     x <> EmptyString /\ ident x /\ css_sep d = true) /\
  (all_chars css_ident_char x = false ->
   (x ∉ fst (find_classnames_ids_css content)) /\
   (x ∉ snd (find_classnames_ids_css content))) /\
  find_classnames_ids_css "p { background: #ff0000 ; }" = (∅, {[ "ff0000" ]}) /\
  fs_lookup
    (disk (fst (process_files simple_read simple_write counter_below elements
                  ["style.css"]
                  (World [("style.css",
                           Text true true "p { background: #ff0000 ; }")]
                     0 nil))))
    "style.css"
  = Some (Text true true "p { background: #abcdefgh ; }").
Proof.
  assert (Hdot : x ∈ fst (find_classnames_ids_css content) <->
    exists pre d post,
      content = pre +:+ String "." (x +:+ String d post) /\
      x <> EmptyString /\ ident x /\ css_sep d = true).
  { rewrite find_classnames_ids_css_found. cbn [fst].
    now apply css_found_iff. }
  assert (Hhash : x ∈ snd (find_classnames_ids_css content) <->
    exists pre d post,
      content = pre +:+ String "#" (x +:+ String d post) /\
      x <> EmptyString /\ ident x /\ css_sep d = true).
  { rewrite find_classnames_ids_css_found. cbn [snd].
    now apply css_found_iff. }
  split; [exact Hdot|]. split; [exact Hhash|]. split; [|split].
  - intros Hx. split.
    + intros (pre & d & post & _ & _ & Hi & _)%Hdot.
      unfold ident in Hi. congruence.
    + intros (pre & d & post & _ & _ & Hi & _)%Hhash.
      unfold ident in Hi. congruence.
  - vm_compute. reflexivity.
  - vm_compute. reflexivity.
Qed.

(** C8 (as stated, refuted). Two dictionaries with the same entries in two
    orders, distinct keys and no token that is a key, give two results: in
    a style sheet with the selector [.hero main] when the keys are [hero]
    and [hero main], and in a page when a key is [class=]. *)
Lemma C8_counterexample :
  let l := [("hero", "Ab3dEf9h"); ("hero main", "Zy8xWv7u")] in
  let l' := [("hero main", "Zy8xWv7u"); ("hero", "Ab3dEf9h")] in
  let k := [("a", "Ab3dEf9h"); ("class=", "Zy8xWv7u")] in
  let k' := [("class=", "Zy8xWv7u"); ("a", "Ab3dEf9h")] in
  (NoDup l.*1 /\ l ≡ₚ l' /\
   (forall kv kv', In kv l -> In kv' l -> snd kv <> fst kv') /\
   replace_classnames_ids_css ".hero main {" l = Some ".Ab3dEf9h main {" /\
   replace_classnames_ids_css ".hero main {" l' = Some ".Zy8xWv7u {" /\
   replace_classnames_ids_css ".hero main {" l
     <> replace_classnames_ids_css ".hero main {" l') /\
  (NoDup k.*1 /\ k ≡ₚ k' /\
   (forall kv kv', In kv k -> In kv' k -> snd kv <> fst kv') /\
   replace_classnames_ids "id='class='a'" k
     = Some ("id=" +:+ dq +:+ "Zy8xWv7u" +:+ dq +:+ "Ab3dEf9h" +:+ dq) /\
   replace_classnames_ids "id='class='a'" k'
     = Some ("id=" +:+ dq +:+ "Zy8xWv7u" +:+ dq +:+ "a'") /\
   replace_classnames_ids "id='class='a'" k
     <> replace_classnames_ids "id='class='a'" k').
Proof.
  cbv zeta. split; (split; [|split; [|split; [|split; [|split]]]]);
    try (vm_compute; reflexivity);
    try (apply perm_swap);
    try (vm_compute; discriminate).
  - now apply NoDup_pair.
  - intros kv kv' [<-|[<-|[]]] [<-|[<-|[]]]; cbn [fst snd]; discriminate.
  - now apply NoDup_pair.
  - intros kv kv' [<-|[<-|[]]] [<-|[<-|[]]]; cbn [fst snd]; discriminate.
Qed.

(** C8 (amended). When the keys are distinct, keys and tokens are made of
    ASCII letters, digits, underscores and hyphens only, and no token is a
    key, both rewriters return a text and return the same text for every
    order of the dictionary. *)
Theorem C8_order_independent (l l' : list (string * string))
    (content : string) :
  independent l -> l ≡ₚ l' ->
  (exists out, replace_classnames_ids content l = Some out /\
               replace_classnames_ids content l' = Some out) /\
  (exists out, replace_classnames_ids_css content l = Some out /\
               replace_classnames_ids_css content l' = Some out).
Proof.
  intros Hi Hp.
  pose proof (independent_plain l Hi) as Hl.
  pose proof (independent_plain l' (independent_perm l l' Hp Hi)) as Hl'.
  split.
  - exists (rewrite_all l content).
    rewrite !replace_all_rewrite by assumption.
    now rewrite (rewrite_all_perm l l' content Hp Hi).
  - exists (rewrite_all_css l content).
    rewrite !replace_all_css_rewrite by assumption.
    now rewrite (rewrite_all_css_perm l l' content Hp Hi).
Qed.

Lemma C8_witness :
  independent [("nav", "Ab3dEf9h"); ("navbar", "Zy8xWv7u")] /\
  [("nav", "Ab3dEf9h"); ("navbar", "Zy8xWv7u")]
    ≡ₚ [("navbar", "Zy8xWv7u"); ("nav", "Ab3dEf9h")] /\
  exists out,
    replace_classnames_ids_css ".navbar .nav { }"
      [("nav", "Ab3dEf9h"); ("navbar", "Zy8xWv7u")] = Some out /\
    replace_classnames_ids_css ".navbar .nav { }"
      [("navbar", "Zy8xWv7u"); ("nav", "Ab3dEf9h")] = Some out.
Proof.
  assert (H1 : independent [("nav", "Ab3dEf9h"); ("navbar", "Zy8xWv7u")]).
  { split; [|split].
    - now apply NoDup_pair.
    - repeat constructor.
    - intros kv kv' Hk Hk'. apply list_elem_of_In in Hk, Hk'.
      destruct Hk as [<-|[<-|[]]], Hk' as [<-|[<-|[]]]; cbn [fst snd];
        discriminate. }
  assert (H2 : [("nav", "Ab3dEf9h"); ("navbar", "Zy8xWv7u")]
                 ≡ₚ [("navbar", "Zy8xWv7u"); ("nav", "Ab3dEf9h")])
    by apply perm_swap.
  split; [exact H1|]. split; [exact H2|].
  exact (proj2 (C8_order_independent _ _ ".navbar .nav { }" H1 H2)).
Defined.

End Claims.

(** * More on the rewriters, the scanners and the driver *)

Section CssRenaming.
Import Re Walk Spec App.

Lemma css_capture_none (m : ascii) (p : option ascii) (c : ascii) (t : string) :
  Ascii.eqb m c = false -> css_capture_rule m p (String c t) = None.
Proof. intros H. unfold css_capture_rule. now rewrite H. Qed.

Lemma css_captures_keep (m : ascii) (x r : string) :
  all_chars (fun c => negb (Ascii.eqb m c)) x = true ->
  captures (css_capture_rule m) (x +:+ r) = captures (css_capture_rule m) r.
Proof.
  intros Hx. unfold captures.
  rewrite walk_keep_through, hits_keep_all.
  - f_equal. now apply walk_word'.
  - intros u v p' -> Hv. destruct v as [|c v]; [congruence|].
    rewrite all_chars_app in Hx. apply andb_true_iff in Hx as [_ Hx].
    simpl in Hx. apply andb_true_iff in Hx as [Hc _].
    cbn [String.append]. apply css_capture_none. now apply negb_true_iff.
Qed.

Lemma css_rewrite_miss (m : ascii) (K T : string) (a : ascii) (t : string) :
  css_rule m K T None (String a t) = None ->
  rewrite (css_rule m K T) (String a t) = String a (rewrite (css_rule m K T) t).
Proof.
  intros H. unfold rewrite, rewrite_from. cbn [walk]. rewrite H.
  cbn [render]. f_equal. f_equal. now apply walk_word'.
Qed.

Lemma css_captures_miss (m : ascii) (a : ascii) (t : string) :
  css_capture_rule m None (String a t) = None ->
  captures (css_capture_rule m) (String a t) = captures (css_capture_rule m) t.
Proof.
  intros H. unfold captures. cbn [walk]. rewrite H. cbn [hits].
  f_equal. now apply walk_word'.
Qed.

Lemma css_captures_hit (m d : ascii) (x r : string) :
  x <> EmptyString -> ident x -> css_sep d = true ->
  captures (css_capture_rule m) (String m (x +:+ String d r))
  = (x, String d EmptyString) :: captures (css_capture_rule m) r.
Proof.
  intros Hx Hi Hd. unfold captures.
  replace (String m (x +:+ String d r))
    with (String m (x +:+ String d "") +:+ r)
    by (cbn [String.append]; now rewrite snoc_app).
  rewrite (walk_at_hit _ _ r _ (x, String d "")).
  - cbn [hits]. f_equal. f_equal. now apply walk_word'.
  - discriminate.
  - cbn [String.append]. rewrite snoc_app, css_capture_rule_hit by assumption.
    f_equal. f_equal. simpl. rewrite slength_app. simpl. lia.
Qed.

(** What the CSS scanner sees at a marker: the run of identifier characters
    and the character behind it. *)
Lemma css_capture_at (m : ascii) (p : option ascii) (a : ascii) (x r : string) :
  ident x -> c_stop css_ident_char r ->
  css_capture_rule m p (String a (x +:+ r)) =
  if Ascii.eqb m a then
    match r with
    | String d _ =>
        if negb (is_nil x) && css_sep d
        then Some ((x, String d EmptyString), String.length x + 2)
        else None
    | EmptyString => None
    end
  else None.
Proof.
  intros Hx Hr. unfold css_capture_rule. destruct (Ascii.eqb m a); [|reflexivity].
  rewrite (span_run css_ident_char x r Hx Hr). now destruct r.
Qed.

(** What the CSS rewriter's rule sees at a marker in front of a run of
    identifier characters. *)
Lemma css_rule_at (m : ascii) (K T : string) (p : option ascii) (a : ascii)
    (x r : string) :
  ident K -> ident x -> c_stop css_ident_char r ->
  css_rule m K T p (String a (x +:+ r)) <> None ->
  a = m /\ x = K /\ exists d r', r = String d r' /\ css_sep d = true.
Proof.
  intros HK Hx Hr H.
  destruct (css_rule m K T p (String a (x +:+ r))) as [[rep n]|] eqn:E;
    [clear H|congruence].
  apply css_rule_inv in E as (d & r' & E & Hd & _).
  injection E as -> E.
  split; [reflexivity|].
  assert (Hnd : css_ident_char d = false) by now apply sep_not_ident.
  apply app_eq_app in E as [(w & EK & Er)|(w & Hw & Ex & Er)].
  - destruct w as [|c w].
    + rewrite sapp_nil_r in EK. cbn [String.append] in Er. subst.
      split; [reflexivity|]. eauto.
    + exfalso. cbn [String.append] in Er. subst r. simpl in Hr.
      unfold ident in HK. rewrite EK, all_chars_app in HK.
      apply andb_true_iff in HK as [_ HK]. simpl in HK.
      rewrite Hr in HK. discriminate.
  - exfalso. destruct w as [|c w]; [congruence|].
    cbn [String.append] in Er. injection Er as <- _.
    unfold ident in Hx. rewrite Ex, all_chars_app in Hx.
    apply andb_true_iff in Hx as [_ Hx]. simpl in Hx.
    rewrite Hnd in Hx. discriminate.
Qed.

Lemma css_rewrite_head (m : ascii) (K T : string) (e : ascii) (r : string) :
  exists z, rewrite (css_rule m K T) (String e r) = String e z.
Proof.
  unfold rewrite, rewrite_from. cbn [walk].
  destruct (css_rule m K T None (String e r)) as [[rep n]|] eqn:E.
  - apply css_rule_inv in E as (d & r' & E & _ & -> & _).
    injection E as -> _. cbn [render String.append]. eauto.
  - cbn [render]. eauto.
Qed.


Lemma ident_differs (m : ascii) (x : string) :
  css_marker m = true -> ident x ->
  all_chars (fun c => negb (Ascii.eqb m c)) x = true.
Proof.
  intros Hm. apply all_chars_impl. intros c Hc. apply negb_true_iff.
  apply marker_differs; [assumption|].
  now destruct (ident_char_facts c Hc) as (-> & _).
Qed.


Lemma css_captures_at (m a : ascii) (x r : string) :
  css_marker m = true -> ident x -> c_stop css_ident_char r ->
  captures (css_capture_rule m) (String a (x +:+ r)) =
  (if Ascii.eqb m a then
     match r with
     | String d _ =>
         if negb (is_nil x) && css_sep d then [(x, String d EmptyString)]
         else nil
     | EmptyString => nil
     end
   else nil) ++ captures (css_capture_rule m) r.
Proof.
  intros Hm Hx Hr.
  assert (Hmiss : css_capture_rule m None (String a (x +:+ r)) = None ->
    captures (css_capture_rule m) (String a (x +:+ r))
    = captures (css_capture_rule m) r).
  { intros E. rewrite css_captures_miss by assumption.
    apply css_captures_keep. now apply ident_differs. }
  pose proof (css_capture_at m None a x r Hx Hr) as E.
  destruct (Ascii.eqb m a) eqn:Ea; [|now apply Hmiss].
  destruct r as [|d r']; [now apply Hmiss|].
  destruct (negb (is_nil x) && css_sep d) eqn:Ec; [|now apply Hmiss].
  apply andb_true_iff in Ec as [Hn Hd]. apply Ascii.eqb_eq in Ea as <-.
  rewrite css_captures_hit; auto.
  - cbn [app]. f_equal. symmetry. apply css_captures_miss.
    apply css_capture_none. apply marker_differs; [assumption|].
    now destruct (sep_char_facts d Hd) as (-> & _).
  - destruct x; [discriminate|discriminate].
Qed.

Lemma css_rewrite_at (m a : ascii) (K T x r : string) :
  css_marker m = true -> ident K -> ident x -> c_stop css_ident_char r ->
  rewrite (css_rule m K T) (String a (x +:+ r)) =
  String a ((if Ascii.eqb m a && String.eqb x K
                && match r with String d _ => css_sep d | EmptyString => false end
             then T else x) +:+ rewrite (css_rule m K T) r).
Proof.
  intros Hm HK Hx Hr.
  destruct (css_rule m K T None (String a (x +:+ r))) as [[rep n]|] eqn:E.
  - destruct (css_rule_at m K T None a x r HK Hx Hr) as (-> & -> & d & r' & -> & Hd);
      [congruence|].
    rewrite Ascii.eqb_refl, String.eqb_refl, Hd. cbn [andb].
    rewrite css_replace by assumption. f_equal. f_equal.
    symmetry. apply css_rewrite_miss. apply css_rule_none.
    apply marker_differs; [assumption|].
    now destruct (sep_char_facts d Hd) as (-> & _).
  - rewrite css_rewrite_miss by assumption.
    rewrite css_keep by now apply ident_differs.
    destruct (Ascii.eqb m a && String.eqb x K
                && match r with String d _ => css_sep d | "" => false end) eqn:Ec;
      [exfalso|reflexivity].
    apply andb_true_iff in Ec as [Ec Hd]. apply andb_true_iff in Ec as [Ea Ex].
    apply Ascii.eqb_eq in Ea as <-. apply String.eqb_eq in Ex as ->.
    destruct r as [|d r']; [discriminate|].
    rewrite css_rule_hit in E by assumption. discriminate.
Qed.

Lemma css_scan_rewrite_rule (m m' : ascii) (K T : string) :
  css_marker m = true -> css_marker m' = true ->
  ident K -> K <> EmptyString -> ident T -> T <> EmptyString ->
  forall (n : nat) (c : string), String.length c <= n ->
  captures (css_capture_rule m') (rewrite (css_rule m K T) c) =
  List.map (rename_hit (Ascii.eqb m' m) K T) (captures (css_capture_rule m') c).
Proof.
  intros Hm Hm' HK HKn HT HTn. induction n as [|n IH]; intros c Hlen.
  - destruct c; [reflexivity|simpl in Hlen; lia].
  - destruct c as [|a t]; [reflexivity|]. cbn [String.length] in Hlen.
    destruct (span css_ident_char t) as [x r] eqn:Es.
    pose proof (span_app _ _ _ _ Es) as ->.
    pose proof (span_all _ _ _ _ Es) as Hx.
    assert (Hr : c_stop css_ident_char r).
    { destruct r as [|e r1]; [exact I|]. simpl. eapply span_stop; eauto. }
    clear Es. rewrite slength_app in Hlen.
    rewrite css_rewrite_at by assumption.
    assert (Hr' : c_stop css_ident_char (rewrite (css_rule m K T) r)).
    { destruct r as [|e r1]; [exact I|].
      destruct (css_rewrite_head m K T e r1) as [z ->]. exact Hr. }
    assert (Hhead : match r with
                    | String d _ => exists z, rewrite (css_rule m K T) r = String d z
                    | EmptyString => rewrite (css_rule m K T) r = EmptyString
                    end).
    { destruct r as [|e r1]; [reflexivity|]. apply css_rewrite_head. }
    set (x' := if Ascii.eqb m a && String.eqb x K
                   && match r with String d _ => css_sep d | "" => false end
               then T else x).
    assert (Hx' : ident x') by (unfold x'; now destruct (_ && _ && _)).
    rewrite (css_captures_at m' a x' _ Hm' Hx' Hr').
    rewrite (css_captures_at m' a x r Hm' Hx Hr).
    rewrite map_app, <- (IH r) by lia. f_equal.
    destruct (Ascii.eqb m' a) eqn:Ea; [|reflexivity].
    apply Ascii.eqb_eq in Ea as <-.
    destruct r as [|d r1].
    + rewrite Hhead. reflexivity.
    + destruct Hhead as [z ->]. unfold x'.
      rewrite (Ascii.eqb_sym m m').
      destruct (css_sep d) eqn:Hd; rewrite ?andb_false_r; [|reflexivity].
      rewrite !andb_true_r.
      destruct (Ascii.eqb m' m && String.eqb x K) eqn:Ec.
      * apply andb_true_iff in Ec as [Em Ex]. apply String.eqb_eq in Ex as ->.
        destruct T as [|t0 T']; [congruence|]. destruct K as [|k0 K']; [congruence|].
        cbn [is_nil negb map]. unfold rename_hit. cbn [fst snd].
        now rewrite Em, String.eqb_refl.
      * destruct (negb (is_nil x)); [|reflexivity].
        cbn [map]. unfold rename_hit. cbn [fst snd]. now rewrite Ec.
Qed.

Lemma css_scan_rewrite_turn (m : ascii) (K T c : string) :
  css_marker m = true ->
  ident K -> K <> EmptyString -> ident T -> T <> EmptyString ->
  captures (css_capture_rule m) (rewrite_one_css K T c) =
  List.map (fun xd => (rename_one K T (fst xd), snd xd))
    (captures (css_capture_rule m) c).
Proof.
  intros Hm HK HKn HT HTn. unfold rewrite_one_css.
  rewrite (css_scan_rewrite_rule "#" m K T) with (n := String.length
    (rewrite (css_rule "." K T) c)); auto.
  rewrite (css_scan_rewrite_rule "." m K T) with (n := String.length c); auto.
  rewrite map_map. apply map_ext. intros [x d].
  unfold rename_hit, rename_one. cbn [fst snd].
  unfold css_marker in Hm. apply orb_true_iff in Hm as [Hm|Hm];
    apply Ascii.eqb_eq in Hm; subst m; cbn [Ascii.eqb andb fst];
    simpl; now destruct (String.eqb x K).
Qed.

Lemma set_map_fst_map (f : string -> string) (l : list (string * string)) :
  set_map (D := gset string) fst
    (list_to_set (List.map (fun xd => (f (fst xd), snd xd)) l)
       : gset (string * string))
  = set_map f (set_map (D := gset string) fst
                 (list_to_set l : gset (string * string)) : gset string).
Proof.
  apply set_eq. intros y. rewrite !elem_of_map. split.
  - intros ([x d] & -> & H). apply elem_of_list_to_set in H.
    apply list_elem_of_In, in_map_iff in H as ([x0 d0] & [= <- <-] & H).
    exists x0. split; [reflexivity|]. apply elem_of_map.
    exists (x0, d0). split; [reflexivity|].
    now apply elem_of_list_to_set, list_elem_of_In.
  - intros (x & -> & H). apply elem_of_map in H as ([x0 d0] & -> & H).
    exists (f x0, d0). split; [reflexivity|].
    apply elem_of_list_to_set, list_elem_of_In, in_map_iff.
    exists (x0, d0). split; [reflexivity|].
    apply list_elem_of_In. now apply elem_of_list_to_set in H.
Qed.

Lemma css_found_rewrite_turn (m : ascii) (K T c : string) :
  css_marker m = true ->
  ident K -> K <> EmptyString -> ident T -> T <> EmptyString ->
  css_found m (rewrite_one_css K T c)
  = set_map (rename_one K T) (css_found m c).
Proof.
  intros Hm HK HKn HT HTn. unfold css_found.
  rewrite css_scan_rewrite_turn by assumption. apply set_map_fst_map.
Qed.

Lemma css_found_rewrite_all (m : ascii) (l : list (string * string)) :
  css_marker m = true -> identifiers l ->
  forall c, css_found m (rewrite_all_css l c)
            = set_map (rename_all l) (css_found m c).
Proof.
  intros Hm. unfold rewrite_all_css, rename_all.
  induction l as [|[K T] l IH]; intros Hl c; cbn [fold_left fst snd].
  - apply set_eq. intros y. rewrite elem_of_map. split; [eauto|].
    now intros (x & -> & H).
  - apply Forall_cons in Hl as [[[HK HKn] [HT HTn]] Hl]. cbn [fst snd] in *.
    rewrite IH, css_found_rewrite_turn by assumption.
    apply set_eq. intros y. rewrite !elem_of_map. split.
    + intros (x & -> & H). apply elem_of_map in H as (x0 & -> & H). eauto.
    + intros (x & -> & H). eexists. split; [reflexivity|].
      apply elem_of_map. eauto.
Qed.

Lemma rename_all_fixed (l : list (string * string)) (x : string) :
  x ∉ l.*1 -> rename_all l x = x.
Proof.
  unfold rename_all. induction l as [|[K T] l IH]; cbn [fold_left fst snd fmap list_fmap];
    [reflexivity|].
  intros H. apply not_elem_of_cons in H as [Hx H]. unfold rename_one at 2.
  apply String.eqb_neq in Hx. rewrite Hx. now apply IH.
Qed.

Lemma token_of_fixed (l : list (string * string)) (x : string) :
  x ∉ l.*1 -> token_of l x = x.
Proof.
  unfold token_of. induction l as [|[K T] l IH]; cbn [find fst snd fmap list_fmap];
    [reflexivity|].
  intros H. apply not_elem_of_cons in H as [Hx H].
  apply not_eq_sym, String.eqb_neq in Hx. rewrite Hx. now apply IH.
Qed.

Lemma rename_all_token (l : list (string * string)) (x : string) :
  independent l -> rename_all l x = token_of l x.
Proof.
  revert x. induction l as [|[K T] l IH]; intros x Hi; [reflexivity|].
  pose proof (independent_tail _ _ Hi) as Hi'.
  change (rename_all ((K, T) :: l) x) with (rename_all l (rename_one K T x)).
  unfold token_of. cbn [find fst snd]. unfold rename_one.
  rewrite (String.eqb_sym K x).
  destruct (String.eqb x K) eqn:E.
  - apply rename_all_fixed. destruct Hi as (_ & _ & Hi).
    intros Hin. apply list_elem_of_fmap in Hin as ([K' T'] & E' & Hin).
    apply (Hi (K, T) (K', T')); [left|right; assumption|exact E'].
  - now apply IH.
Qed.

Lemma token_of_cases (l : list (string * string)) (x : string) :
  (exists t, (x, t) ∈ l /\ token_of l x = t) \/
  ((x ∉ l.*1) /\ token_of l x = x).
Proof.
  destruct (decide (x ∈ l.*1)) as [Hin|Hn];
    [left|right; split; [assumption|now apply token_of_fixed]].
  unfold token_of. induction l as [|[K T] l IH]; [now apply elem_of_nil in Hin|].
  cbn [find fst snd]. destruct (String.eqb K x) eqn:E.
  - apply String.eqb_eq in E as ->. exists T. split; [left|reflexivity].
  - cbn [fmap list_fmap fst] in Hin. apply elem_of_cons in Hin as [->|Hin].
    + rewrite String.eqb_refl in E. discriminate.
    + destruct (IH Hin) as (t & Ht & Et). exists t. split; [now right|assumption].
Qed.

End CssRenaming.

(** ** Texts without quotes *)

Section Plain.
Import Re Walk Spec App.

Lemma quoted_rule_plain (a : anchor) (K T : string) (p : option ascii)
    (s : string) :
  all_chars not_quote s = true -> quoted_rule a K T p s = None.
Proof.
  intros Hs. destruct (quoted_rule a K T p s) as [[rep n]|] eqn:E;
    [exfalso|reflexivity].
  apply quoted_rule_inv in E as (q1 & dc & q2 & r & Hq1 & _ & _ & -> & _).
  rewrite shaped_app in Hs. now apply no_quote_in in Hs.
Qed.

Lemma quoted_rewrite_plain (a : anchor) (K T c : string) :
  all_chars not_quote c = true -> rewrite (quoted_rule a K T) c = c.
Proof.
  intros Hc. unfold rewrite, rewrite_from.
  rewrite <- (sapp_nil_r c) at 1. rewrite walk_keep_through.
  - cbn [walk]. rewrite app_nil_r. apply render_keep_all_nil.
  - intros u v p' -> _. rewrite sapp_nil_r. apply quoted_rule_plain.
    rewrite all_chars_app in Hc. now apply andb_true_iff in Hc as [_ Hc].
Qed.

Lemma rewrite_one_plain (K T c : string) :
  all_chars not_quote c = true -> rewrite_one K T c = c.
Proof.
  intros Hc. unfold rewrite_one, rewrite_anchors. cbn [fold_left].
  now rewrite !(quoted_rewrite_plain _ K T c Hc).
Qed.

Lemma rewrite_all_plain (l : list (string * string)) (c : string) :
  all_chars not_quote c = true -> rewrite_all l c = c.
Proof.
  intros Hc. unfold rewrite_all.
  induction l as [|[K T] l IH]; cbn [fold_left fst snd]; [reflexivity|].
  now rewrite rewrite_one_plain.
Qed.

Lemma found_at_plain (anchors : list anchor) (c : string) :
  all_chars not_quote c = true -> found_at anchors c = ∅.
Proof.
  intros Hc. apply set_eq. intros x. rewrite elem_of_empty.
  split; [|contradiction]. intros H.
  apply found_at_inv in H
    as (a & q1 & dc & q2 & pre & post & _ & Hq1 & _ & _ & _ & _ & ->).
  rewrite all_chars_app in Hc. apply andb_true_iff in Hc as [_ Hc].
  rewrite shaped_app in Hc. now apply no_quote_in in Hc.
Qed.

End Plain.

Section DriverMore.
Import Re Walk Spec App.
Context {fsys rng : Type}.
Variable read_text : fsys -> string -> exn + string.
Variable write_text : fsys -> string -> string -> fsys * option exn.
Variable randbelow : nat -> rng -> nat * rng.
Variable set_order : gset string -> list string.

Local Abbreviation world' := (@world fsys rng).

Lemma scan_file_found (path : string) (found found' : gset string * gset string)
    (w w' : world') :
  scan_file read_text path found w = (w', Returned found') ->
  found' = (fst found ∪ fst (scanned read_text (disk w) path),
            snd found ∪ snd (scanned read_text (disk w) path)).
Proof.
  unfold scan_file, scanned, scan_text. cbn [disk logging].
  destruct (read_text (disk w) path) as [e|content].
  - destruct e; cbn [handle]; intros [= _ <-]; destruct found; cbn [fst snd];
      f_equal; symmetry; apply (right_id_L ∅ (∪)).
  - destruct (if ends_with ".css" path then _ else _) as [c i].
    now intros [= _ <-].
Qed.

Lemma scan_phase_found (files : list string) :
  forall (found found' : gset string * gset string) (w w' : world'),
  scan_phase read_text files found w = (w', Returned found') ->
  fst found' = fst found ∪ ⋃ (List.map (fun p => fst (scanned read_text (disk w) p)) files) /\
  snd found' = snd found ∪ ⋃ (List.map (fun p => snd (scanned read_text (disk w) p)) files).
Proof.
  induction files as [|path more IH]; intros found found' w w';
    cbn [scan_phase List.map union_list].
  - intros [= _ <-]. split; symmetry; apply (right_id_L ∅ (∪)).
  - destruct (scan_file read_text path found w) as [w1 [found1|e]] eqn:E;
      [|discriminate].
    intros H. pose proof (scan_file_outcome read_text _ _ _ _ _ E) as (_ & Hd & _).
    apply scan_file_found in E as ->. apply IH in H as [H1 H2].
    rewrite Hd in H1, H2. cbn [fst snd] in H1, H2.
    rewrite H1, H2. split; symmetry; apply (assoc_L (∪)).
Qed.

End DriverMore.

Section KeyOrder.
Import Re Walk Spec App.
Context {fsys rng : Type}.
Variable randbelow : nat -> rng -> nat * rng.
Variable set_order : gset string -> list string.

Lemma filter_agree (P Q : string -> Prop) {DP : forall x, Decision (P x)}
    {DQ : forall x, Decision (Q x)} (l : list string) :
  (forall x, x ∈ l -> P x <-> Q x) -> filter P l = filter Q l.
Proof.
  induction l as [|a l IH]; intros HPQ; [reflexivity|].
  assert (Hl : filter P l = filter Q l).
  { apply IH. intros x Hx. apply HPQ. now right. }
  assert (Ha : P a <-> Q a) by (apply HPQ; left).
  destruct (decide (P a)) as [HPa|HPa].
  - rewrite !filter_cons_True by tauto. now rewrite Hl.
  - rewrite !filter_cons_False by tauto. assumption.
Qed.


Hypothesis set_order_perm : forall S, set_order S ≡ₚ elements S.

Lemma set_order_NoDup (S : gset string) : NoDup (set_order S).
Proof. rewrite set_order_perm. apply NoDup_elements. Qed.

Lemma elem_of_set_order (S : gset string) (x : string) :
  x ∈ set_order S <-> x ∈ S.
Proof. rewrite set_order_perm. apply elem_of_elements. Qed.


End KeyOrder.

Section RunFacts.
Import Re Walk Spec App.
Context {fsys rng : Type}.
Variable read_text : fsys -> string -> exn + string.
Variable write_text : fsys -> string -> string -> fsys * option exn.
Variable randbelow : nat -> rng -> nat * rng.
Variable set_order : gset string -> list string.

Local Abbreviation world' := (@world fsys rng).

Lemma scan_text_names (path content x : string) :
  x ∈ fst (scan_text path content) ∪ snd (scan_text path content) ->
  x <> EmptyString /\ all_chars not_quote x = true.
Proof.
  unfold scan_text. destruct (ends_with ".css" path).
  - rewrite find_classnames_ids_css_found. cbn [fst snd].
    intros [H|H]%elem_of_union;
      apply css_found_iff in H as (pre & d & post & _ & Hx & Hi & _);
      try reflexivity; (split; [assumption|now apply ident_not_quote]).
  - rewrite find_classnames_ids_found. cbn [fst snd].
    intros [H|H]%elem_of_union;
      apply found_at_inv in H
        as (a & q1 & dc & q2 & pre & post & _ & _ & _ & _ & Hx & Hq & _);
      now split.
Qed.

Lemma scanned_names (d : fsys) (path x : string) :
  x ∈ fst (scanned read_text d path) ∪ snd (scanned read_text d path) ->
  x <> EmptyString /\ all_chars not_quote x = true.
Proof.
  unfold scanned. destruct (read_text d path) as [e|content].
  - cbn [fst snd]. intros [H|H]%elem_of_union; now apply elem_of_empty in H.
  - apply scan_text_names.
Qed.

Lemma scan_phase_names (files : list string) (w w1 : world')
    (cls ids : gset string) (x : string) :
  scan_phase read_text files (∅, ∅) w = (w1, Returned (cls, ids)) ->
  x ∈ cls ∪ ids ->
  x <> EmptyString /\ all_chars not_quote x = true.
Proof.
  intros H Hx. apply scan_phase_found in H as [Hc Hi]. cbn [fst snd] in Hc, Hi.
  subst cls ids.
  assert (Hin : exists p, x ∈ fst (scanned read_text (disk w) p)
                            ∪ snd (scanned read_text (disk w) p)).
  { apply elem_of_union in Hx as [Hx|Hx];
      apply elem_of_union in Hx as [Hx|Hx];
      try (now apply elem_of_empty in Hx);
      apply elem_of_union_list in Hx as (X & HX & Hx);
      apply list_elem_of_In, in_map_iff in HX as (p & <- & _);
      exists p; apply elem_of_union; auto. }
  destruct Hin as [p Hp]. now apply (scanned_names (disk w) p).
Qed.

(** *** Only the listed files are written *)

Section Frame.
Hypothesis write_frame :
  forall d path content other,
    other <> path ->
    read_text (fst (write_text d path content)) other = read_text d other.

Lemma rewrite_file_frame (path : string) (replacements : list (string * string))
    (w w' : world') (o : outcome unit) (other : string) :
  rewrite_file read_text write_text path replacements w = (w', o) ->
  other <> path ->
  read_text (disk w') other = read_text (disk w) other.
Proof.
  intros H Hne. unfold rewrite_file in H. cbn [disk logging] in H.
  destruct (read_text (disk w) path) as [e|content].
  - destruct e; cbn [handle logging] in H; injection H as <- _; reflexivity.
  - destruct (if ends_with ".css" path then _ else _) as [c|];
      [|injection H as <- _; reflexivity].
    cbn [random_state log] in H.
    pose proof (write_frame (disk w) path c other Hne) as Hf.
    destruct (write_text (disk w) path c) as [d [e|]]; cbn [fst] in Hf.
    + destruct e; cbn [handle logging disk] in H; injection H as <- _;
        exact Hf.
    + cbn [logging disk] in H. injection H as <- _. exact Hf.
Qed.

Lemma rewrite_phase_frame (replacements : list (string * string))
    (files : list string) (other : string) :
  other ∉ files ->
  forall (w w' : world') (o : outcome unit),
  rewrite_phase read_text write_text files replacements w = (w', o) ->
  read_text (disk w') other = read_text (disk w) other.
Proof.
  induction files as [|path more IH]; intros Hn w w' o; cbn [rewrite_phase].
  - now intros [= <- _].
  - apply not_elem_of_cons in Hn as [Hne Hn].
    destruct (rewrite_file read_text write_text path replacements w)
      as [w1 [u|e]] eqn:E; intros H.
    + rewrite (IH Hn _ _ _ H). now apply (rewrite_file_frame _ _ _ _ _ _ E).
    + injection H as <- _. now apply (rewrite_file_frame _ _ _ _ _ _ E).
Qed.

Lemma mapping_phase_disk (cls ids : gset string) (w : world') :
  disk (fst (mapping_phase randbelow set_order cls ids w)) = disk w /\
  log (fst (mapping_phase randbelow set_order cls ids w)) = log w.
Proof.
  unfold mapping_phase.
  destruct (assign _ _ _ _) as [r1 g1]. destruct (assign _ _ _ _) as [r2 g2].
  now split.
Qed.

Lemma process_files_frame (files : list string) (w w' : world')
    (o : outcome unit) (other : string) :
  process_files read_text write_text randbelow set_order files w = (w', o) ->
  other ∉ files ->
  read_text (disk w') other = read_text (disk w) other.
Proof.
  unfold process_files. intros H Hn.
  destruct (scan_phase read_text files (∅, ∅) w) as [w1 [[cls ids]|e1]] eqn:Hs;
    apply scan_phase_outcome in Hs as (_ & Hd1 & _).
  - pose proof (mapping_phase_disk cls ids w1) as [Hd2 _].
    destruct (mapping_phase randbelow set_order cls ids w1) as [w2 repl].
    cbn [fst] in Hd2.
    destruct (rewrite_phase _ _ _ _ _) as [w3 [u|e3]] eqn:Hr;
      apply (rewrite_phase_frame _ _ other Hn) in Hr; cbn [disk] in Hr;
      injection H as <- _; cbn [disk]; now rewrite Hr, Hd2, Hd1.
  - injection H as <- _. now rewrite Hd1.
Qed.

Lemma rewrite_file_unreadable (path : string)
    (replacements : list (string * string)) (w w' : world') (o : outcome unit)
    (other : string) (e : exn) :
  rewrite_file read_text write_text path replacements w = (w', o) ->
  read_text (disk w) other = inl e ->
  read_text (disk w') other = inl e.
Proof.
  intros H He. destruct (String.eqb other path) eqn:E.
  - apply String.eqb_eq in E as ->. unfold rewrite_file in H.
    cbn [disk logging] in H. rewrite He in H.
    destruct e; cbn [handle logging] in H; injection H as <- _; exact He.
  - apply String.eqb_neq in E.
    now rewrite (rewrite_file_frame _ _ _ _ _ _ H E).
Qed.

Lemma rewrite_phase_unreadable (replacements : list (string * string))
    (files : list string) (other : string) (e : exn) :
  forall (w w' : world') (o : outcome unit),
  rewrite_phase read_text write_text files replacements w = (w', o) ->
  read_text (disk w) other = inl e ->
  read_text (disk w') other = inl e.
Proof.
  induction files as [|path more IH]; intros w w' o; cbn [rewrite_phase].
  - now intros [= <- _].
  - destruct (rewrite_file read_text write_text path replacements w)
      as [w1 [u|e1]] eqn:E; intros H He.
    + apply (IH _ _ _ H). now apply (rewrite_file_unreadable _ _ _ _ _ _ _ E).
    + injection H as <- _. now apply (rewrite_file_unreadable _ _ _ _ _ _ _ E).
Qed.

Lemma process_files_unreadable (files : list string) (w w' : world')
    (o : outcome unit) (other : string) (e : exn) :
  process_files read_text write_text randbelow set_order files w = (w', o) ->
  read_text (disk w) other = inl e ->
  read_text (disk w') other = inl e.
Proof.
  unfold process_files. intros H He.
  destruct (scan_phase read_text files (∅, ∅) w) as [w1 [[cls ids]|e1]] eqn:Hs;
    apply scan_phase_outcome in Hs as (_ & Hd1 & _).
  - pose proof (mapping_phase_disk cls ids w1) as [Hd2 _].
    destruct (mapping_phase randbelow set_order cls ids w1) as [w2 repl].
    cbn [fst] in Hd2.
    destruct (rewrite_phase _ _ _ _ _) as [w3 [u|e3]] eqn:Hr;
      apply (rewrite_phase_unreadable _ _ other e) in Hr;
      cbn [disk] in Hr |- *; try (now rewrite Hd2, Hd1);
      injection H as <- _; exact Hr.
  - injection H as <- _. now rewrite Hd1.
Qed.

End Frame.

(** *** The substitutions never fail *)

Lemma rewrite_file_raised (path : string) (replacements : list (string * string))
    (w w' : world') (e : exn) :
  plain_tokens replacements ->
  rewrite_file read_text write_text path replacements w = (w', Raised e) ->
  (exists d, read_text d path = inl e) \/
  (exists d content, snd (write_text d path content) = Some e).
Proof.
  intros Hp H.
  destruct (read_text (disk w) path) as [e0|content] eqn:Er.
  - destruct (caught e0) eqn:Hc.
    + rewrite (rewrite_file_read_caught _ _ _ _ _ _ Er Hc) in H. discriminate.
    + rewrite (rewrite_file_read_uncaught _ _ _ _ _ _ Er Hc) in H.
      injection H as _ <-. left. eauto.
  - rewrite (rewrite_file_write _ _ _ _ _ _ Hp Er) in H.
    destruct (write_text (disk w) path _) as [d [e0|]] eqn:Ew; [|discriminate].
    destruct (caught e0); [discriminate|]. injection H as _ <-.
    right. exists (disk w). eexists. now rewrite Ew.
Qed.

Lemma rewrite_phase_raised (replacements : list (string * string))
    (files : list string) :
  plain_tokens replacements ->
  forall (w w' : world') (e : exn),
  rewrite_phase read_text write_text files replacements w = (w', Raised e) ->
  exists path,
    (exists d, read_text d path = inl e) \/
    (exists d content, snd (write_text d path content) = Some e).
Proof.
  intros Hp. induction files as [|path more IH]; intros w w' e;
    cbn [rewrite_phase]; [discriminate|].
  destruct (rewrite_file read_text write_text path replacements w)
    as [w1 [u|e1]] eqn:E; intros H.
  - now apply IH in H.
  - injection H as _ <-. exists path. now apply (rewrite_file_raised _ _ _ _ _ Hp E).
Qed.

Lemma process_files_no_re_error (files : list string) (w w' : world') (e : exn) :
  (forall d path, read_text d path <> inl ReError) ->
  (forall d path content, snd (write_text d path content) <> Some ReError) ->
  process_files read_text write_text randbelow set_order files w
    = (w', Raised e) ->
  e <> ReError.
Proof.
  intros Hr Hw. unfold process_files.
  destruct (scan_phase read_text files (∅, ∅) w) as [w1 [[cls ids]|e1]] eqn:Hs.
  - pose proof (mapping_phase_plain randbelow set_order cls ids w1) as Hp.
    destruct (mapping_phase randbelow set_order cls ids w1) as [w2 repl].
    cbn [snd] in Hp.
    destruct (rewrite_phase _ _ _ _ _) as [w3 [u|e3]] eqn:Hrw; [discriminate|].
    intros [= _ <-] ->.
    apply (rewrite_phase_raised _ _ Hp) in Hrw
      as (path & [(d & H)|(d & c & H)]).
    + now apply (Hr d path).
    + now apply (Hw d path c).
  - apply scan_phase_outcome in Hs as (_ & _ & _ & path & _ & H).
    intros [= _ <-] ->. now apply (Hr (disk w) path).
Qed.

End RunFacts.

Section SheetAlone.
Import Re Walk Spec App.
Context {fsys rng : Type}.
Variable randbelow : nat -> rng -> nat * rng.
Variable set_order : gset string -> list string.
Hypothesis randbelow_range : forall n g, 0 < n -> fst (randbelow n g) < n.
Hypothesis set_order_perm : forall S, set_order S ≡ₚ elements S.

Lemma alnum_ident (t : string) : all_chars is_alnum t = true -> ident t.
Proof.
  apply all_chars_impl. intros c Hc. unfold css_ident_char. now rewrite Hc.
Qed.

Lemma token_identifier (g : rng) :
  ident (fst (generate_random_string randbelow g)) /\
  fst (generate_random_string randbelow g) <> EmptyString.
Proof.
  destruct (choices_alnum randbelow 8 g randbelow_range) as [Hl Ha].
  unfold generate_random_string. split; [now apply alnum_ident|].
  intros E. rewrite E in Hl. discriminate.
Qed.

Lemma sheet_dictionary (content : string) (w : @world fsys rng) :
  identifiers
    (snd (mapping_phase randbelow set_order
            (fst (find_classnames_ids_css content))
            (snd (find_classnames_ids_css content)) w)).
Proof.
  unfold identifiers. apply Forall_and. split.
  - destruct (mapping_phase_keys randbelow set_order set_order_perm
                (fst (find_classnames_ids_css content))
                (snd (find_classnames_ids_css content)) w) as [_ Hk].
    apply Forall_forall. intros [K T] Hin. cbn [fst].
    assert (HK : K ∈ fst (find_classnames_ids_css content)
                   ∪ snd (find_classnames_ids_css content)).
    { apply Hk. apply list_elem_of_fmap. now exists (K, T). }
    rewrite find_classnames_ids_css_found in HK. cbn [fst snd] in HK.
    apply elem_of_union in HK as [HK|HK];
      apply css_found_iff in HK as (pre & d & post & _ & Hx & Hi & _);
      try reflexivity; now split.
  - apply (mapping_phase_values randbelow set_order
             (fun t => ident t /\ t <> EmptyString)).
    apply token_identifier.
Qed.

End SheetAlone.

Section ClassName.
Import Re Walk Spec App.

Lemma className_suffix (a : anchor) (pre u : string) :
  In a (class_anchors ++ id_anchors) ->
  pre +:+ "className=" = u +:+ opener a -> False.
Proof.
  intros Ha E.
  apply app_eq_app in E as [(w & -> & E)|(w & Hw & -> & E)];
    symmetry in E; pose proof (suffix_inv _ _ _ E) as Ew;
    unfold class_anchors, id_anchors in Ha; cbn [app In] in Ha;
    repeat (destruct Ha as [<-|Ha]); try contradiction; cbn [opener] in *;
    vm_compute in Ew; subst w; try discriminate E; congruence.
Qed.

Lemma className_not_scanned (pre x post : string) (q1 q2 : ascii) :
  all_chars not_quote pre = true -> all_chars not_quote x = true ->
  x <> EmptyString -> all_chars not_quote post = true ->
  quote q1 = true -> quote q2 = true ->
  find_classnames_ids
    (pre +:+ "className=" +:+ String q1 (x +:+ String q2 post)) = (∅, ∅).
Proof.
  intros Hpre Hx Hx0 Hpost Hq1 Hq2. rewrite find_classnames_ids_found.
  assert (HA : all_chars not_quote (pre +:+ "className=") = true)
    by (rewrite all_chars_app, Hpre; reflexivity).
  assert (Hall : forall a y, In a (class_anchors ++ id_anchors) ->
    ~ In y (captures (capture_rule a)
              ((pre +:+ "className=") +:+ String q1 (x +:+ String q2 post)))).
  { intros a y Ha Hin. destruct (scanner_opener a Ha) as (Ho & Ho0 & _).
    destruct (single_value_capture _ x post q1 q2 a y
                HA Hx Hx0 Hpost Hq1 Hq2 Ho Ho0 Hin) as (u & dc & _ & E1 & _).
    now apply (className_suffix a pre u Ha). }
  rewrite <- sapp_assoc.
  f_equal; apply set_eq; intros y; rewrite elem_of_found_at, elem_of_empty;
    (split; [|contradiction]); intros (a & Ha & Hin);
    apply (Hall a y); try assumption; apply in_or_app; auto.
Qed.

Lemma className_rewritten (pre x t post : string) (q1 q2 : ascii) :
  all_chars not_quote pre = true -> ident x -> ident t ->
  all_chars not_quote post = true ->
  quote q1 = true -> quote q2 = true ->
  replace_classnames_ids
    (pre +:+ "className=" +:+ String q1 (x +:+ String q2 post)) [(x, t)]
  = Some (pre +:+ "className=" +:+ dq +:+ t +:+ dq +:+ post).
Proof.
  intros Hpre Hx Ht Hpost Hq1 Hq2.
  rewrite replace_all_rewrite by now apply single_plain.
  unfold rewrite_all. cbn [fold_left fst snd].
  rewrite <- shaped_attribute.
  rewrite occurrence_in_context; auto;
    try (cbn [rewrite_anchors In]; tauto); try reflexivity;
    try (intros; discriminate).
  now rewrite emitted_attribute, rewrite_one_plain.
Qed.

End ClassName.

Section Boundary.
Import Re Walk Spec App.

Lemma walk_keep_prev {A : Type} (h : rule A) (x r : string) (p : option ascii) :
  (forall u v, x = u +:+ v -> v <> EmptyString ->
     h (last_opt p u) (v +:+ r) = None) ->
  walk h 0 p (x +:+ r) = keep_all x ++ walk h 0 (last_opt p x) r.
Proof.
  revert p. induction x as [|c x IH]; intros p H; [reflexivity|].
  assert (E := H "" (String c x) eq_refl ltac:(discriminate)).
  cbn [String.append last_opt] in E. cbn [String.append walk]. rewrite E.
  cbn [keep_all app last_opt]. f_equal. apply IH.
  intros u v -> Hv. apply (H (String c u) v); auto.
Qed.

(** A rule passes over an occurrence at its own anchor when it is barred at
    its start, by the word boundary or by another identifier. *)
Lemma quoted_barred (a0 : anchor) (K T X pre post dc : string) (q1 q2 : ascii) :
  In a0 rewrite_anchors -> all_chars not_quote pre = true ->
  quote q1 = true -> quote q2 = true -> dot_part a0 dc -> ident X ->
  quoted_rule a0 K T (last_opt None pre) (shaped a0 q1 dc X q2 +:+ post) = None ->
  rewrite (quoted_rule a0 K T) (pre +:+ shaped a0 q1 dc X q2 +:+ post) =
  pre +:+ shaped a0 q1 dc X q2 +:+ rewrite (quoted_rule a0 K T) post.
Proof.
  intros Ha0 Hpre Hq1 Hq2 Hd HX Hbar. unfold rewrite, rewrite_from.
  rewrite <- !sapp_assoc, walk_keep_prev, render_keep_all.
  - f_equal. f_equal. apply walk_word'. intros s'. apply quoted_word.
    rewrite last_opt_app. now rewrite shaped_last.
  - intros u v E Hv.
    apply app_eq_app in E as [(w & -> & E)|(w & Hw & E & ->)].
    + destruct w as [|c w].
      * cbn [String.append] in E. subst v. now rewrite sapp_nil_r.
      * apply (quoted_none_inside a0 a0 K T X post dc q1 q2 Ha0 Ha0 Hq1 Hq2 Hd
                 (String c w) v _ HX E); [discriminate|assumption].
    + rewrite sapp_assoc.
      now apply (quoted_none_in_pre a0 a0 K T X pre post dc q1 q2 Ha0 Ha0
                   Hpre Hq1 u w).
Qed.

Lemma quoted_rule_bounded (a : anchor) (K T : string) (p : option ascii)
    (s : string) :
  bounded a = true -> word_opt p = true -> quoted_rule a K T p s = None.
Proof.
  intros Hb Hp. destruct (quoted_rule a K T p s) as [[rep n]|] eqn:E;
    [exfalso|reflexivity].
  apply quoted_rule_inv in E as (_ & _ & _ & _ & _ & _ & _ & _ & _ & _ & H).
  rewrite (H Hb) in Hp. discriminate.
Qed.

Lemma quoted_rule_other_key (a : anchor) (K T X post dc : string) (q1 q2 : ascii)
    (p : option ascii) :
  In a rewrite_anchors -> quote q1 = true -> quote q2 = true ->
  dot_part a dc -> ident K -> ident X -> K <> X ->
  quoted_rule a K T p (shaped a q1 dc X q2 +:+ post) = None.
Proof.
  intros Ha Hq1 Hq2 Hd HK HX Hne.
  destruct (quoted_rule a K T p _) as [[rep n]|] eqn:E; [exfalso|reflexivity].
  apply quoted_rule_inv in E
    as (q1' & dc' & q2' & r & Hq1' & Hq2' & Hd' & E & _).
  apply Hne. symmetry.
  now apply (shaped_unique a a q1 q2 q1' q2' dc dc' X K post r).
Qed.

Lemma anchor_eq_dec (a b : anchor) : {a = b} + {a <> b}.
Proof. decide equality; try apply Bool.bool_dec; apply String.string_dec. Qed.

(** One turn of the rewriter for another key passes over the occurrence. *)
Lemma rewrite_one_skip (a0 : anchor) (K T X pre post dc : string) (q1 q2 : ascii) :
  In a0 rewrite_anchors -> all_chars not_quote pre = true ->
  quote q1 = true -> quote q2 = true -> dot_part a0 dc ->
  ident K -> ident X -> K <> X ->
  rewrite_one K T (pre +:+ shaped a0 q1 dc X q2 +:+ post) =
  pre +:+ shaped a0 q1 dc X q2 +:+ rewrite_one K T post.
Proof.
  intros Ha0 Hpre Hq1 Hq2 Hd HK HX Hne.
  assert (Hstep : forall a r, In a rewrite_anchors ->
    rewrite (quoted_rule a K T) (pre +:+ shaped a0 q1 dc X q2 +:+ r) =
    pre +:+ shaped a0 q1 dc X q2 +:+ rewrite (quoted_rule a K T) r).
  { intros a r Ha. destruct (anchor_eq_dec a a0) as [->|Hd0].
    - apply quoted_barred; auto. now apply quoted_rule_other_key.
    - now apply quoted_pass. }
  unfold rewrite_one, rewrite_anchors. cbn [fold_left].
  rewrite !Hstep by (cbn [rewrite_anchors In]; tauto). reflexivity.
Qed.

End Boundary.

Section WholeDictionary.
Import Re Walk Spec App.

Lemma rewrite_all_skip (l : list (string * string)) (a0 : anchor)
    (X pre dc : string) (q1 q2 : ascii) :
  In a0 rewrite_anchors -> all_chars not_quote pre = true ->
  quote q1 = true -> quote q2 = true -> dot_part a0 dc -> ident X ->
  Forall (fun kv => ident (fst kv)) l -> X ∉ l.*1 ->
  forall post,
  rewrite_all l (pre +:+ shaped a0 q1 dc X q2 +:+ post) =
  pre +:+ shaped a0 q1 dc X q2 +:+ rewrite_all l post.
Proof.
  intros Ha0 Hpre Hq1 Hq2 Hd HX. unfold rewrite_all.
  induction l as [|[K T] l IH]; intros Hl Hn post; cbn [fold_left fst snd];
    [reflexivity|].
  apply Forall_cons in Hl as [HK Hl]. cbn [fst] in HK.
  cbn [fmap list_fmap fst] in Hn. apply not_elem_of_cons in Hn as [Hne Hn].
  rewrite rewrite_one_skip by auto. now apply IH.
Qed.

Lemma independent_keys (l : list (string * string)) :
  independent l -> Forall (fun kv => ident (fst kv)) l.
Proof.
  intros (_ & H & _). eapply Forall_impl; [exact H|]. now intros kv [Hk _].
Qed.

Lemma independent_head (K T : string) (l : list (string * string)) :
  independent ((K, T) :: l) ->
  ident K /\ ident T /\ (K ∉ l.*1) /\ (T ∉ l.*1) /\ T <> K.
Proof.
  intros (Hnd & Hf & Hi). apply Forall_cons in Hf as [[HK HT] _].
  cbn [fmap list_fmap fst] in Hnd. apply NoDup_cons in Hnd as [Hn _].
  repeat split; try assumption.
  - intros Hin. apply list_elem_of_fmap in Hin as ([K' T'] & E & Hin).
    apply (Hi (K, T) (K', T')); [left|now right|exact E].
  - apply (Hi (K, T) (K, T)); left.
Qed.

(** With a whole dictionary, an occurrence of a key behind a text without
    quotes is written anew with the token of that key, and the rest is
    rewritten as it would be alone. *)
Lemma rewrite_all_occurrence (l : list (string * string)) (a0 : anchor)
    (x T pre dc : string) :
  independent l -> (x, T) ∈ l ->
  In a0 rewrite_anchors -> all_chars not_quote pre = true -> dot_part a0 dc ->
  (bounded a0 = true -> word_opt (last_opt None pre) = false) ->
  forall (q1 q2 : ascii) (post : string),
  quote q1 = true -> quote q2 = true ->
  rewrite_all l (pre +:+ shaped a0 q1 dc x q2 +:+ post) =
  pre +:+ emitted a0 T +:+ rewrite_all l post.
Proof.
  intros Hi Hin Ha0 Hpre Hd Hb.
  induction l as [|[K0 T0] l IH]; intros q1 q2 post Hq1 Hq2;
    [now apply elem_of_nil in Hin|].
  destruct (independent_head _ _ _ Hi) as (HK0 & HT0 & HnK & HnT & HTK).
  pose proof (independent_tail _ _ Hi) as Hi'.
  change (rewrite_all ((K0, T0) :: l) ?c)
    with (rewrite_all l (rewrite_one K0 T0 c)).
  apply elem_of_cons in Hin as [[= <- <-]|Hin].
  - rewrite occurrence_in_context by auto.
    rewrite emitted_shaped.
    apply rewrite_all_skip; auto; try reflexivity;
      [apply dot_part_emitted|now apply independent_keys].
  - assert (Hx : ident x).
    { destruct Hi' as (_ & Hf & _). rewrite Forall_forall in Hf.
      now destruct (Hf _ Hin). }
    assert (Hne : K0 <> x).
    { intros ->. apply HnK. apply list_elem_of_fmap. now exists (x, T). }
    rewrite rewrite_one_skip by auto. now apply IH.
Qed.

Lemma rewrite_one_css_skip (m d : ascii) (K T X pre post : string) :
  css_marker m = true -> unmarked pre -> ident K -> ident X ->
  css_sep d = true -> K <> X ->
  rewrite_one_css K T (pre +:+ String m (X +:+ String d post)) =
  pre +:+ String m (X +:+ String d (rewrite_one_css K T post)).
Proof.
  intros Hm Hpre HK HX Hd Hne.
  assert (Hstep : forall m' r, css_marker m' = true ->
    rewrite (css_rule m' K T) (pre +:+ String m (X +:+ String d r)) =
    pre +:+ String m (X +:+ String d (rewrite (css_rule m' K T) r))).
  { intros m' r Hm'. rewrite css_keep_unmarked by assumption.
    rewrite css_rewrite_at; auto; [|now apply sep_not_ident].
    apply String.eqb_neq in Hne. rewrite (String.eqb_sym X K), Hne.
    rewrite andb_false_r. cbn [andb]. f_equal. f_equal. f_equal.
    apply css_rewrite_miss. apply css_rule_none.
    apply marker_differs; [assumption|].
    now destruct (sep_char_facts d Hd) as (-> & _). }
  unfold rewrite_one_css. now rewrite !Hstep.
Qed.

Lemma rewrite_all_css_skip (l : list (string * string)) (m d : ascii)
    (X pre : string) :
  css_marker m = true -> unmarked pre -> ident X -> css_sep d = true ->
  Forall (fun kv => ident (fst kv)) l -> X ∉ l.*1 ->
  forall post,
  rewrite_all_css l (pre +:+ String m (X +:+ String d post)) =
  pre +:+ String m (X +:+ String d (rewrite_all_css l post)).
Proof.
  intros Hm Hpre HX Hd. unfold rewrite_all_css.
  induction l as [|[K T] l IH]; intros Hl Hn post; cbn [fold_left fst snd];
    [reflexivity|].
  apply Forall_cons in Hl as [HK Hl]. cbn [fst] in HK.
  cbn [fmap list_fmap fst] in Hn. apply not_elem_of_cons in Hn as [Hne Hn].
  rewrite rewrite_one_css_skip by auto. now apply IH.
Qed.

Lemma rewrite_all_css_occurrence (l : list (string * string)) (m d : ascii)
    (x T pre : string) :
  independent l -> (x, T) ∈ l ->
  css_marker m = true -> unmarked pre -> css_sep d = true ->
  forall post,
  rewrite_all_css l (pre +:+ String m (x +:+ String d post)) =
  pre +:+ String m (T +:+ String d (rewrite_all_css l post)).
Proof.
  intros Hi Hin Hm Hpre Hd.
  induction l as [|[K0 T0] l IH]; intros post; [now apply elem_of_nil in Hin|].
  destruct (independent_head _ _ _ Hi) as (HK0 & HT0 & HnK & HnT & HTK).
  pose proof (independent_tail _ _ Hi) as Hi'.
  change (rewrite_all_css ((K0, T0) :: l) ?c)
    with (rewrite_all_css l (rewrite_one_css K0 T0 c)).
  apply elem_of_cons in Hin as [[= <- <-]|Hin].
  - rewrite css_occurrence_in_context by auto.
    apply rewrite_all_css_skip; auto. now apply independent_keys.
  - assert (Hx : ident x).
    { destruct Hi' as (_ & Hf & _). rewrite Forall_forall in Hf.
      now destruct (Hf _ Hin). }
    assert (Hne : K0 <> x).
    { intros ->. apply HnK. apply list_elem_of_fmap. now exists (x, T). }
    rewrite rewrite_one_css_skip by auto. now apply IH.
Qed.

End WholeDictionary.

Section CssClosedForm.
Import Re Walk Spec App.

Lemma css_turn_head (K T : string) (e : ascii) (r : string) :
  exists z, rewrite_one_css K T (String e r) = String e z.
Proof.
  unfold rewrite_one_css.
  destruct (css_rewrite_head "." K T e r) as [z ->].
  apply css_rewrite_head.
Qed.

Lemma css_all_head (l : list (string * string)) (e : ascii) (r : string) :
  exists z, rewrite_all_css l (String e r) = String e z.
Proof.
  unfold rewrite_all_css. revert r.
  induction l as [|[K T] l IH]; intros r; cbn [fold_left fst snd]; [eauto|].
  destruct (css_turn_head K T e r) as [z ->]. apply IH.
Qed.

Lemma css_all_nil (l : list (string * string)) :
  rewrite_all_css l EmptyString = EmptyString.
Proof.
  unfold rewrite_all_css. induction l as [|[K T] l IH]; [reflexivity|].
  cbn [fold_left fst snd]. exact IH.
Qed.

Lemma css_turn_at (a : ascii) (K T x r : string) :
  ident K -> ident T -> ident x -> c_stop css_ident_char r ->
  rewrite_one_css K T (String a (x +:+ r)) =
  String a ((if css_marker a && String.eqb x K && sep_ahead r then T else x)
              +:+ rewrite_one_css K T r).
Proof.
  intros HK HT Hx Hr. unfold rewrite_one_css.
  rewrite (css_rewrite_at "." a K T x r) by auto.
  set (x1 := if Ascii.eqb "." a && String.eqb x K
                 && match r with String d _ => css_sep d | "" => false end
             then T else x).
  assert (Hx1 : ident x1) by (unfold x1; now destruct (_ && _ && _)).
  assert (Hr1 : c_stop css_ident_char (rewrite (css_rule "." K T) r) /\
                sep_ahead (rewrite (css_rule "." K T) r) = sep_ahead r).
  { destruct r as [|e r']; [now split|].
    destruct (css_rewrite_head "." K T e r') as [z ->]. now split. }
  destruct Hr1 as [Hr1 Hs1].
  rewrite (css_rewrite_at "#" a K T x1 _) by auto.
  f_equal. f_equal.
  change (match rewrite (css_rule "." K T) r with
          | String d _ => css_sep d | "" => false end)
    with (sep_ahead (rewrite (css_rule "." K T) r)).
  rewrite Hs1. unfold x1, css_marker.
  change (match r with String d _ => css_sep d | "" => false end)
    with (sep_ahead r).
  rewrite (Ascii.eqb_sym "." a), (Ascii.eqb_sym "#" a).
  destruct (Ascii.eqb a ".") eqn:E1.
  - apply Ascii.eqb_eq in E1 as ->. cbn [Ascii.eqb andb orb].
    simpl. now destruct (String.eqb x K && sep_ahead r).
  - cbn [andb orb]. reflexivity.
Qed.

Lemma rename_one_ident (K T x : string) :
  ident T -> ident x -> ident (rename_one K T x).
Proof. intros HT Hx. unfold rename_one. now destruct (String.eqb x K). Qed.

Lemma rename_all_ident (l : list (string * string)) (x : string) :
  Forall (fun kv => ident (fst kv) /\ ident (snd kv)) l ->
  ident x -> ident (rename_all l x).
Proof.
  unfold rename_all. revert x.
  induction l as [|[K T] l IH]; intros x Hl Hx; cbn [fold_left fst snd];
    [assumption|].
  apply Forall_cons in Hl as [[_ HT] Hl]. apply IH; [assumption|].
  now apply rename_one_ident.
Qed.

(** The CSS rewriter at a position: the run of identifier characters
    behind a marker and before a separator is taken through the
    substitutions; any other run is kept. *)
Lemma css_all_at (l : list (string * string)) (a : ascii) :
  Forall (fun kv => ident (fst kv) /\ ident (snd kv)) l ->
  forall x r, ident x -> c_stop css_ident_char r ->
  rewrite_all_css l (String a (x +:+ r)) =
  String a ((if css_marker a && sep_ahead r then rename_all l x else x)
              +:+ rewrite_all_css l r).
Proof.
  unfold rewrite_all_css, rename_all.
  induction l as [|[K T] l IH]; intros Hl x r Hx Hr; cbn [fold_left fst snd].
  - now destruct (css_marker a && sep_ahead r).
  - apply Forall_cons in Hl as [[HK HT] Hl]. cbn [fst snd] in HK, HT.
    rewrite css_turn_at by assumption.
    assert (Hr1 : c_stop css_ident_char (rewrite_one_css K T r) /\
                  sep_ahead (rewrite_one_css K T r) = sep_ahead r).
    { destruct r as [|e r']; [now split|].
      destruct (css_turn_head K T e r') as [z ->]. now split. }
    destruct Hr1 as [Hr1 Hs1].
    rewrite IH; auto.
    + rewrite Hs1. f_equal. f_equal. unfold rename_one.
      destruct (css_marker a); [|reflexivity].
      destruct (sep_ahead r); rewrite ?andb_false_r, ?andb_true_r; reflexivity.
    + now destruct (_ && _ && _).
Qed.

Lemma token_of_twice (l : list (string * string)) (x : string) :
  independent l -> token_of l (token_of l x) = token_of l x.
Proof.
  intros Hi. destruct (token_of_cases l x) as [(t & Ht & ->)|(Hn & ->)].
  - apply token_of_fixed. destruct Hi as (_ & _ & Hno).
    intros Hin. apply list_elem_of_fmap in Hin as ([K' T'] & E & Hin).
    now apply (Hno (x, t) (K', T') Ht Hin).
  - now apply token_of_fixed.
Qed.

Lemma rewrite_all_css_twice (l : list (string * string)) :
  independent l ->
  forall (n : nat) (c : string), String.length c <= n ->
  rewrite_all_css l (rewrite_all_css l c) = rewrite_all_css l c.
Proof.
  intros Hi. pose proof Hi as (_ & Hf & _).
  induction n as [|n IH]; intros c Hlen.
  - destruct c; [|simpl in Hlen; lia]. now rewrite !css_all_nil.
  - destruct c as [|a t]; [now rewrite !css_all_nil|].
    cbn [String.length] in Hlen.
    destruct (span css_ident_char t) as [x r] eqn:Es.
    pose proof (span_app _ _ _ _ Es) as ->.
    pose proof (span_all _ _ _ _ Es) as Hx.
    assert (Hr : c_stop css_ident_char r).
    { destruct r as [|e r1]; [exact I|]. simpl. eapply span_stop; eauto. }
    clear Es. rewrite slength_app in Hlen.
    rewrite (css_all_at l a Hf x r Hx Hr).
    assert (Hr1 : c_stop css_ident_char (rewrite_all_css l r) /\
                  sep_ahead (rewrite_all_css l r) = sep_ahead r).
    { destruct r as [|e r']; [rewrite css_all_nil; now split|].
      destruct (css_all_head l e r') as [z ->]. now split. }
    destruct Hr1 as [Hr1 Hs1].
    rewrite css_all_at; auto.
    + rewrite Hs1, IH by lia. f_equal. f_equal.
      destruct (css_marker a && sep_ahead r); [|reflexivity].
      rewrite !rename_all_token by assumption. now apply token_of_twice.
    + destruct (css_marker a && sep_ahead r); [|assumption].
      now apply rename_all_ident.
Qed.

End CssClosedForm.

Section TokenStream.
Import Re Walk Spec App.
Context {fsys rng : Type}.
Variable randbelow : nat -> rng -> nat * rng.
Variable set_order : gset string -> list string.

Lemma tokens_app (a b : nat) (g : rng) :
  tokens randbelow (a + b) g =
  (fst (tokens randbelow a g)
     ++ fst (tokens randbelow b (snd (tokens randbelow a g))),
   snd (tokens randbelow b (snd (tokens randbelow a g)))).
Proof.
  revert g. induction a as [|a IH]; intros g; cbn [tokens Nat.add].
  - cbn [fst snd app]. now destruct (tokens randbelow b g).
  - destruct (generate_random_string randbelow g) as [t g1]. rewrite IH.
    destruct (tokens randbelow a g1) as [ts g2]. reflexivity.
Qed.

Lemma tokens_length (n : nat) (g : rng) :
  length (fst (tokens randbelow n g)) = n.
Proof.
  revert g. induction n as [|n IH]; intros g; cbn [tokens]; [reflexivity|].
  destruct (generate_random_string randbelow g) as [t g1].
  specialize (IH g1). destruct (tokens randbelow n g1) as [ts g2].
  cbn [fst length] in *. now rewrite IH.
Qed.

Lemma assign_tokens (names : list string) :
  NoDup names ->
  forall (l : list (string * string)) (g : rng),
  assign randbelow names l g =
  (l ++ zip (filter (fun x => x ∉ l.*1) names)
          (fst (tokens randbelow
                  (length (filter (fun x => x ∉ l.*1) names)) g)),
   snd (tokens randbelow (length (filter (fun x => x ∉ l.*1) names)) g)).
Proof.
  induction names as [|name more IH]; intros Hnd l g; cbn [assign].
  - rewrite filter_nil. cbn. now rewrite app_nil_r.
  - apply NoDup_cons in Hnd as [Hn Hnd].
    destruct (has_key name l) eqn:E.
    + apply has_key_spec in E. rewrite IH by assumption.
      rewrite filter_cons_False; [reflexivity|]. intros H. contradiction.
    + assert (Hk : name ∉ l.*1).
      { intros H. apply has_key_spec in H. congruence. }
      rewrite filter_cons_True by assumption. cbn [length tokens].
      destruct (generate_random_string randbelow g) as [token g'].
      rewrite IH by assumption.
      assert (Ef : filter (fun x => x ∉ (l ++ [(name, token)]).*1) more
                   = filter (fun x => x ∉ l.*1) more).
      { apply filter_agree. intros x Hx. rewrite fmap_app.
        cbn [fmap list_fmap fst].
        rewrite elem_of_app, list_elem_of_singleton.
        split; [tauto|]. intros H [H'|H']; [contradiction|]. now subst x. }
      rewrite Ef.
      destruct (tokens randbelow _ g') as [ts g2]. cbn [fst snd zip zip_with].
      now rewrite <- app_assoc.
Qed.

Hypothesis set_order_perm : forall S, set_order S ≡ₚ elements S.

Lemma filter_none_out (l : list string) :
  filter (fun x => x ∉ ([] : list string)) l = l.
Proof.
  induction l as [|a l IH]; [reflexivity|].
  rewrite filter_cons_True; [now rewrite IH|]. apply not_elem_of_nil.
Qed.

(** The dictionary is the list of keys, class names first, paired with the
    tokens the generator yields one after the other. *)
Lemma mapping_phase_tokens (cls ids : gset string) (w : @world fsys rng) :
  mapping_phase randbelow set_order cls ids w =
  (World (disk w)
     (snd (tokens randbelow
             (length (set_order cls ++ filter (fun x => x ∉ cls) (set_order ids)))
             (random_state w)))
     (log w),
   zip (set_order cls ++ filter (fun x => x ∉ cls) (set_order ids))
     (fst (tokens randbelow
             (length (set_order cls ++ filter (fun x => x ∉ cls) (set_order ids)))
             (random_state w)))).
Proof.
  unfold mapping_phase.
  rewrite (assign_tokens (set_order cls)
             (set_order_NoDup set_order set_order_perm cls) nil).
  cbn [fmap list_fmap app]. rewrite filter_none_out.
  rewrite (assign_tokens (set_order ids)
             (set_order_NoDup set_order set_order_perm ids)).
  assert (Ek : (zip (set_order cls)
                  (fst (tokens randbelow (length (set_order cls))
                          (random_state w)))).*1 = set_order cls).
  { apply fst_zip. now rewrite tokens_length. }
  rewrite Ek.
  assert (Ef : filter (fun x => x ∉ set_order cls) (set_order ids)
               = filter (fun x => x ∉ cls) (set_order ids)).
  { apply filter_agree. intros x _.
    now rewrite (elem_of_set_order set_order set_order_perm). }
  rewrite Ef, length_app, tokens_app. cbn [fst snd]. f_equal.
  symmetry. apply zip_with_app. now rewrite tokens_length.
Qed.

End TokenStream.


Section Skeleton.
Import Re Walk Spec App.

Lemma skeleton_app (a b : string) :
  skeleton (a +:+ b) = skeleton a +:+ skeleton b.
Proof.
  induction a as [|c a IH]; [reflexivity|]. cbn [String.append skeleton].
  destruct (css_ident_char c); [assumption|].
  cbn [String.append]. now rewrite IH.
Qed.

Lemma skeleton_ident (x : string) : ident x -> skeleton x = EmptyString.
Proof.
  unfold ident. induction x as [|c x IH]; [reflexivity|]. cbn [all_chars skeleton].
  intros [Hc Hx]%andb_true_iff. rewrite Hc. auto.
Qed.

Lemma rewrite_all_css_skeleton (l : list (string * string)) :
  Forall (fun kv => ident (fst kv) /\ ident (snd kv)) l ->
  forall (n : nat) (c : string), String.length c <= n ->
  skeleton (rewrite_all_css l c) = skeleton c.
Proof.
  intros Hf. induction n as [|n IH]; intros c Hlen.
  - destruct c; [|simpl in Hlen; lia]. now rewrite css_all_nil.
  - destruct c as [|a t]; [now rewrite css_all_nil|].
    cbn [String.length] in Hlen.
    destruct (span css_ident_char t) as [x r] eqn:Es.
    pose proof (span_app _ _ _ _ Es) as ->.
    pose proof (span_all _ _ _ _ Es) as Hx.
    assert (Hr : c_stop css_ident_char r).
    { destruct r as [|e r1]; [exact I|]. simpl. eapply span_stop; eauto. }
    clear Es. rewrite slength_app in Hlen.
    rewrite (css_all_at l a Hf x r Hx Hr).
    assert (HX : ident (if css_marker a && sep_ahead r
                        then rename_all l x else x)).
    { destruct (css_marker a && sep_ahead r); [|assumption].
      now apply rename_all_ident. }
    cbn [skeleton]. rewrite !skeleton_app, (skeleton_ident _ HX),
      (skeleton_ident _ Hx), IH by lia. reflexivity.
Qed.

End Skeleton.

Section Abort.
Import Re Walk Spec App.
Context {fsys rng : Type}.
Variable read_text : fsys -> string -> exn + string.
Variable write_text : fsys -> string -> string -> fsys * option exn.
Variable randbelow : nat -> rng -> nat * rng.
Variable set_order : gset string -> list string.

Lemma process_files_aborts (files : list string) (w : @world fsys rng)
    (path : string) (e : exn) :
  path ∈ files -> read_text (disk w) path = inl e -> caught e = false ->
  exists w' e',
    process_files read_text write_text randbelow set_order files w
      = (w', Raised e') /\
    disk w' = disk w.
Proof.
  intros Hp Hr Hc. unfold process_files.
  destruct (scan_phase read_text files (∅, ∅) w) as [w1 [[cls ids]|e1]] eqn:Hs;
    apply scan_phase_outcome in Hs as (_ & Hd & Ho).
  - rewrite (Ho path e Hp Hr) in Hc. discriminate.
  - exists w1, e1. now split.
Qed.

End Abort.

Section PageTwice.
Import Re Walk Spec App.

Lemma suffix_dec (pre o : string) :
  (exists u, pre = u +:+ o) \/ (forall u, pre <> u +:+ o).
Proof.
  induction pre as [|c t IH].
  - destruct o as [|d o]; [left; now exists ""|right].
    intros u E. destruct u; discriminate.
  - destruct (String.string_dec (String c t) o) as [E|N];
      [left; now exists ""|].
    destruct IH as [[u ->]|IH]; [left; now exists (String c u)|right].
    intros [|c' u] E; cbn [String.append] in E; [congruence|].
    injection E as _ E. now apply (IH u).
Qed.

Lemma first_quote_split (c : string) :
  all_chars not_quote c = true \/
  exists pre q r, c = pre +:+ String q r /\
                  all_chars not_quote pre = true /\ quote q = true.
Proof.
  destruct (span not_quote c) as [pre rest] eqn:Es.
  pose proof (span_app _ _ _ _ Es) as ->.
  pose proof (span_all _ _ _ _ Es) as Hpre.
  destruct rest as [|q r].
  - left. now rewrite sapp_nil_r.
  - right. exists pre, q, r. repeat split; [assumption|].
    apply span_stop in Es. unfold not_quote in Es.
    now apply negb_false_iff in Es.
Qed.

(** A rule that finds nothing in front of the first quote of a text keeps
    the text up to that quote. *)
Lemma first_quote_none (a : anchor) (K T pre r : string) (q : ascii) :
  In a rewrite_anchors ->
  all_chars not_quote pre = true -> quote q = true ->
  (forall u, pre = u +:+ opener a ->
     quoted_rule a K T (last_opt None u) (opener a +:+ String q r) = None) ->
  rewrite (quoted_rule a K T) (pre +:+ String q r) =
  pre +:+ String q (rewrite (quoted_rule a K T) r).
Proof.
  intros Ha Hpre Hq Hnone. unfold rewrite, rewrite_from.
  destruct (opener_facts a Ha) as (Ho & Hw & _).
  replace (pre +:+ String q r) with ((pre +:+ String q "") +:+ r)
    by (now rewrite snoc_app).
  rewrite walk_keep_prev, render_keep_all.
  - rewrite snoc_app. f_equal. f_equal. f_equal. apply walk_word'. intros s'.
    apply quoted_word. rewrite last_opt_snoc. simpl.
    now destruct (quote_char_facts q Hq) as [-> _].
  - intros u v E Hv.
    destruct (quoted_rule a K T (last_opt None u) (v +:+ r))
      as [[rep n]|] eqn:Eh; [exfalso|reflexivity].
    pose proof Eh as Einv.
    apply quoted_rule_inv in Einv
      as (q1 & dc & q2 & r' & Hq1 & Hq2 & Hd & Es & _).
    rewrite shaped_app in Es.
    apply app_eq_app in E as [(w & -> & E)|(w & Hw0 & -> & ->)].
    + destruct w as [|c w]; cbn [String.append] in E.
      * subst v. cbn [String.append] in Es.
        apply (opener_not_quote a q _ _ Ho) in Es; auto.
        intros E0. rewrite E0 in Hw. discriminate.
      * injection E as _ E. destruct w; destruct v; try discriminate.
        congruence.
    + rewrite snoc_app in Es.
      rewrite all_chars_app in Hpre. apply andb_true_iff in Hpre as [_ Hwq].
      destruct (split_unique quote w (opener a) r _ q q1 Hwq Ho Hq Hq1 Es)
        as (Ew & _ & _). subst w.
      rewrite snoc_app, (Hnone u eq_refl) in Eh. discriminate.
Qed.

(** If a rule finds its occurrence behind an opener and a quote in a
    rewritten text, it finds it there in the text. *)
Lemma occurrence_reflected (a a' : anchor) (K T K' T' r : string) (q : ascii)
    (p : option ascii) :
  In a rewrite_anchors -> In a' rewrite_anchors -> ident K ->
  quoted_rule a K T p (opener a +:+ String q r) = None ->
  quoted_rule a K T p
    (opener a +:+ String q (rewrite (quoted_rule a' K' T') r)) = None.
Proof.
  intros Ha Ha' HK Hnone.
  destruct (quoted_rule a K T p (opener a +:+ String q (rewrite _ r)))
    as [[rep n]|] eqn:E; [exfalso|reflexivity].
  apply quoted_rule_inv in E
    as (q1 & dc & q2 & r' & Hq1 & Hq2 & Hd & Es & _ & _ & Hb).
  rewrite shaped_app in Es. apply sapp_inv_head in Es.
  injection Es as <- Es.
  assert (Eocc : rewrite (quoted_rule a' K' T') r
                 = (dc +:+ K +:+ String q2 (closer a)) +:+ r').
  { rewrite Es, !sapp_assoc. cbn [String.append]. reflexivity. }
  unfold rewrite, rewrite_from in Eocc.
  apply rewrite_front in Eocc
    as [[r0 ->]|(u & v & rep' & r1 & p' & s & n' & Eo & Hv & Eh & Ev)].
  - assert (Ehit : quoted_rule a K T p (shaped a q dc K q2 +:+ r0)
                   = Some (emitted a T, String.length (shaped a q dc K q2)))
      by now apply quoted_rule_hit.
    rewrite shaped_app in Ehit.
    rewrite !sapp_assoc in Hnone. cbn [String.append] in Hnone.
    rewrite Hnone in Ehit. discriminate.
  - apply quoted_rule_inv in Eh
      as (qa & dca & qb & ra & Hqa & Hqb & Hda & _ & -> & _).
    pose proof (solid_shaped a q q2 dc K Ha Hq1 Hq2 Hd HK) as Hsolid.
    apply (Hsolid (opener a +:+ String q u) v r').
    + unfold shaped. rewrite sapp_assoc. cbn [String.append].
      now rewrite <- Eo.
    + destruct (opener a); discriminate.
    + assumption.
    + rewrite Ev. exists a', dquote. eexists.
      split; [assumption|]. split; [reflexivity|].
      unfold emitted. rewrite !sapp_assoc. cbn [String.append]. reflexivity.
Qed.

Lemma quoted_rewrite_twice (a : anchor) (K T : string) :
  In a rewrite_anchors -> ident K -> ident T -> T <> K ->
  forall (n : nat) (c : string), String.length c <= n ->
  rewrite (quoted_rule a K T) (rewrite (quoted_rule a K T) c) =
  rewrite (quoted_rule a K T) c.
Proof.
  intros Ha HK HT Hne. induction n as [|n IH]; intros c Hlen.
  - destruct c; [reflexivity|simpl in Hlen; lia].
  - destruct (first_quote_split c) as [Hc|(pre & q & r & -> & Hpre & Hq)].
    + now rewrite !(quoted_rewrite_plain a K T c Hc).
    + rewrite slength_app in Hlen. cbn [String.length] in Hlen.
      assert (Hmiss :
        (forall u, pre = u +:+ opener a ->
           quoted_rule a K T (last_opt None u) (opener a +:+ String q r) = None) ->
        rewrite (quoted_rule a K T)
          (rewrite (quoted_rule a K T) (pre +:+ String q r)) =
        rewrite (quoted_rule a K T) (pre +:+ String q r)).
      { intros Hnone. rewrite first_quote_none by assumption.
        rewrite first_quote_none; auto.
        - rewrite IH by lia. reflexivity.
        - intros u Eu. apply occurrence_reflected; auto. }
      destruct (suffix_dec pre (opener a)) as [[u ->]|Hno];
        [|apply Hmiss; intros u Eu; now destruct (Hno u)].
      destruct (quoted_rule a K T (last_opt None u) (opener a +:+ String q r))
        as [[rep n0]|] eqn:E.
      * apply quoted_rule_inv in E
          as (q1 & dc & q2 & r' & Hq1 & Hq2 & Hd & Es & _ & _ & Hb).
        rewrite all_chars_app in Hpre. apply andb_true_iff in Hpre as [Hu _].
        rewrite sapp_assoc, Es.
        rewrite quoted_replace by auto.
        rewrite emitted_shaped.
        rewrite quoted_barred; auto using dot_part_emitted.
        -- rewrite IH; [reflexivity|].
           apply (f_equal String.length) in Es.
           rewrite !slength_app in Es. cbn [String.length] in Es.
           rewrite slength_app in Hlen.
           assert (0 < String.length (shaped a q1 dc K q2)).
           { unfold shaped. rewrite slength_app. cbn [String.length]. lia. }
           lia.
        -- apply quoted_rule_other_key; auto using dot_part_emitted.
      * apply Hmiss. intros u' Eu. apply app_inv_tail in Eu. now subst u'.
Qed.

Lemma quoted_apart_anchor (a1 a2 : anchor) (K1 T1 K2 T2 : string) :
  In a1 rewrite_anchors -> In a2 rewrite_anchors -> a1 <> a2 ->
  apart (quoted_rule a1 K1 T1) (quoted_rule a2 K2 T2).
Proof.
  intros Ha1 Ha2 Hne p s rep n E p' r.
  apply quoted_rule_inv in E
    as (q1 & dc & q2 & r1 & Hq1 & Hq2 & Hd & -> & -> & -> & Hb).
  split.
  - apply quoted_none_at_other; auto.
  - rewrite emitted_shaped. apply quoted_none_at_other; auto.
Qed.

Lemma quoted_rules_commute_anchor (a1 a2 : anchor) (K1 T1 K2 T2 content : string) :
  In a1 rewrite_anchors -> In a2 rewrite_anchors -> a1 <> a2 ->
  ident K1 -> ident T1 -> ident K2 -> ident T2 ->
  rewrite (quoted_rule a1 K1 T1) (rewrite (quoted_rule a2 K2 T2) content) =
  rewrite (quoted_rule a2 K2 T2) (rewrite (quoted_rule a1 K1 T1) content).
Proof.
  intros. unfold rewrite.
  apply (rules_commute quoted_starts);
    auto using quoted_tame, quoted_apart_anchor.
Qed.

(** Steps that commute with each other and change nothing when repeated:
    the whole sequence changes nothing when repeated. *)
Lemma fold_twice {B : Type} (F : B -> string -> string) (l : list B) :
  NoDup l ->
  (forall b, In b l -> forall c, F b (F b c) = F b c) ->
  (forall b b', In b l -> In b' l -> b <> b' ->
     forall c, F b (F b' c) = F b' (F b c)) ->
  forall c,
  fold_left (fun c b => F b c) l (fold_left (fun c b => F b c) l c)
  = fold_left (fun c b => F b c) l c.
Proof.
  induction l as [|b l IH]; intros Hnd Hid Hco c; [reflexivity|].
  apply NoDup_cons in Hnd as [Hb Hnd]. cbn [fold_left].
  assert (Hswap : forall y,
    F b (fold_left (fun c b => F b c) l y)
    = fold_left (fun c b => F b c) l (F b y)).
  { intros y.
    apply (fold_commute F F [b] l).
    intros b1 b2 c' [<-|[]] H2. apply Hco; [now left|now right|].
    intros ->. apply Hb. now apply list_elem_of_In. }
  rewrite Hswap, Hid by now left.
  apply IH; auto.
  - intros b' Hb'. apply Hid. now right.
  - intros b1 b2 H1 H2. apply Hco; now right.
Qed.

Lemma rewrite_anchors_NoDup : NoDup rewrite_anchors.
Proof.
  unfold rewrite_anchors.
  repeat (apply NoDup_cons_2;
          [intros H; apply list_elem_of_In in H; cbn [In] in H;
           intuition discriminate|]).
  apply NoDup_nil_2.
Qed.

Lemma rewrite_one_twice (K T c : string) :
  ident K -> ident T -> T <> K ->
  rewrite_one K T (rewrite_one K T c) = rewrite_one K T c.
Proof.
  intros HK HT Hne. unfold rewrite_one.
  apply (fold_twice (fun a => rewrite (quoted_rule a K T))).
  - apply rewrite_anchors_NoDup.
  - intros a Ha c'.
    now apply (quoted_rewrite_twice a K T Ha HK HT Hne
                 (String.length c') c').
  - intros a a' Ha Ha' Hd c'. now apply quoted_rules_commute_anchor.
Qed.

Lemma same_key_same_entry (l : list (string * string)) (kv kv' : string * string) :
  NoDup l.*1 -> In kv l -> In kv' l -> fst kv = fst kv' -> kv = kv'.
Proof.
  induction l as [|e l IH]; intros Hnd H1 H2 E; [contradiction|].
  cbn [fmap list_fmap] in Hnd. apply NoDup_cons in Hnd as [Hn Hnd].
  assert (Hin : forall x, In x l -> fst x ∈ l.*1).
  { intros x Hx. apply list_elem_of_fmap. exists x. split; [reflexivity|].
    now apply list_elem_of_In. }
  destruct H1 as [<-|H1], H2 as [<-|H2]; auto.
  - exfalso. apply Hn. rewrite E. now apply Hin.
  - exfalso. apply Hn. rewrite <- E. now apply Hin.
Qed.

Lemma rewrite_all_twice (l : list (string * string)) (c : string) :
  independent l -> rewrite_all l (rewrite_all l c) = rewrite_all l c.
Proof.
  intros (Hnd & Hf & Hno). unfold rewrite_all.
  rewrite Forall_forall in Hf.
  apply (fold_twice (fun kv => rewrite_one (fst kv) (snd kv))).
  - now apply NoDup_fmap_1 in Hnd.
  - intros kv Hkv c'. apply list_elem_of_In in Hkv.
    destruct (Hf kv Hkv) as [HK HT].
    apply rewrite_one_twice; auto.
  - intros kv kv' Hkv Hkv' Hd c'.
    assert (Hk : fst kv <> fst kv').
    { intros E. apply Hd. now apply (same_key_same_entry l). }
    apply list_elem_of_In in Hkv, Hkv'.
    destruct (Hf kv Hkv) as [HK HT]. destruct (Hf kv' Hkv') as [HK' HT'].
    apply rewrite_one_commute; auto.
Qed.

End PageTwice.

(** ** Occurrences in any context *)

Section SettledPage.
Import Re Walk Spec App.

Lemma settled_suffix (a : anchor) (u w : string) :
  settled a (u +:+ w) = true -> settled a w = true.
Proof.
  induction u as [|c u IH]; [auto|]. cbn [String.append settled].
  intros H. apply andb_true_iff in H as [_ H]. auto.
Qed.

Lemma settled_page_suffix (u w : string) :
  settled_page (u +:+ w) = true -> settled_page w = true.
Proof.
  unfold settled_page. rewrite !forallb_forall. intros H a Ha.
  apply (settled_suffix a u w). now apply H.
Qed.

Lemma quote_free_settled_page (pre : string) :
  all_chars not_quote pre = true -> settled_page pre = true.
Proof.
  intros H. unfold settled_page. apply forallb_forall. intros a _.
  now apply quote_free_settled.
Qed.

Lemma quoted_rule_more (a : anchor) (K T s rep X : string) (p : option ascii)
    (n : nat) :
  quoted_rule a K T p s = Some (rep, n) ->
  quoted_rule a K T p (s +:+ X) = Some (rep, n).
Proof.
  intros E.
  apply quoted_rule_inv in E
    as (q1 & dc & q2 & r & Hq1 & Hq2 & Hd & -> & -> & -> & Hb).
  rewrite sapp_assoc. now apply quoted_rule_hit.
Qed.

(** An occurrence that begins in a text whose opening is followed there by
    a quote ends in that text, when what comes next is the start of another
    occurrence. *)
Lemma hit_within (a : anchor) (K T A X rep : string) (q : ascii)
    (p : option ascii) (n : nat) :
  In a rewrite_anchors -> ident K ->
  all_chars not_quote A = false -> quoted_starts X ->
  quoted_rule a K T p (opener a +:+ String q (A +:+ X)) = Some (rep, n) ->
  exists dc q2 r,
    quote q = true /\ quote q2 = true /\ dot_part a dc /\
    A = dc +:+ K +:+ String q2 (closer a +:+ r) /\
    (bounded a = true -> word_opt p = false).
Proof.
  intros Ha HK HA HX E.
  apply quoted_rule_inv in E
    as (q1 & dc & q2 & r' & Hq1 & Hq2 & Hd & Es & _ & _ & Hb).
  rewrite shaped_app in Es. apply sapp_inv_head in Es. injection Es as <- Es.
  exists dc, q2. rewrite <- sapp_assoc in Es.
  apply app_eq_app in Es as [(w & Ew & EX)|(w & Hw & EA & Er)].
  - exfalso.
    assert (Hwi : ident w).
    { unfold dot_part in Hd. destruct (dotted a).
      - destruct Hd as (c & -> & _). cbn [String.append] in Ew.
        destruct A as [|c' A']; [discriminate|].
        cbn [String.append] in Ew. injection Ew as _ Ew.
        unfold ident in *. rewrite Ew, all_chars_app in HK.
        now apply andb_true_iff in HK as [_ HK].
      - subst dc. cbn [String.append] in Ew.
        apply ident_not_quote in HK. rewrite Ew, all_chars_app in HK.
        apply andb_true_iff in HK as [HK _]. congruence. }
    destruct w as [|c w].
    + cbn [String.append] in EX. subst X. apply starts_head in HX.
      cbn in HX. destruct (quote_char_facts q2 Hq2) as [Hw _]. congruence.
    + subst X. revert HX. apply not_starts_ident; [discriminate|assumption..].
  - destruct w as [|c w]; [congruence|].
    cbn [String.append] in Er. injection Er as <- Er.
    unfold closer in *. destruct (closed a).
    + destruct w as [|c w]; cbn [String.append] in Er.
      * exfalso. subst X. apply starts_head in HX. cbn in HX. discriminate.
      * injection Er as <- Er. exists w.
        repeat split; auto. rewrite EA, sapp_assoc. reflexivity.
    + cbn [String.append] in Er. exists w.
      repeat split; auto. rewrite EA, sapp_assoc. reflexivity.
Qed.

Lemma first_quote_anchors (K T pre : string) (q : ascii) (l : list anchor) :
  (forall a, In a l -> In a rewrite_anchors) -> ident K ->
  all_chars not_quote pre = true -> quote q = true ->
  forall r,
  (forall a u, In a l -> pre = u +:+ opener a ->
     quoted_rule a K T (last_opt None u) (opener a +:+ String q r) = None) ->
  fold_left (fun c a => rewrite (quoted_rule a K T) c) l (pre +:+ String q r)
  = pre +:+ String q
      (fold_left (fun c a => rewrite (quoted_rule a K T) c) l r).
Proof.
  intros Hl HK Hpre Hq. induction l as [|a l IH]; intros r Hn; [reflexivity|].
  cbn [fold_left]. rewrite first_quote_none; auto.
  - apply IH.
    + intros a' Ha'. apply Hl. now right.
    + intros a' u Ha' Eu. apply occurrence_reflected; auto.
      * apply Hl. now right.
      * apply Hl. now left.
      * apply Hn; [now right|assumption].
  - apply Hl. now left.
  - intros u Eu. apply Hn; [now left|assumption].
Qed.

Lemma miss_rewritten (a : anchor) (K T K' T' : string) (q : ascii)
    (p : option ascii) (l : list anchor) :
  In a rewrite_anchors -> (forall a', In a' l -> In a' rewrite_anchors) ->
  ident K ->
  forall r,
  quoted_rule a K T p (opener a +:+ String q r) = None ->
  quoted_rule a K T p
    (opener a +:+ String q
       (fold_left (fun c a' => rewrite (quoted_rule a' K' T') c) l r)) = None.
Proof.
  intros Ha Hl HK. induction l as [|a' l IH]; intros r Hn; [assumption|].
  cbn [fold_left]. apply IH.
  - intros b Hb. apply Hl. now right.
  - apply occurrence_reflected; auto. apply Hl. now left.
Qed.

Lemma first_quote_all (l : list (string * string)) (pre : string) (q : ascii) :
  Forall (fun kv => ident (fst kv)) l ->
  all_chars not_quote pre = true -> quote q = true ->
  forall r,
  (forall a kv u, In a rewrite_anchors -> In kv l -> pre = u +:+ opener a ->
     quoted_rule a (fst kv) (snd kv) (last_opt None u)
       (opener a +:+ String q r) = None) ->
  rewrite_all l (pre +:+ String q r) = pre +:+ String q (rewrite_all l r).
Proof.
  intros Hf Hpre Hq. unfold rewrite_all.
  induction l as [|[K T] l IH]; intros r Hn; [reflexivity|].
  apply Forall_cons in Hf as [HK Hf]. cbn [fst snd] in HK.
  cbn [fold_left fst snd]. unfold rewrite_one at 2.
  rewrite first_quote_anchors; auto.
  - fold (rewrite_one K T r). apply IH; [assumption|].
    intros a kv u Ha Hkv Eu. unfold rewrite_one.
    apply miss_rewritten; auto.
    + rewrite Forall_forall in Hf. apply Hf. now apply list_elem_of_In.
    + apply Hn; [assumption|now right|assumption].
  - intros a u Ha Eu. apply (Hn a (K, T) u); [assumption|now left|assumption].
Qed.

Lemma exists_or_all {B : Type} (P Q : B -> Prop) (l : list B) :
  (forall b, P b \/ Q b) ->
  (exists b, In b l /\ P b) \/ (forall b, In b l -> Q b).
Proof.
  intros H. induction l as [|b l IH]; [right; intros b []|].
  destruct (H b) as [Hp|Hq]; [left; exists b; split; [now left|assumption]|].
  destruct IH as [(b' & Hb' & Hp)|IH].
  - left. exists b'. split; [now right|assumption].
  - right. intros b' [<-|Hb']; auto.
Qed.

Lemma first_quote_dec (l : list (string * string)) (pre r : string) (q : ascii) :
  (exists a kv u rep n,
     In a rewrite_anchors /\ In kv l /\ pre = u +:+ opener a /\
     quoted_rule a (fst kv) (snd kv) (last_opt None u)
       (opener a +:+ String q r) = Some (rep, n)) \/
  (forall a kv u, In a rewrite_anchors -> In kv l -> pre = u +:+ opener a ->
     quoted_rule a (fst kv) (snd kv) (last_opt None u)
       (opener a +:+ String q r) = None).
Proof.
  destruct (exists_or_all
    (fun a => exists kv, In kv l /\ exists u rep n,
       pre = u +:+ opener a /\
       quoted_rule a (fst kv) (snd kv) (last_opt None u)
         (opener a +:+ String q r) = Some (rep, n))
    (fun a => forall kv, In kv l -> forall u, pre = u +:+ opener a ->
       quoted_rule a (fst kv) (snd kv) (last_opt None u)
         (opener a +:+ String q r) = None)
    rewrite_anchors) as [(a & Ha & kv & Hkv & u & rep & n & Eu & E)|H].
  - intros a.
    apply (exists_or_all
      (fun kv => exists u rep n,
         pre = u +:+ opener a /\
         quoted_rule a (fst kv) (snd kv) (last_opt None u)
           (opener a +:+ String q r) = Some (rep, n))
      (fun kv => forall u, pre = u +:+ opener a ->
         quoted_rule a (fst kv) (snd kv) (last_opt None u)
           (opener a +:+ String q r) = None)).
    intros kv. destruct (suffix_dec pre (opener a)) as [[u Eu]|Hno].
    + destruct (quoted_rule a (fst kv) (snd kv) (last_opt None u)
                  (opener a +:+ String q r)) as [[rep n]|] eqn:E.
      * left. now exists u, rep, n.
      * right. intros u' Eu'. rewrite Eu in Eu'.
        apply app_inv_tail in Eu'. now subst u'.
    + right. intros u Eu. now destruct (Hno u).
  - left. now exists a, kv, u, rep, n.
  - right. intros a kv u Ha Hkv Eu. now apply (H a Ha kv Hkv u).
Qed.

(** The rewriter over a text and an occurrence behind it: when every
    opening in the text is followed there by a quote, the text is rewritten
    as it would be alone, the occurrence becomes what the rule writes, and
    the rest is rewritten as it would be alone. *)
Lemma rewrite_all_settled (l : list (string * string)) (a0 : anchor)
    (x T dc post : string) (q1 q2 : ascii) :
  independent l -> (x, T) ∈ l -> In a0 rewrite_anchors -> dot_part a0 dc ->
  quote q1 = true -> quote q2 = true ->
  forall (n : nat) (A : string), String.length A <= n ->
  settled_page A = true ->
  (bounded a0 = true -> word_opt (last_opt None A) = false) ->
  rewrite_all l (A +:+ shaped a0 q1 dc x q2 +:+ post) =
  rewrite_all l A +:+ emitted a0 T +:+ rewrite_all l post.
Proof.
  intros Hi Hx Ha0 Hd Hq1 Hq2.
  assert (Hkeys : Forall (fun kv => ident (fst kv)) l).
  { destruct Hi as (_ & Hf & _). eapply Forall_impl; [exact Hf|].
    now intros kv [H _]. }
  assert (HX : quoted_starts (shaped a0 q1 dc x q2 +:+ post)).
  { rewrite shaped_app. exists a0, q1. eexists. auto. }
  induction n as [|n IH]; intros A Hlen Hs Hb.
  - destruct A; [|simpl in Hlen; lia]. cbn [String.append].
    rewrite (rewrite_all_plain l "") by reflexivity. cbn [String.append].
    apply (rewrite_all_occurrence l a0 x T "" dc); auto.
  - destruct (first_quote_split A) as [HA|(pre & q & A' & -> & Hpre & Hq)].
    + rewrite (rewrite_all_plain l A) by assumption.
      now apply rewrite_all_occurrence.
    + rewrite slength_app in Hlen. cbn [String.length] in Hlen.
      rewrite sapp_assoc. cbn [String.append].
      destruct (first_quote_dec l pre
                  (A' +:+ shaped a0 q1 dc x q2 +:+ post) q)
        as [(a & [K TK] & u & rep & n0 & Ha & Hkv & -> & E)|Hmiss].
      * cbn [fst snd] in E.
        assert (HK : ident K).
        { rewrite Forall_forall in Hkeys.
          apply (Hkeys (K, TK)). now apply list_elem_of_In. }
        assert (HA' : all_chars not_quote A' = false).
        { unfold settled_page in Hs. rewrite forallb_forall in Hs.
          specialize (Hs a Ha). rewrite sapp_assoc in Hs.
          apply (settled_at a u (opener a +:+ String q A') A' q Hs);
            [apply strip_app|assumption]. }
        apply (hit_within a K TK A' _ rep q _ n0 Ha HK HA' HX) in E
          as (dc' & q2' & r'' & _ & Hq2' & Hd' & EA & Hb').
        rewrite all_chars_app in Hpre. apply andb_true_iff in Hpre as [Hu _].
        assert (E1 : (u +:+ opener a) +:+ String q A'
                     = u +:+ shaped a q dc' K q2' +:+ r'').
        { rewrite shaped_app, sapp_assoc, EA. reflexivity. }
        assert (E2 : (u +:+ opener a)
                       +:+ String q (A' +:+ shaped a0 q1 dc x q2 +:+ post)
                     = u +:+ shaped a q dc' K q2'
                         +:+ (r'' +:+ shaped a0 q1 dc x q2 +:+ post)).
        { rewrite (shaped_app a q q2' dc' K), sapp_assoc, EA, !sapp_assoc.
          cbn [String.append]. rewrite !sapp_assoc. reflexivity. }
        rewrite E1 in *. rewrite E2.
        rewrite !(rewrite_all_occurrence l a K TK u dc') ; auto;
          try (now apply list_elem_of_In).
        rewrite !sapp_assoc. f_equal. f_equal.
        apply IH.
        -- apply (f_equal String.length) in EA.
           rewrite !slength_app in EA. cbn [String.length] in EA.
           rewrite slength_app in EA. rewrite slength_app in Hlen. lia.
        -- rewrite <- sapp_assoc in Hs. now apply settled_page_suffix in Hs.
        -- intros Hbd. destruct r'' as [|c r'']; [reflexivity|].
           specialize (Hb Hbd). rewrite <- sapp_assoc, last_opt_app in Hb.
           erewrite last_opt_nonempty; [exact Hb|discriminate].
      * rewrite (first_quote_all l pre q Hkeys Hpre Hq _ Hmiss).
        rewrite (first_quote_all l pre q Hkeys Hpre Hq A').
        -- rewrite sapp_assoc. cbn [String.append]. f_equal. f_equal.
           apply IH.
           ++ lia.
           ++ replace (pre +:+ String q A')
                with ((pre +:+ String q "") +:+ A') in Hs
                by now rewrite snoc_app.
              now apply settled_page_suffix in Hs.
           ++ intros Hbd. destruct A' as [|c A']; [reflexivity|].
              specialize (Hb Hbd).
              replace (pre +:+ String q (String c A'))
                with ((pre +:+ String q "") +:+ String c A') in Hb
                by now rewrite snoc_app.
              rewrite last_opt_app in Hb.
              erewrite last_opt_nonempty; [exact Hb|discriminate].
        -- intros a kv u Ha Hkv Eu.
           destruct (quoted_rule a (fst kv) (snd kv) (last_opt None u)
                       (opener a +:+ String q A')) as [[rep n0]|] eqn:E;
             [exfalso|reflexivity].
           apply (quoted_rule_more _ _ _ _ _
                    (shaped a0 q1 dc x q2 +:+ post)) in E.
           rewrite sapp_assoc in E. cbn [String.append] in E.
           now rewrite (Hmiss a kv u Ha Hkv Eu) in E.
Qed.

End SettledPage.

Section CssAnywhere.
Import Re Walk Spec App.

Lemma rewrite_all_css_cut (l : list (string * string)) (B : string) :
  Forall (fun kv => ident (fst kv) /\ ident (snd kv)) l ->
  c_stop css_ident_char B -> sep_ahead B = false ->
  forall (n : nat) (A : string), String.length A <= n ->
  rewrite_all_css l (A +:+ B) = rewrite_all_css l A +:+ rewrite_all_css l B.
Proof.
  intros Hf HB HsB. induction n as [|n IH]; intros A Hlen.
  - destruct A; [|simpl in Hlen; lia]. now rewrite css_all_nil.
  - destruct A as [|a t]; [now rewrite css_all_nil|].
    cbn [String.length] in Hlen.
    destruct (span css_ident_char t) as [x r] eqn:Es.
    pose proof (span_app _ _ _ _ Es) as ->.
    pose proof (span_all _ _ _ _ Es) as Hx.
    assert (Hr : c_stop css_ident_char r).
    { destruct r as [|e r1]; [exact I|]. simpl. eapply span_stop; eauto. }
    clear Es. rewrite slength_app in Hlen.
    cbn [String.append]. rewrite sapp_assoc.
    rewrite (css_all_at l a Hf x (r +:+ B) Hx).
    + rewrite (css_all_at l a Hf x r Hx Hr).
      rewrite IH by lia. cbn [String.append]. rewrite sapp_assoc.
      f_equal. f_equal.
      destruct r as [|e r1]; [|reflexivity].
      cbn [String.append]. rewrite HsB. reflexivity.
    + destruct r as [|e r1]; [exact HB|exact Hr].
Qed.

(** A selector token whose name is a key, anywhere in a sheet. *)
Lemma rewrite_all_css_anywhere (l : list (string * string)) (m d : ascii)
    (x T A post : string) :
  independent l -> (x, T) ∈ l ->
  css_marker m = true -> css_sep d = true ->
  rewrite_all_css l (A +:+ String m (x +:+ String d post)) =
  rewrite_all_css l A +:+ String m (T +:+ String d (rewrite_all_css l post)).
Proof.
  intros Hi Hx Hm Hd. pose proof Hi as (_ & Hf & _).
  rewrite (rewrite_all_css_cut l _ Hf) with (n := String.length A); auto.
  - f_equal.
    apply (rewrite_all_css_occurrence l m d x T "" Hi Hx Hm); [reflexivity|auto].
  - simpl. destruct (css_ident_char m) eqn:E; [|reflexivity].
    apply ident_char_facts in E as [E _]. congruence.
  - simpl. destruct (css_sep m) eqn:E; [|reflexivity].
    apply sep_char_facts in E as [E _]. congruence.
Qed.

End CssAnywhere.

(** ** The disk behind a run *)

Section DiskAfter.
Import Re Walk Spec App.
Context {fsys rng : Type}.
Variable read_text : fsys -> string -> exn + string.
Variable write_text : fsys -> string -> string -> fsys * option exn.
Variable randbelow : nat -> rng -> nat * rng.
Variable set_order : gset string -> list string.

Local Abbreviation world' := (@world fsys rng).









End DiskAfter.

(** ** The claims on contexts and on the driver *)

Section ClaimsInContext.
Import Re Walk Spec App.

Lemma replace_settled (l : list (string * string)) (a : anchor)
    (x t dc A post : string) (q1 q2 : ascii) :
  independent l -> (x, t) ∈ l -> In a rewrite_anchors -> dot_part a dc ->
  quote q1 = true -> quote q2 = true -> settled_page A = true ->
  (bounded a = true -> word_opt (last_opt None A) = false) ->
  exists A' post',
    replace_classnames_ids A l = Some A' /\
    replace_classnames_ids post l = Some post' /\
    replace_classnames_ids (A +:+ shaped a q1 dc x q2 +:+ post) l
    = Some (A' +:+ emitted a t +:+ post').
Proof.
  intros Hi Hx Ha Hd Hq1 Hq2 Hs Hb.
  pose proof (independent_plain l Hi) as Hp.
  exists (rewrite_all l A), (rewrite_all l post).
  rewrite !replace_all_rewrite by assumption.
  split; [reflexivity|]. split; [reflexivity|]. f_equal.
  now apply (rewrite_all_settled l a x t dc post q1 q2 Hi Hx Ha Hd Hq1 Hq2
               (String.length A) A).
Qed.

Lemma replace_css_anywhere (l : list (string * string)) (m d : ascii)
    (x t A post : string) :
  independent l -> (x, t) ∈ l -> css_marker m = true -> css_sep d = true ->
  exists A' post',
    replace_classnames_ids_css A l = Some A' /\
    replace_classnames_ids_css post l = Some post' /\
    replace_classnames_ids_css (A +:+ String m (x +:+ String d post)) l
    = Some (A' +:+ String m (t +:+ String d post')).
Proof.
  intros Hi Hx Hm Hd.
  pose proof (independent_plain l Hi) as Hp.
  exists (rewrite_all_css l A), (rewrite_all_css l post).
  rewrite !replace_all_css_rewrite by assumption.
  split; [reflexivity|]. split; [reflexivity|]. f_equal.
  now apply rewrite_all_css_anywhere.
Qed.

Lemma filter_key_elem (l : list (string * string)) (x t : string) :
  filter (fun kv => fst kv = x) l = [(x, t)] -> (x, t) ∈ l.
Proof.
  intros E.
  assert (H : (x, t) ∈ filter (fun kv => fst kv = x) l)
    by (rewrite E; apply list_elem_of_singleton; reflexivity).
  now apply list_elem_of_filter in H as [_ H].
Qed.

(** C4 (as stated, refuted). An identifier found both as a class name and
    as an ID has one entry in the dictionary, but its two uses are not
    always rewritten to the token of that entry.  In the first run [nav] is
    found as an ID and, in a call behind a word character, as a class name:
    the ID is rewritten, the call is left as it is.  In the second run
    [hero] is found in the sheet as a class name and as an ID, and the page
    has the class value [hero main]: the class use of [hero] in the sheet
    is rewritten with the token of [hero main], the ID use with the token
    of [hero]. *)
Lemma C4_counterexample :
  find_classnames_ids "<p id='nav'></p> my_getElementsByClassName('nav')"
  = ({[ "nav" ]}, {[ "nav" ]}) /\
  disk (fst (process_files simple_read simple_write counter_below elements
               ["index.html"]
               (World
                  [("index.html",
                    Text true true
                      "<p id='nav'></p> my_getElementsByClassName('nav')")]
                  0 nil)))
  = [("index.html",
      Text true true
        ("<p id=" +:+ dq +:+ "abcdefgh" +:+ dq
           +:+ "></p> my_getElementsByClassName('nav')"))] /\
  find_classnames_ids_css ".hero main { } #hero { }"
  = ({[ "hero" ]}, {[ "hero" ]}) /\
  ReplacementsLine [("hero main", "abcdefgh"); ("hero", "ijklmnop")]
  ∈ log (fst (process_files simple_read simple_write counter_below elements
               ["index.html"; "style.css"]
               (World
                  [("index.html",
                    Text true true "<p id='hero' class='hero main'>");
                   ("style.css", Text true true ".hero main { } #hero { }")]
                  0 nil))) /\
  fs_lookup
    (disk (fst (process_files simple_read simple_write counter_below elements
                  ["index.html"; "style.css"]
                  (World
                     [("index.html",
                       Text true true "<p id='hero' class='hero main'>");
                      ("style.css", Text true true ".hero main { } #hero { }")]
                     0 nil))))
    "style.css"
  = Some (Text true true ".abcdefgh { } #ijklmnop { }").
Proof.
  split; [vm_compute; reflexivity|]. split; [vm_compute; reflexivity|].
  split; [vm_compute; reflexivity|]. split; [|vm_compute; reflexivity].
  vm_compute. do 2 right. left.
Qed.

(** C4 (amended). For every identifier that the scan phase found both as a
    class name and as an ID, the dictionary built by the mapping phase has
    exactly one entry with that key.  When the substitutions of the
    dictionary do not interfere (distinct keys, keys and tokens made of
    letters, digits, [_] and [-], no token that is a key), every use of the
    identifier at a pattern of the rewriters is rewritten to the token of
    that entry, and the text before it and the text behind it are rewritten
    as they would be alone: in a page or script, an occurrence at any of
    the seven patterns (class and ID alike) behind a text in which every
    opening of a pattern is followed by another quote, and for the four
    calls not directly behind a word character; in a sheet, the identifier
    behind a dot or a hash and before a separator, anywhere. *)
Theorem C4_one_namespace {fsys rng : Type}
    (read_text : fsys -> string -> exn + string)
    (randbelow : nat -> rng -> nat * rng)
    (set_order : gset string -> list string)
    (files : list string) (w w1 : @world fsys rng) (cls ids : gset string)
    (x : string) :
  (forall S, set_order S ≡ₚ elements S) ->
  scan_phase read_text files (∅, ∅) w = (w1, Returned (cls, ids)) ->
  x ∈ cls -> x ∈ ids ->
  NoDup (snd (mapping_phase randbelow set_order cls ids w1)).*1 /\
  exists t,
    filter (fun kv => fst kv = x)
      (snd (mapping_phase randbelow set_order cls ids w1)) = [(x, t)] /\
    (independent (snd (mapping_phase randbelow set_order cls ids w1)) ->
     (forall a q1 q2 dc before after,
        In a rewrite_anchors -> quote q1 = true -> quote q2 = true ->
        dot_part a dc -> settled_page before = true ->
        (bounded a = true -> word_opt (last_opt None before) = false) ->
        exists before' after',
          replace_classnames_ids before
            (snd (mapping_phase randbelow set_order cls ids w1))
          = Some before' /\
          replace_classnames_ids after
            (snd (mapping_phase randbelow set_order cls ids w1))
          = Some after' /\
          replace_classnames_ids (before +:+ shaped a q1 dc x q2 +:+ after)
            (snd (mapping_phase randbelow set_order cls ids w1))
          = Some (before' +:+ emitted a t +:+ after')) /\
     (forall m d before after,
        css_marker m = true -> css_sep d = true ->
        exists before' after',
          replace_classnames_ids_css before
            (snd (mapping_phase randbelow set_order cls ids w1))
          = Some before' /\
          replace_classnames_ids_css after
            (snd (mapping_phase randbelow set_order cls ids w1))
          = Some after' /\
          replace_classnames_ids_css
            (before +:+ String m (x +:+ String d after))
            (snd (mapping_phase randbelow set_order cls ids w1))
          = Some (before' +:+ String m (t +:+ String d after')))).
Proof.
  intros Hs _ Hc Hi.
  destruct (mapping_phase_keys randbelow set_order Hs cls ids w1) as [Hnd Hin].
  split; [assumption|].
  destruct (unique_entry (snd (mapping_phase randbelow set_order cls ids w1)) x)
    as [t Ht]; [assumption|apply Hin; apply elem_of_union; auto|].
  exists t. split; [assumption|].
  pose proof (filter_key_elem _ _ _ Ht) as Hx.
  intros Hind. split.
  - intros a q1 q2 dc before after Ha Hq1 Hq2 Hd Hsp Hb.
    now apply replace_settled.
  - intros m d before after Hm Hd. now apply replace_css_anywhere.
Qed.

Lemma independent_single (x t : string) :
  ident x -> ident t -> t <> x -> independent [(x, t)].
Proof.
  intros Hx Ht Hne. split; [|split].
  - apply NoDup_singleton.
  - now repeat constructor.
  - intros kv kv' Hk Hk'. apply list_elem_of_singleton in Hk, Hk'.
    now subst.
Qed.

Lemma C4_witness :
  (forall S : gset string, elements S ≡ₚ elements S) /\
  scan_phase simple_read ["index.html"; "style.css"] (∅, ∅) twin_world
    = (logging DEBUG "Scanning file: style.css"
         (logging DEBUG "Scanning file: index.html" twin_world),
       Returned ({["box"]}, {["box"]})) /\
  "box" ∈ ({["box"]} : gset string) /\
  independent
    (snd (mapping_phase counter_below elements {["box"]} {["box"]}
            (logging DEBUG "Scanning file: style.css"
               (logging DEBUG "Scanning file: index.html" twin_world)))) /\
  exists t,
    filter (fun kv => fst kv = "box")
      (snd (mapping_phase counter_below elements {["box"]} {["box"]}
              (logging DEBUG "Scanning file: style.css"
                 (logging DEBUG "Scanning file: index.html" twin_world))))
    = [("box", t)] /\
    (exists before' after',
       replace_classnames_ids "<div class='box' "
         (snd (mapping_phase counter_below elements {["box"]} {["box"]}
                 (logging DEBUG "Scanning file: style.css"
                    (logging DEBUG "Scanning file: index.html" twin_world))))
       = Some before' /\
       replace_classnames_ids ">"
         (snd (mapping_phase counter_below elements {["box"]} {["box"]}
                 (logging DEBUG "Scanning file: style.css"
                    (logging DEBUG "Scanning file: index.html" twin_world))))
       = Some after' /\
       replace_classnames_ids
         ("<div class='box' " +:+
          shaped (Anchor false "id=" false false) "'" "" "box" "'" +:+ ">")
         (snd (mapping_phase counter_below elements {["box"]} {["box"]}
                 (logging DEBUG "Scanning file: style.css"
                    (logging DEBUG "Scanning file: index.html" twin_world))))
       = Some (before' +:+ emitted (Anchor false "id=" false false) t
                 +:+ after')) /\
    (exists before' after',
       replace_classnames_ids_css ".box { } "
         (snd (mapping_phase counter_below elements {["box"]} {["box"]}
                 (logging DEBUG "Scanning file: style.css"
                    (logging DEBUG "Scanning file: index.html" twin_world))))
       = Some before' /\
       replace_classnames_ids_css "}"
         (snd (mapping_phase counter_below elements {["box"]} {["box"]}
                 (logging DEBUG "Scanning file: style.css"
                    (logging DEBUG "Scanning file: index.html" twin_world))))
       = Some after' /\
       replace_classnames_ids_css
         (".box { } " +:+ String "#" ("box" +:+ String " " "}"))
         (snd (mapping_phase counter_below elements {["box"]} {["box"]}
                 (logging DEBUG "Scanning file: style.css"
                    (logging DEBUG "Scanning file: index.html" twin_world))))
       = Some (before' +:+ String "#" (t +:+ String " " after'))).
Proof.
  assert (H2 : forall S : gset string, elements S ≡ₚ elements S)
    by reflexivity.
  assert (H3 : scan_phase simple_read ["index.html"; "style.css"] (∅, ∅)
                 twin_world
    = (logging DEBUG "Scanning file: style.css"
         (logging DEBUG "Scanning file: index.html" twin_world),
       Returned ({["box"]}, {["box"]})))
    by (vm_compute; reflexivity).
  assert (H4 : "box" ∈ ({["box"]} : gset string))
    by now apply elem_of_singleton.
  assert (E : snd (mapping_phase counter_below elements {["box"]} {["box"]}
                     (logging DEBUG "Scanning file: style.css"
                        (logging DEBUG "Scanning file: index.html" twin_world)))
              = [("box", "abcdefgh")])
    by (vm_compute; reflexivity).
  assert (H5 : independent
    (snd (mapping_phase counter_below elements {["box"]} {["box"]}
            (logging DEBUG "Scanning file: style.css"
               (logging DEBUG "Scanning file: index.html" twin_world))))).
  { rewrite E. apply independent_single; [reflexivity|reflexivity|discriminate]. }
  split; [exact H2|]. split; [exact H3|]. split; [exact H4|].
  split; [exact H5|].
  destruct (C4_one_namespace simple_read counter_below elements
              ["index.html"; "style.css"] twin_world _ _ _ "box" H2 H3 H4 H4)
    as (_ & t & Ht & Huses).
  exists t. split; [exact Ht|].
  destruct (Huses H5) as [Hpage Hsheet]. split.
  - apply (Hpage (Anchor false "id=" false false) "'"%char "'"%char ""
             "<div class='box' " ">").
    + cbn [rewrite_anchors In]. tauto.
    + reflexivity.
    + reflexivity.
    + reflexivity.
    + vm_compute. reflexivity.
    + intros; discriminate.
  - apply (Hsheet "#"%char " "%char ".box { } " "}"); reflexivity.
Defined.



(** C9 (as stated, refuted). An attribute [data-id] with the value [x]
    behind an attribute whose value ends in [id=]: the scanner takes the
    text from that [id=] up to the quote that opens the value of [data-id],
    and never finds [x]. *)
Lemma C9_counterexample :
  find_classnames_ids "<p title='grid=' data-id='x'>"
  = (∅, {[ " data-id=" ]}) /\
  "x" ∉ snd (find_classnames_ids "<p title='grid=' data-id='x'>").
Proof.
  assert (E : find_classnames_ids "<p title='grid=' data-id='x'>"
              = (∅, {[ " data-id=" ]})) by (vm_compute; reflexivity).
  split; [exact E|]. rewrite E. cbn [snd].
  rewrite elem_of_singleton. discriminate.
Qed.

(** C9 (amended). The [id=] and [class=] patterns take any text in front of
    them, so also the end of a longer attribute name.  For a value [x]
    between two quotes behind [id=] (behind [class=]), whatever comes
    before the opener: the scanner finds [x] as an ID (as a class name)
    provided every earlier [id=] ([class=]) and quote in the text before is
    followed there by another quote; and the rewriter, for a dictionary
    whose substitutions do not interfere and that maps [x] to a token,
    writes the token in double quotes behind the opener, and rewrites the
    text before and the text behind as it would alone, provided every
    opening of one of its patterns in the text before is followed there by
    another quote.  In the example the values of [data-id] and [subclass]
    are found and rewritten. *)
Theorem C9_unanchored_attribute_names (pre post x : string) (q1 q2 : ascii) :
  quote q1 = true -> quote q2 = true ->
  x <> EmptyString -> all_chars not_quote x = true ->
  (settled (Anchor false "id=" false false) pre = true ->
   x ∈ snd (find_classnames_ids
              (pre +:+ "id=" +:+ String q1 (x +:+ String q2 post)))) /\
  (settled (Anchor false "class=" false false) pre = true ->
   x ∈ fst (find_classnames_ids
              (pre +:+ "class=" +:+ String q1 (x +:+ String q2 post)))) /\
  (forall replacements t,
     independent replacements -> (x, t) ∈ replacements ->
     settled_page pre = true ->
     exists pre' post',
       replace_classnames_ids pre replacements = Some pre' /\
       replace_classnames_ids post replacements = Some post' /\
       replace_classnames_ids
         (pre +:+ "id=" +:+ String q1 (x +:+ String q2 post)) replacements
       = Some (pre' +:+ "id=" +:+ dq +:+ t +:+ dq +:+ post') /\
       replace_classnames_ids
         (pre +:+ "class=" +:+ String q1 (x +:+ String q2 post)) replacements
       = Some (pre' +:+ "class=" +:+ dq +:+ t +:+ dq +:+ post')) /\
  find_classnames_ids
    ("<li data-id=" +:+ dq +:+ "x7" +:+ dq +:+ " subclass='y'>")
  = ({[ "y" ]}, {[ "x7" ]}) /\
  replace_classnames_ids
    ("<li data-id=" +:+ dq +:+ "x7" +:+ dq +:+ " subclass='y'>")
    [("x7", "Ab3dEf9h"); ("y", "Zy8xWv7u")]
  = Some ("<li data-id=" +:+ dq +:+ "Ab3dEf9h" +:+ dq +:+ " subclass=" +:+ dq
            +:+ "Zy8xWv7u" +:+ dq +:+ ">").
Proof.
  intros Hq1 Hq2 Hx Hxq. split; [|split; [|split; [|split]]].
  - intros Hs. rewrite find_classnames_ids_found. cbn [snd].
    apply elem_of_found_at. exists (Anchor false "id=" false false).
    split; [now left|].
    now apply (capture_after_settled (Anchor false "id=" false false)).
  - intros Hs. rewrite find_classnames_ids_found. cbn [fst].
    apply elem_of_found_at. exists (Anchor false "class=" false false).
    split; [now left|].
    now apply (capture_after_settled (Anchor false "class=" false false)).
  - intros l t Hi Ht Hs.
    pose proof (independent_plain l Hi) as Hp.
    exists (rewrite_all l pre), (rewrite_all l post).
    rewrite !replace_all_rewrite by assumption.
    split; [reflexivity|]. split; [reflexivity|].
    assert (Hgen : forall o,
      In (Anchor false o false false) rewrite_anchors ->
      rewrite_all l (pre +:+ o +:+ String q1 (x +:+ String q2 post))
      = rewrite_all l pre +:+ o +:+ dq +:+ t +:+ dq +:+ rewrite_all l post).
    { intros o Ho. rewrite <- shaped_attribute.
      rewrite (rewrite_all_settled l (Anchor false o false false) x t ""
                 post q1 q2 Hi Ht Ho eq_refl Hq1 Hq2 (String.length pre) pre
                 (le_n _) Hs).
      - now rewrite emitted_attribute.
      - intros; discriminate. }
    split; f_equal; apply Hgen; cbn [rewrite_anchors In]; tauto.
  - vm_compute. reflexivity.
  - vm_compute. reflexivity.
Qed.

Lemma C9_witness :
  quote dquote = true /\ "x7" <> EmptyString /\
  all_chars not_quote "x7" = true /\
  settled (Anchor false "id=" false false) "<li class='row' data-" = true /\
  "x7" ∈ snd (find_classnames_ids
                ("<li class='row' data-"
                   +:+ "id=" +:+ String dquote ("x7" +:+ String dquote ">"))) /\
  independent [("x7", "Ab3dEf9h"); ("row", "Zy8xWv7u")] /\
  settled_page "<li class='row' data-" = true /\
  exists pre' post',
    replace_classnames_ids "<li class='row' data-"
      [("x7", "Ab3dEf9h"); ("row", "Zy8xWv7u")] = Some pre' /\
    replace_classnames_ids ">"
      [("x7", "Ab3dEf9h"); ("row", "Zy8xWv7u")] = Some post' /\
    replace_classnames_ids
      ("<li class='row' data-"
         +:+ "id=" +:+ String dquote ("x7" +:+ String dquote ">"))
      [("x7", "Ab3dEf9h"); ("row", "Zy8xWv7u")]
    = Some (pre' +:+ "id=" +:+ dq +:+ "Ab3dEf9h" +:+ dq +:+ post').
Proof.
  assert (H1 : quote dquote = true) by reflexivity.
  assert (H2 : "x7" <> EmptyString) by discriminate.
  assert (H3 : all_chars not_quote "x7" = true) by reflexivity.
  assert (H4 : settled (Anchor false "id=" false false)
                 "<li class='row' data-" = true) by reflexivity.
  assert (H5 : independent [("x7", "Ab3dEf9h"); ("row", "Zy8xWv7u")]).
  { split; [|split].
    - now apply NoDup_pair.
    - repeat constructor.
    - intros kv kv' Hk Hk'. apply list_elem_of_In in Hk, Hk'.
      destruct Hk as [<-|[<-|[]]], Hk' as [<-|[<-|[]]]; cbn [fst snd];
        discriminate. }
  assert (H6 : settled_page "<li class='row' data-" = true)
    by (vm_compute; reflexivity).
  assert (H7 : ("x7", "Ab3dEf9h")
                 ∈ [("x7", "Ab3dEf9h"); ("row", "Zy8xWv7u")])
    by apply list_elem_of_here.
  split; [exact H1|]. split; [exact H2|]. split; [exact H3|].
  split; [exact H4|].
  destruct (C9_unanchored_attribute_names "<li class='row' data-" ">" "x7"
              dquote dquote H1 H1 H2 H3) as (Hid & _ & Hrw & _).
  split; [exact (Hid H4)|]. split; [exact H5|]. split; [exact H6|].
  destruct (Hrw _ "Ab3dEf9h" H5 H7 H6) as (pre' & post' & Ea & Eb & Ec & _).
  exists pre', post'. split; [exact Ea|]. split; [exact Eb|exact Ec].
Defined.

End ClaimsInContext.

(** * Further properties of the code *)

Section Examples.
Import Re Walk Spec App.

Lemma fs_lookup_store (d : simple_fs) (path other : string) (n : node) :
  other <> path -> fs_lookup (fs_store d path n) other = fs_lookup d other.
Proof.
  intros Hne. assert (E : String.eqb path other = false)
    by (apply String.eqb_neq; congruence).
  induction d as [|[p0 m] d IH]; cbn [fs_store fs_lookup].
  - now rewrite E.
  - destruct (String.eqb p0 path) eqn:E0; cbn [fs_lookup].
    + apply String.eqb_eq in E0 as ->. now rewrite E.
    + now rewrite IH.
Qed.

Lemma simple_write_frame (d : simple_fs) (path content other : string) :
  other <> path ->
  simple_read (fst (simple_write d path content)) other = simple_read d other.
Proof.
  intros Hne. unfold simple_write, simple_read.
  destruct (fs_lookup d path) as [[r [|] c0|]|]; cbn [fst];
    now rewrite ?fs_lookup_store.
Qed.

Lemma simple_read_no_re_error (d : simple_fs) (path : string) :
  simple_read d path <> inl ReError.
Proof.
  unfold simple_read. destruct (fs_lookup d path) as [[[|] w c|]|]; discriminate.
Qed.

Lemma simple_write_no_re_error (d : simple_fs) (path content : string) :
  snd (simple_write d path content) <> Some ReError.
Proof.
  unfold simple_write.
  destruct (fs_lookup d path) as [[r [|] c|]|]; discriminate.
Qed.


End Examples.

Section Extras.
Import Re Walk Spec App.

Lemma css_rewritten_names (replacements : list (string * string))
    (content : string) :
  identifiers replacements ->
  replace_classnames_ids_css content replacements
    = Some (rewrite_all_css replacements content) /\
  find_classnames_ids_css (rewrite_all_css replacements content)
  = (set_map (rename_all replacements) (fst (find_classnames_ids_css content)),
     set_map (rename_all replacements) (snd (find_classnames_ids_css content))).
Proof.
  intros Hi. split.
  - apply replace_all_css_rewrite. unfold plain_tokens.
    eapply Forall_impl; [exact Hi|]. intros kv [_ [Ht _]]. now apply ident_plain.
  - rewrite !find_classnames_ids_css_found. cbn [fst snd].
    now rewrite !css_found_rewrite_all.
Qed.

(** Scanning a style sheet after the CSS rewriter has run finds exactly the
    renamed identifiers: when keys and tokens are non-empty and made of
    identifier characters, the class names (IDs) of the rewritten sheet are
    those of the sheet, each taken through the substitutions of the
    dictionary in its order. *)
Theorem css_scan_after_rewrite (replacements : list (string * string))
    (content : string) :
  identifiers replacements ->
  exists out,
    replace_classnames_ids_css content replacements = Some out /\
    find_classnames_ids_css out
    = (set_map (rename_all replacements) (fst (find_classnames_ids_css content)),
       set_map (rename_all replacements) (snd (find_classnames_ids_css content))).
Proof.
  intros Hi. exists (rewrite_all_css replacements content).
  now apply css_rewritten_names.
Qed.

Lemma css_scan_after_rewrite_witness :
  identifiers [("hero", "Ab3dEf9h"); ("Ab3dEf9h", "nav")] /\
  exists out,
    replace_classnames_ids_css ".hero, #hero { } .nav:hover { }"
      [("hero", "Ab3dEf9h"); ("Ab3dEf9h", "nav")] = Some out /\
    find_classnames_ids_css out
    = (set_map (rename_all [("hero", "Ab3dEf9h"); ("Ab3dEf9h", "nav")])
         (fst (find_classnames_ids_css ".hero, #hero { } .nav:hover { }")),
       set_map (rename_all [("hero", "Ab3dEf9h"); ("Ab3dEf9h", "nav")])
         (snd (find_classnames_ids_css ".hero, #hero { } .nav:hover { }"))).
Proof.
  assert (H : identifiers [("hero", "Ab3dEf9h"); ("Ab3dEf9h", "nav")])
    by (repeat constructor; discriminate).
  split; [exact H|].
  exact (css_scan_after_rewrite _ ".hero, #hero { } .nav:hover { }" H).
Defined.

(** With a dictionary whose substitutions do not interfere, and non-empty
    keys and tokens, the CSS rewriter replaces every key it can find: the
    names of the rewritten sheet are the tokens of the names of the sheet
    (a name that is not a key stands for itself), and no key is a name of
    the rewritten sheet any more. *)
Theorem css_keys_replaced (replacements : list (string * string))
    (content : string) :
  independent replacements -> identifiers replacements ->
  exists out,
    replace_classnames_ids_css content replacements = Some out /\
    (forall y, y ∈ fst (find_classnames_ids_css out) <->
               exists x, x ∈ fst (find_classnames_ids_css content) /\
                         y = token_of replacements x) /\
    (forall y, y ∈ snd (find_classnames_ids_css out) <->
               exists x, x ∈ snd (find_classnames_ids_css content) /\
                         y = token_of replacements x) /\
    (forall K T, (K, T) ∈ replacements ->
                 (K ∉ fst (find_classnames_ids_css out)) /\
                 (K ∉ snd (find_classnames_ids_css out))).
Proof.
  intros Hind Hi.
  destruct (css_rewritten_names replacements content Hi) as (Ho & Hf).
  exists (rewrite_all_css replacements content).
  split; [assumption|]. rewrite Hf. cbn [fst snd].
  assert (Himg : forall (S : gset string) y,
    y ∈ (set_map (rename_all replacements) S : gset string) <->
    exists x, x ∈ S /\ y = token_of replacements x).
  { intros S y. rewrite elem_of_map. split.
    - intros (x & -> & Hx). exists x. split; [assumption|].
      now apply rename_all_token.
    - intros (x & Hx & ->). exists x. split; [|assumption].
      symmetry. now apply rename_all_token. }
  assert (Hgone : forall (S : gset string) K T, (K, T) ∈ replacements ->
    K ∉ (set_map (rename_all replacements) S : gset string)).
  { intros S K T Hin Hk. apply Himg in Hk as (x & _ & E).
    destruct Hind as (_ & _ & Hno).
    destruct (token_of_cases replacements x) as [(t & Ht & Et)|(Hn & Et)].
    - apply (Hno (x, t) (K, T) Ht Hin). cbn [fst snd]. congruence.
    - apply Hn. rewrite <- Et, <- E. apply list_elem_of_fmap. now exists (K, T). }
  split; [apply Himg|]. split; [apply Himg|].
  intros K T Hin. split; now apply (Hgone _ K T).
Qed.

Lemma css_keys_replaced_witness :
  independent [("nav", "Ab3dEf9h"); ("navbar", "Zy8xWv7u")] /\
  identifiers [("nav", "Ab3dEf9h"); ("navbar", "Zy8xWv7u")] /\
  exists out,
    replace_classnames_ids_css ".navbar .nav, #nav { }"
      [("nav", "Ab3dEf9h"); ("navbar", "Zy8xWv7u")] = Some out /\
    ("nav" ∉ fst (find_classnames_ids_css out)) /\
    ("nav" ∉ snd (find_classnames_ids_css out)).
Proof.
  assert (H1 : independent [("nav", "Ab3dEf9h"); ("navbar", "Zy8xWv7u")]).
  { split; [|split].
    - now apply NoDup_pair.
    - repeat constructor.
    - intros kv kv' Hk Hk'. apply list_elem_of_In in Hk, Hk'.
      destruct Hk as [<-|[<-|[]]], Hk' as [<-|[<-|[]]]; cbn [fst snd];
        discriminate. }
  assert (H2 : identifiers [("nav", "Ab3dEf9h"); ("navbar", "Zy8xWv7u")])
    by (repeat constructor; discriminate).
  split; [exact H1|]. split; [exact H2|].
  destruct (css_keys_replaced _ ".navbar .nav, #nav { }" H1 H2)
    as (out & Ho & _ & _ & Hk).
  exists out. split; [exact Ho|].
  apply (Hk "nav" "Ab3dEf9h"). left.
Defined.

(** In a text without quotes the HTML/JS scanner finds nothing, so also in
    the empty text. *)
Theorem scanner_without_quotes (content : string) :
  all_chars not_quote content = true ->
  find_classnames_ids content = (∅, ∅).
Proof.
  intros Hc. rewrite find_classnames_ids_found.
  now rewrite !found_at_plain.
Qed.

Lemma scanner_without_quotes_witness :
  all_chars not_quote "<div class=hero id=nav>" = true /\
  find_classnames_ids "<div class=hero id=nav>" = (∅, ∅).
Proof.
  assert (H : all_chars not_quote "<div class=hero id=nav>" = true)
    by reflexivity.
  split; [exact H|]. exact (scanner_without_quotes _ H).
Defined.

(** The HTML/JS rewriter returns a text without quotes as it is, whatever
    the dictionary (with tokens free of backslashes). *)
Theorem rewriter_without_quotes (replacements : list (string * string))
    (content : string) :
  plain_tokens replacements -> all_chars not_quote content = true ->
  replace_classnames_ids content replacements = Some content.
Proof.
  intros Hp Hc. rewrite replace_all_rewrite by assumption.
  now rewrite rewrite_all_plain.
Qed.

Lemma rewriter_without_quotes_witness :
  plain_tokens [("hero", "Ab3dEf9h"); ("nav", "Zy8xWv7u")] /\
  all_chars not_quote "<div class=hero id=nav>" = true /\
  replace_classnames_ids "<div class=hero id=nav>"
    [("hero", "Ab3dEf9h"); ("nav", "Zy8xWv7u")]
  = Some "<div class=hero id=nav>".
Proof.
  assert (H1 : plain_tokens [("hero", "Ab3dEf9h"); ("nav", "Zy8xWv7u")])
    by (repeat constructor).
  assert (H2 : all_chars not_quote "<div class=hero id=nav>" = true)
    by reflexivity.
  split; [exact H1|]. split; [exact H2|].
  exact (rewriter_without_quotes _ _ H1 H2).
Defined.

(** When the scan phase returns, the class names (IDs) it hands on are the
    union, over the listed files, of what the scanner for the kind of file
    finds in the file as it is on the disk at the start; a file that
    cannot be read adds nothing; and the disk is as it was. *)
Theorem scan_phase_collects {fsys rng : Type}
    (read_text : fsys -> string -> exn + string)
    (files : list string) (w w1 : @world fsys rng) (cls ids : gset string) :
  scan_phase read_text files (∅, ∅) w = (w1, Returned (cls, ids)) ->
  cls = ⋃ (List.map (fun p => fst (scanned read_text (disk w) p)) files) /\
  ids = ⋃ (List.map (fun p => snd (scanned read_text (disk w) p)) files) /\
  disk w1 = disk w.
Proof.
  intros H. pose proof (scan_phase_outcome read_text _ _ _ _ _ H) as (_ & Hd & _).
  apply scan_phase_found in H as [Hc Hi]. cbn [fst snd] in Hc, Hi.
  split; [|split; [|assumption]].
  - rewrite Hc. apply (left_id_L ∅ (∪)).
  - rewrite Hi. apply (left_id_L ∅ (∪)).
Qed.

Lemma scan_phase_collects_witness :
  scan_phase simple_read ["index.html"; "script.js"; "style.css"] (∅, ∅)
    demo_world
  = (fst (scan_phase simple_read ["index.html"; "script.js"; "style.css"]
            (∅, ∅) demo_world),
     Returned ({["box"; "hero main"; "hero"]}, {["box"]})) /\
  ({["box"; "hero main"; "hero"]} : gset string)
  = ⋃ (List.map (fun p => fst (scanned simple_read demo_disk p))
         ["index.html"; "script.js"; "style.css"]).
Proof.
  assert (H : scan_phase simple_read ["index.html"; "script.js"; "style.css"]
                (∅, ∅) demo_world
              = (fst (scan_phase simple_read
                        ["index.html"; "script.js"; "style.css"]
                        (∅, ∅) demo_world),
                 Returned ({["box"; "hero main"; "hero"]}, {["box"]})))
    by (vm_compute; reflexivity).
  split; [exact H|].
  exact (proj1 (scan_phase_collects simple_read _ demo_world _ _ _ H)).
Defined.

(** The mapping phase, whole: the dictionary pairs the class names, in the
    order their set is iterated, and then the IDs that are not class names,
    in the order theirs is, with the tokens the generator yields one after
    the other from the random source; the disk and the log are as before,
    and the random source is left behind the last token. *)
Theorem mapping_phase_keys_and_tokens {fsys rng : Type}
    (randbelow : nat -> rng -> nat * rng)
    (set_order : gset string -> list string)
    (cls ids : gset string) (w : @world fsys rng) :
  (forall S, set_order S ≡ₚ elements S) ->
  mapping_phase randbelow set_order cls ids w =
  (World (disk w)
     (snd (tokens randbelow
             (length (set_order cls ++ filter (fun x => x ∉ cls) (set_order ids)))
             (random_state w)))
     (log w),
   zip (set_order cls ++ filter (fun x => x ∉ cls) (set_order ids))
     (fst (tokens randbelow
             (length (set_order cls ++ filter (fun x => x ∉ cls) (set_order ids)))
             (random_state w)))).
Proof. intros Hs. now apply mapping_phase_tokens. Qed.

Lemma mapping_phase_keys_and_tokens_witness :
  (forall S : gset string, elements S ≡ₚ elements S) /\
  snd (mapping_phase counter_below elements {["box"; "hero"]} {["box"; "nav"]}
         demo_world)
  = zip (elements ({["box"; "hero"]} : gset string)
           ++ filter (fun x => x ∉ ({["box"; "hero"]} : gset string))
                (elements ({["box"; "nav"]} : gset string)))
      (fst (tokens counter_below
              (length (elements ({["box"; "hero"]} : gset string)
                         ++ filter (fun x => x ∉ ({["box"; "hero"]} : gset string))
                              (elements ({["box"; "nav"]} : gset string))))
              0)).
Proof.
  assert (H : forall S : gset string, elements S ≡ₚ elements S)
    by reflexivity.
  split; [exact H|].
  exact (f_equal snd
           (mapping_phase_keys_and_tokens counter_below elements
              {["box"; "hero"]} {["box"; "nav"]} demo_world H)).
Defined.

(** In a run, no key of the dictionary is empty and none holds a quote,
    whatever the files hold. *)
Theorem dictionary_keys_not_empty {fsys rng : Type}
    (read_text : fsys -> string -> exn + string)
    (randbelow : nat -> rng -> nat * rng)
    (set_order : gset string -> list string)
    (files : list string) (w w1 : @world fsys rng) (cls ids : gset string) :
  (forall S, set_order S ≡ₚ elements S) ->
  scan_phase read_text files (∅, ∅) w = (w1, Returned (cls, ids)) ->
  Forall (fun kv => fst kv <> EmptyString /\
                    all_chars not_quote (fst kv) = true)
    (snd (mapping_phase randbelow set_order cls ids w1)).
Proof.
  intros Hs H. apply Forall_forall. intros [K T] Hin. cbn [fst].
  apply (scan_phase_names read_text files w w1 cls ids K H).
  apply (mapping_phase_keys randbelow set_order Hs cls ids w1).
  apply list_elem_of_fmap. now exists (K, T).
Qed.

Lemma dictionary_keys_not_empty_witness :
  (forall S : gset string, elements S ≡ₚ elements S) /\
  scan_phase simple_read ["index.html"] (∅, ∅) demo_world
    = (logging DEBUG "Scanning file: index.html" demo_world,
       Returned ({["box"; "hero main"]}, {["box"]})) /\
  Forall (fun kv => fst kv <> EmptyString /\
                    all_chars not_quote (fst kv) = true)
    (snd (mapping_phase counter_below elements
            {["box"; "hero main"]} {["box"]}
            (logging DEBUG "Scanning file: index.html" demo_world))).
Proof.
  assert (H1 : forall S : gset string, elements S ≡ₚ elements S)
    by reflexivity.
  assert (H2 : scan_phase simple_read ["index.html"] (∅, ∅) demo_world
    = (logging DEBUG "Scanning file: index.html" demo_world,
       Returned ({["box"; "hero main"]}, {["box"]})))
    by (vm_compute; reflexivity).
  split; [exact H1|]. split; [exact H2|].
  exact (dictionary_keys_not_empty simple_read counter_below elements
           ["index.html"] demo_world _ _ _ H1 H2).
Defined.

(** A run writes to the listed files only: on a file system where writing
    one path leaves what is read at the others, any path that is not in
    the list reads after the run, however it ends, as it read before. *)
Theorem process_files_writes_listed_only {fsys rng : Type}
    (read_text : fsys -> string -> exn + string)
    (write_text : fsys -> string -> string -> fsys * option exn)
    (randbelow : nat -> rng -> nat * rng)
    (set_order : gset string -> list string)
    (files : list string) (w : @world fsys rng) (other : string) :
  (forall d path content other,
     other <> path ->
     read_text (fst (write_text d path content)) other = read_text d other) ->
  other ∉ files ->
  read_text
    (disk (fst (process_files read_text write_text randbelow set_order files w)))
    other
  = read_text (disk w) other.
Proof.
  intros Hf Hn.
  apply (process_files_frame read_text write_text randbelow set_order Hf
           files w _ (snd (process_files read_text write_text randbelow
                             set_order files w)));
    [apply surjective_pairing|assumption].
Qed.

Lemma process_files_writes_listed_only_witness :
  (forall d path content other,
     other <> path ->
     simple_read (fst (simple_write d path content)) other
     = simple_read d other) /\
  ("style.css" ∉ ["index.html"; "script.js"]) /\
  simple_read
    (disk (fst (process_files simple_read simple_write counter_below elements
                  ["index.html"; "script.js"] demo_world)))
    "style.css"
  = simple_read demo_disk "style.css".
Proof.
  assert (H1 : forall d path content other,
     other <> path ->
     simple_read (fst (simple_write d path content)) other
     = simple_read d other) by exact simple_write_frame.
  assert (H2 : ~ ("style.css" ∈ ["index.html"; "script.js"])).
  { intros H. apply list_elem_of_In in H. simpl in H.
    destruct H as [H|[H|[]]]; discriminate H. }
  split; [exact H1|]. split; [exact H2|].
  exact (process_files_writes_listed_only simple_read simple_write
           counter_below elements ["index.html"; "script.js"] demo_world
           "style.css" H1 H2).
Defined.

(** A run does not create files: on such a file system, a path that cannot
    be read before the run, listed or not, cannot be read after it, with the
    same failure. *)
Theorem process_files_creates_nothing {fsys rng : Type}
    (read_text : fsys -> string -> exn + string)
    (write_text : fsys -> string -> string -> fsys * option exn)
    (randbelow : nat -> rng -> nat * rng)
    (set_order : gset string -> list string)
    (files : list string) (w : @world fsys rng) (path : string) (e : exn) :
  (forall d path content other,
     other <> path ->
     read_text (fst (write_text d path content)) other = read_text d other) ->
  read_text (disk w) path = inl e ->
  read_text
    (disk (fst (process_files read_text write_text randbelow set_order files w)))
    path
  = inl e.
Proof.
  intros Hf He.
  apply (process_files_unreadable read_text write_text randbelow set_order Hf
           files w _ (snd (process_files read_text write_text randbelow
                             set_order files w)));
    [apply surjective_pairing|assumption].
Qed.

Lemma process_files_creates_nothing_witness :
  (forall d path content other,
     other <> path ->
     simple_read (fst (simple_write d path content)) other
     = simple_read d other) /\
  simple_read demo_disk "script.js" = inl (FileNotFoundError "script.js") /\
  simple_read
    (disk (fst (process_files simple_read simple_write counter_below elements
                  ["index.html"; "script.js"; "style.css"] demo_world)))
    "script.js"
  = inl (FileNotFoundError "script.js").
Proof.
  assert (H1 : forall d path content other,
     other <> path ->
     simple_read (fst (simple_write d path content)) other
     = simple_read d other) by exact simple_write_frame.
  assert (H2 : simple_read (disk demo_world) "script.js"
               = inl (FileNotFoundError "script.js")) by reflexivity.
  split; [exact H1|]. split; [exact H2|].
  exact (process_files_creates_nothing simple_read simple_write
           counter_below elements ["index.html"; "script.js"; "style.css"]
           demo_world "script.js" _ H1 H2).
Defined.

(** An attribute [className=] is rewritten but not scanned: in a text whose
    only quotes are those of its value, the scanner finds nothing, while
    the rewriter, given the value as a key, writes the token for it. *)
Theorem className_rewritten_not_scanned (pre x t post : string) (q1 q2 : ascii) :
  all_chars not_quote pre = true -> all_chars not_quote post = true ->
  quote q1 = true -> quote q2 = true ->
  x <> EmptyString -> ident x -> ident t ->
  find_classnames_ids
    (pre +:+ "className=" +:+ String q1 (x +:+ String q2 post)) = (∅, ∅) /\
  replace_classnames_ids
    (pre +:+ "className=" +:+ String q1 (x +:+ String q2 post)) [(x, t)]
  = Some (pre +:+ "className=" +:+ dq +:+ t +:+ dq +:+ post).
Proof.
  intros Hpre Hpost Hq1 Hq2 Hx0 Hx Ht. split.
  - apply className_not_scanned; auto. now apply ident_not_quote.
  - now apply className_rewritten.
Qed.

Lemma className_rewritten_not_scanned_witness :
  all_chars not_quote "<div " = true /\ all_chars not_quote ">" = true /\
  quote dquote = true /\ "hero" <> EmptyString /\ ident "hero" /\
  ident "Ab3dEf9h" /\
  find_classnames_ids
    ("<div " +:+ "className=" +:+ String dquote ("hero" +:+ String dquote ">"))
  = (∅, ∅) /\
  replace_classnames_ids
    ("<div " +:+ "className=" +:+ String dquote ("hero" +:+ String dquote ">"))
    [("hero", "Ab3dEf9h")]
  = Some ("<div " +:+ "className=" +:+ dq +:+ "Ab3dEf9h" +:+ dq +:+ ">").
Proof.
  assert (H1 : all_chars not_quote "<div " = true) by reflexivity.
  assert (H2 : all_chars not_quote ">" = true) by reflexivity.
  assert (H3 : quote dquote = true) by reflexivity.
  assert (H4 : "hero" <> EmptyString) by discriminate.
  assert (H5 : ident "hero") by reflexivity.
  assert (H6 : ident "Ab3dEf9h") by reflexivity.
  split; [exact H1|]. split; [exact H2|]. split; [exact H3|].
  split; [exact H4|]. split; [exact H5|]. split; [exact H6|].
  exact (className_rewritten_not_scanned "<div " "hero" "Ab3dEf9h" ">"
           dquote dquote H1 H2 H3 H3 H4 H5 H6).
Defined.

(** A script call directly behind a word character is scanned but not
    rewritten: only the rewriter's patterns ask for a word boundary.  In a
    text whose only quotes are those of the argument, the scanner finds
    the identifier, and the rewriter, given it as a key, returns the text
    as it is. *)
Theorem call_behind_word_scanned_not_rewritten (a : anchor)
    (pre x t post dc : string) (q1 q2 : ascii) :
  In a rewrite_anchors -> bounded a = true ->
  all_chars not_quote pre = true -> word_opt (last_opt None pre) = true ->
  all_chars not_quote post = true ->
  quote q1 = true -> quote q2 = true -> dot_part a dc ->
  x <> EmptyString -> ident x -> ident t ->
  x ∈ fst (find_classnames_ids (pre +:+ shaped a q1 dc x q2 +:+ post))
      ∪ snd (find_classnames_ids (pre +:+ shaped a q1 dc x q2 +:+ post)) /\
  replace_classnames_ids (pre +:+ shaped a q1 dc x q2 +:+ post) [(x, t)]
  = Some (pre +:+ shaped a q1 dc x q2 +:+ post).
Proof.
  intros Ha Hb Hpre Hw Hpost Hq1 Hq2 Hd Hx0 Hx Ht. split.
  - rewrite find_classnames_ids_found. cbn [fst snd].
    assert (Hin : In x (captures
                          (capture_rule (Anchor false (opener a) (dotted a) (closed a)))
                          (pre +:+ shaped a q1 dc x q2 +:+ post))).
    { change (shaped a q1 dc x q2)
        with (shaped (Anchor false (opener a) (dotted a) (closed a)) q1 dc x q2).
      apply capture_in_context; auto.
      - cbn [opener]. now destruct (opener_facts a Ha) as (-> & _).
      - now apply ident_not_quote. }
    apply elem_of_union. rewrite !elem_of_found_at.
    each_anchor Ha; try discriminate Hb;
      [left|left|left|right]; eexists; (split; [|exact Hin]);
      cbn [class_anchors id_anchors In opener dotted closed]; tauto.
  - rewrite replace_all_rewrite by now apply single_plain.
    unfold rewrite_all. cbn [fold_left fst snd].
    assert (Hstep : forall a', In a' rewrite_anchors ->
      rewrite (quoted_rule a' x t) (pre +:+ shaped a q1 dc x q2 +:+ post) =
      pre +:+ shaped a q1 dc x q2 +:+ post).
    { intros a' Ha'. destruct (anchor_eq_dec a' a) as [->|Hne].
      - rewrite quoted_barred; auto.
        + now rewrite quoted_rewrite_plain.
        + now apply quoted_rule_bounded.
      - rewrite quoted_pass; auto. now rewrite quoted_rewrite_plain. }
    unfold rewrite_one, rewrite_anchors. cbn [fold_left].
    now rewrite !Hstep by (cbn [rewrite_anchors In]; tauto).
Qed.

Lemma call_behind_word_scanned_not_rewritten_witness :
  "nav" ∈ fst (find_classnames_ids "my_getElementById('nav');")
          ∪ snd (find_classnames_ids "my_getElementById('nav');") /\
  replace_classnames_ids "my_getElementById('nav');" [("nav", "Ab3dEf9h")]
  = Some "my_getElementById('nav');".
Proof.
  assert (H1 : In (Anchor true "getElementById(" false true) rewrite_anchors)
    by (cbn; tauto).
  assert (H2 : all_chars not_quote "my_" = true) by reflexivity.
  assert (H3 : word_opt (last_opt None "my_") = true) by reflexivity.
  assert (H4 : all_chars not_quote ";" = true) by reflexivity.
  assert (H5 : quote "'" = true) by reflexivity.
  assert (H6 : dot_part (Anchor true "getElementById(" false true) "")
    by reflexivity.
  assert (H7 : "nav" <> EmptyString) by discriminate.
  assert (H8 : ident "nav") by reflexivity.
  assert (H9 : ident "Ab3dEf9h") by reflexivity.
  exact (call_behind_word_scanned_not_rewritten
           (Anchor true "getElementById(" false true)
           "my_" "nav" "Ab3dEf9h" ";" "" "'" "'"
           H1 eq_refl H2 H3 H4 H5 H5 H6 H7 H8 H9).
Defined.

(** A style sheet processed with the dictionary built from its own scan:
    the rewriter returns a sheet, and scanning that sheet finds the class
    names and IDs of the first, each taken through the substitutions of
    the dictionary. *)
Theorem css_sheet_alone {fsys rng : Type}
    (randbelow : nat -> rng -> nat * rng)
    (set_order : gset string -> list string)
    (content : string) (w : @world fsys rng) :
  (forall n g, 0 < n -> fst (randbelow n g) < n) ->
  (forall S, set_order S ≡ₚ elements S) ->
  let replacements :=
    snd (mapping_phase randbelow set_order
           (fst (find_classnames_ids_css content))
           (snd (find_classnames_ids_css content)) w) in
  exists out,
    replace_classnames_ids_css content replacements = Some out /\
    find_classnames_ids_css out
    = (set_map (rename_all replacements) (fst (find_classnames_ids_css content)),
       set_map (rename_all replacements) (snd (find_classnames_ids_css content))).
Proof.
  intros Hr Hs replacements.
  exists (rewrite_all_css replacements content).
  apply css_rewritten_names. now apply sheet_dictionary.
Qed.

Lemma css_sheet_alone_witness :
  (forall n g, 0 < n -> fst (counter_below n g) < n) /\
  (forall S : gset string, elements S ≡ₚ elements S) /\
  exists out,
    replace_classnames_ids_css ".box { } #nav, .box:hover { }"
      (snd (mapping_phase counter_below elements
              (fst (find_classnames_ids_css ".box { } #nav, .box:hover { }"))
              (snd (find_classnames_ids_css ".box { } #nav, .box:hover { }"))
              demo_world))
    = Some out.
Proof.
  assert (H1 : forall n g, 0 < n -> fst (counter_below n g) < n)
    by (intros n g Hn; simpl; apply Nat.mod_upper_bound; lia).
  assert (H2 : forall S : gset string, elements S ≡ₚ elements S)
    by reflexivity.
  split; [exact H1|]. split; [exact H2|].
  destruct (css_sheet_alone counter_below elements
              ".box { } #nav, .box:hover { }" demo_world H1 H2)
    as (out & Ho & _).
  exists out. exact Ho.
Defined.

(** A run never fails in a substitution: when the file system does not
    itself report a pattern error, no run ends with one, since the tokens
    hold no backslash. *)
Theorem process_files_never_re_error {fsys rng : Type}
    (read_text : fsys -> string -> exn + string)
    (write_text : fsys -> string -> string -> fsys * option exn)
    (randbelow : nat -> rng -> nat * rng)
    (set_order : gset string -> list string)
    (files : list string) (w : @world fsys rng) :
  (forall d path, read_text d path <> inl ReError) ->
  (forall d path content, snd (write_text d path content) <> Some ReError) ->
  snd (process_files read_text write_text randbelow set_order files w)
    <> Raised ReError.
Proof.
  intros Hr Hw H.
  apply (process_files_no_re_error read_text write_text randbelow set_order
           files w
           (fst (process_files read_text write_text randbelow set_order files w))
           ReError Hr Hw); [|reflexivity].
  rewrite <- H. apply surjective_pairing.
Qed.

Lemma process_files_never_re_error_witness :
  (forall d path, simple_read d path <> inl ReError) /\
  (forall d path content, snd (simple_write d path content) <> Some ReError) /\
  snd (process_files simple_read simple_write counter_below elements
         ["index.html"; "notes"; "style.css"] demo_world)
    <> Raised ReError.
Proof.
  assert (H1 : forall d path, simple_read d path <> inl ReError)
    by exact simple_read_no_re_error.
  assert (H2 : forall d path content,
                 snd (simple_write d path content) <> Some ReError)
    by exact simple_write_no_re_error.
  split; [exact H1|]. split; [exact H2|].
  exact (process_files_never_re_error simple_read simple_write counter_below
           elements ["index.html"; "notes"; "style.css"] demo_world H1 H2).
Defined.

(** With a whole dictionary whose substitutions do not interfere, an
    occurrence of a key is written anew with the token of that key, in a
    page and in a style sheet alike: behind a text without quotes (without
    markers), the occurrence at any anchor of the rewriter (the selector
    token) becomes the same with the token, and the rest is rewritten as
    it would be alone. *)
Theorem same_token_in_page_and_sheet (replacements : list (string * string))
    (x T : string) :
  independent replacements -> (x, T) ∈ replacements ->
  (forall a pre post dc q1 q2,
     In a rewrite_anchors -> all_chars not_quote pre = true ->
     quote q1 = true -> quote q2 = true -> dot_part a dc ->
     (bounded a = true -> word_opt (last_opt None pre) = false) ->
     replace_classnames_ids (pre +:+ shaped a q1 dc x q2 +:+ post) replacements
     = Some (pre +:+ emitted a T +:+ rewrite_all replacements post)) /\
  (forall m d pre post,
     css_marker m = true -> unmarked pre -> css_sep d = true ->
     replace_classnames_ids_css (pre +:+ String m (x +:+ String d post))
       replacements
     = Some (pre +:+ String m (T +:+ String d (rewrite_all_css replacements post)))).
Proof.
  intros Hi Hin. pose proof (independent_plain _ Hi) as Hp. split.
  - intros a pre post dc q1 q2 Ha Hpre Hq1 Hq2 Hd Hb.
    rewrite replace_all_rewrite by assumption.
    now rewrite (rewrite_all_occurrence replacements a x T pre dc).
  - intros m d pre post Hm Hpre Hd.
    rewrite replace_all_css_rewrite by assumption.
    now rewrite (rewrite_all_css_occurrence replacements m d x T pre).
Qed.

Lemma same_token_in_page_and_sheet_witness :
  independent [("box", "Ab3dEf9h"); ("nav", "Zy8xWv7u")] /\
  ("nav", "Zy8xWv7u") ∈ [("box", "Ab3dEf9h"); ("nav", "Zy8xWv7u")] /\
  replace_classnames_ids_css ("" +:+ String "#" ("nav" +:+ String "," " .box { }"))
    [("box", "Ab3dEf9h"); ("nav", "Zy8xWv7u")]
  = Some ("" +:+ String "#" ("Zy8xWv7u" +:+ String ","
            (rewrite_all_css [("box", "Ab3dEf9h"); ("nav", "Zy8xWv7u")]
               " .box { }"))).
Proof.
  assert (H1 : independent [("box", "Ab3dEf9h"); ("nav", "Zy8xWv7u")]).
  { split; [|split].
    - now apply NoDup_pair.
    - repeat constructor.
    - intros kv kv' Hk Hk'. apply list_elem_of_In in Hk, Hk'.
      destruct Hk as [<-|[<-|[]]], Hk' as [<-|[<-|[]]]; cbn [fst snd];
        discriminate. }
  assert (H2 : ("nav", "Zy8xWv7u")
                 ∈ [("box", "Ab3dEf9h"); ("nav", "Zy8xWv7u")])
    by (right; left).
  split; [exact H1|]. split; [exact H2|].
  exact (proj2 (same_token_in_page_and_sheet _ "nav" "Zy8xWv7u" H1 H2)
           "#"%char ","%char "" " .box { }" eq_refl eq_refl eq_refl).
Defined.

(** Running the CSS rewriter a second time with the same dictionary
    changes nothing, when the substitutions of the dictionary do not
    interfere: the rewritten sheet is returned as it is. *)
Theorem css_rewriter_twice (replacements : list (string * string))
    (content : string) :
  independent replacements ->
  exists out,
    replace_classnames_ids_css content replacements = Some out /\
    replace_classnames_ids_css out replacements = Some out.
Proof.
  intros Hi. pose proof (independent_plain _ Hi) as Hp.
  exists (rewrite_all_css replacements content).
  rewrite !replace_all_css_rewrite by assumption. split; [reflexivity|].
  f_equal.
  now apply (rewrite_all_css_twice replacements Hi (String.length content)).
Qed.

Lemma css_rewriter_twice_witness :
  independent [("nav", "Ab3dEf9h"); ("navbar", "Zy8xWv7u")] /\
  exists out,
    replace_classnames_ids_css ".navbar .nav, #nav { }"
      [("nav", "Ab3dEf9h"); ("navbar", "Zy8xWv7u")] = Some out /\
    replace_classnames_ids_css out
      [("nav", "Ab3dEf9h"); ("navbar", "Zy8xWv7u")] = Some out.
Proof.
  assert (H1 : independent [("nav", "Ab3dEf9h"); ("navbar", "Zy8xWv7u")]).
  { split; [|split].
    - now apply NoDup_pair.
    - repeat constructor.
    - intros kv kv' Hk Hk'. apply list_elem_of_In in Hk, Hk'.
      destruct Hk as [<-|[<-|[]]], Hk' as [<-|[<-|[]]]; cbn [fst snd];
        discriminate. }
  split; [exact H1|].
  exact (css_rewriter_twice _ ".navbar .nav, #nav { }" H1).
Defined.

(** The CSS rewriter changes names only: with keys and tokens made of
    identifier characters, the rewritten sheet and the sheet are the same
    once the identifier characters are taken out of both, so no
    punctuation, white space or other character is added, dropped or
    moved. *)
Theorem css_rewriter_keeps_skeleton (replacements : list (string * string))
    (content : string) :
  Forall (fun kv => ident (fst kv) /\ ident (snd kv)) replacements ->
  exists out,
    replace_classnames_ids_css content replacements = Some out /\
    skeleton out = skeleton content.
Proof.
  intros Hf. exists (rewrite_all_css replacements content). split.
  - apply replace_all_css_rewrite. unfold plain_tokens.
    eapply Forall_impl; [exact Hf|]. intros kv [_ Ht]. now apply ident_plain.
  - now apply (rewrite_all_css_skeleton replacements Hf (String.length content)).
Qed.

Lemma css_rewriter_keeps_skeleton_witness :
  Forall (fun kv => ident (fst kv) /\ ident (snd kv))
    [("hero", "Ab3dEf9h"); ("nav", "Zy8xWv7u")] /\
  exists out,
    replace_classnames_ids_css ".hero > #nav, a.hero:hover { top: 0 }"
      [("hero", "Ab3dEf9h"); ("nav", "Zy8xWv7u")] = Some out /\
    skeleton out = skeleton ".hero > #nav, a.hero:hover { top: 0 }".
Proof.
  assert (H : Forall (fun kv => ident (fst kv) /\ ident (snd kv))
                [("hero", "Ab3dEf9h"); ("nav", "Zy8xWv7u")])
    by (repeat constructor).
  split; [exact H|].
  exact (css_rewriter_keeps_skeleton _
           ".hero > #nav, a.hero:hover { top: 0 }" H).
Defined.

(** Running the HTML/JS rewriter a second time with the same dictionary
    changes nothing, when the substitutions of the dictionary do not
    interfere: the rewritten page is returned as it is. *)
Theorem page_rewriter_twice (replacements : list (string * string))
    (content : string) :
  independent replacements ->
  exists out,
    replace_classnames_ids content replacements = Some out /\
    replace_classnames_ids out replacements = Some out.
Proof.
  intros Hi. pose proof (independent_plain _ Hi) as Hp.
  exists (rewrite_all replacements content).
  rewrite !replace_all_rewrite by assumption. split; [reflexivity|].
  f_equal. now apply rewrite_all_twice.
Qed.

Lemma page_rewriter_twice_witness :
  independent [("nav", "Ab3dEf9h"); ("navbar", "Zy8xWv7u")] /\
  exists out,
    replace_classnames_ids "<ul id='nav' class='navbar'>"
      [("nav", "Ab3dEf9h"); ("navbar", "Zy8xWv7u")] = Some out /\
    replace_classnames_ids out
      [("nav", "Ab3dEf9h"); ("navbar", "Zy8xWv7u")] = Some out.
Proof.
  assert (H1 : independent [("nav", "Ab3dEf9h"); ("navbar", "Zy8xWv7u")]).
  { split; [|split].
    - now apply NoDup_pair.
    - repeat constructor.
    - intros kv kv' Hk Hk'. apply list_elem_of_In in Hk, Hk'.
      destruct Hk as [<-|[<-|[]]], Hk' as [<-|[<-|[]]]; cbn [fst snd];
        discriminate. }
  split; [exact H1|].
  exact (page_rewriter_twice _ "<ul id='nav' class='navbar'>" H1).
Defined.

(** A run that meets, on reading a listed file in the first pass, a failure
    other than the two caught ones stops before anything is written: it
    raises, and the disk is as it was. *)
Theorem process_files_aborts_untouched {fsys rng : Type}
    (read_text : fsys -> string -> exn + string)
    (write_text : fsys -> string -> string -> fsys * option exn)
    (randbelow : nat -> rng -> nat * rng)
    (set_order : gset string -> list string)
    (files : list string) (w : @world fsys rng) (path : string) (e : exn) :
  path ∈ files -> read_text (disk w) path = inl e -> caught e = false ->
  exists w' e',
    process_files read_text write_text randbelow set_order files w
      = (w', Raised e') /\
    disk w' = disk w.
Proof.
  intros Hp Hr Hc.
  now apply (process_files_aborts read_text write_text randbelow set_order
               files w path e).
Qed.

Lemma process_files_aborts_untouched_witness :
  ("notes" ∈ ["index.html"; "notes"; "style.css"]) /\
  simple_read demo_disk "notes" = inl (OtherError "IsADirectoryError") /\
  exists w' e',
    process_files simple_read simple_write counter_below elements
      ["index.html"; "notes"; "style.css"] demo_world = (w', Raised e') /\
    disk w' = demo_disk.
Proof.
  assert (H1 : "notes" ∈ ["index.html"; "notes"; "style.css"])
    by (right; left).
  assert (H2 : simple_read (disk demo_world) "notes"
               = inl (OtherError "IsADirectoryError")) by reflexivity.
  split; [exact H1|]. split; [exact H2|].
  exact (process_files_aborts_untouched simple_read simple_write
           counter_below elements ["index.html"; "notes"; "style.css"]
           demo_world "notes" _ H1 H2 eq_refl).
Defined.

End Extras.
